(** * fastembed-go: a shallow embedding of [fastembed.go]

    Part I is the embedding, in the order of the data flow:
    - Go's [float32] as IEEE-754 binary32, [normalize], [getEmbeddings];
    - [onnxEmbed] over its external collaborators (tokenizer, engine);
    - [Embed]: the main goroutine, the chunk goroutines as a step
      relation over the shared [embeddings] and [errorCh];
    - [QueryEmbed] and [PassageEmbed];
    - [retrieveModel], [downloadFromGcs] and [untar] over a world of
      file system and network.

    Part II holds the properties. *)

From Stdlib Require Import String Ascii.
From Stdlib Require Import ZArith List Lia Bool Permutation.
From Stdlib Require Import Floats.SpecFloat.
From Stdlib Require Import Reals Lra.
Import ListNotations.

Local Open Scope Z_scope.

(* ====================================================================== *)
(** * Go values shared by all components *)

(** Go's [error] values that the modelled code creates or forwards are
    identified by their message. *)
Definition error := string.

(** The three ways a Go call of type [(T, error)] can end: it returns
    [(v, nil)], it returns [(zero, err)], or a run-time panic unwinds it
    (index or slice bounds out of range). *)
Inductive result (A : Type) : Type :=
| Ok (a : A)
| Fail (e : error)
| Panic.
Arguments Ok {A} a.
Arguments Fail {A} e.
Arguments Panic {A}.

Definition bind {A B} (r : result A) (k : A -> result B) : result B :=
  match r with
  | Ok a => k a
  | Fail e => Fail e
  | Panic => Panic
  end.

Notation "x <- r ;; k" := (bind r (fun x => k))
  (at level 61, r at next level, right associativity).

(** Go's [s[lo:hi]] on a slice whose capacity equals its length: the
    elements [lo .. hi-1], and a panic unless [0 <= lo <= hi <= len(s)]. *)
Definition slice {A} (s : list A) (lo hi : Z) : result (list A) :=
  if (0 <=? lo) && (lo <=? hi) && (hi <=? Z.of_nat (length s))
  then Ok (firstn (Z.to_nat (hi - lo)) (skipn (Z.to_nat lo) s))
  else Panic.

(** Go's [int] and [int64] on the 64-bit targets the onnxruntime binding
    supports: two's complement wrap-around of the mathematical result. *)
Definition int_wrap (z : Z) : Z := (z + 2 ^ 63) mod 2 ^ 64 - 2 ^ 63.

Definition max_int : Z := 2 ^ 63 - 1.

(* ====================================================================== *)
(** * Float32: Go's [float32] and the operations [normalize] uses *)

Module Float32.

(** binary32: 24 bits of precision, infinities at exponent 128. *)
Definition prec : Z := 24.
Definition emax : Z := 128.

Definition float32 := spec_float.

Definition zero : float32 := S754_zero false.
Definition nan : float32 := S754_nan.

Definition add : float32 -> float32 -> float32 := SFadd prec emax.
Definition mul : float32 -> float32 -> float32 := SFmul prec emax.
Definition div : float32 -> float32 -> float32 := SFdiv prec emax.

(** [float64(x)]: every binary32 value is a binary64 value; the
    conversion is exact and [spec_float] keeps the same sign, mantissa
    and exponent. *)
Definition to_float64 (x : float32) : spec_float := x.

(** [math.Sqrt] on binary64: correctly rounded square root. *)
Definition sqrt64 (x : spec_float) : spec_float := SFsqrt 53 1024 x.

(** [float32(y)] for a binary64 [y]: round to nearest, ties to even. *)
Definition of_float64 (y : spec_float) : float32 :=
  match y with
  | S754_finite s m e => binary_normalize prec emax (cond_Zopp s (Zpos m)) e s
  | _ => y
  end.

(** [float32(math.Sqrt(float64(x)))]. *)
Definition sqrt (x : float32) : float32 := of_float64 (sqrt64 (to_float64 x)).

(** [float32(1e-12)]: the constant is converted at compile time to the
    nearest binary32 value, 9223372 * 2^-63 (bit pattern 0x2B8CBCCC). *)
Definition epsilon : float32 := S754_finite false 9223372 (-63).

Definition is_zero (x : float32) : bool :=
  match x with S754_zero _ => true | _ => false end.

Definition is_nan (x : float32) : bool :=
  match x with S754_nan => true | _ => false end.

Definition is_finite (x : float32) : bool :=
  match x with S754_zero _ | S754_finite _ _ _ => true | _ => false end.

(** Small integers as binary32 values, for concrete vectors. *)
Definition of_Z (z : Z) : float32 := binary_normalize prec emax z 0 false.

(** [2^k] as a binary32 value, for [-149 <= k <= 127]. *)
Definition pow2 (k : Z) : float32 := binary_normalize prec emax 1 k false.

End Float32.

(* ====================================================================== *)
(** * Normalizer: [normalize] and [getEmbeddings] *)

(** The arithmetic [normalize] is written over.  The code runs it on
    [float32]; [getEmbeddings] only moves the elements about, and what
    it slices does not depend on what they are. *)
Class Arith (F : Type) : Type := {
  fzero : F;
  fadd : F -> F -> F;
  fmul : F -> F -> F;
  fdiv : F -> F -> F;
  fsqrt : F -> F;
  fepsilon : F
}.

(** The arithmetic of the code. *)
#[export] Instance float32_arith : Arith Float32.float32 := {|
  fzero := Float32.zero;
  fadd := Float32.add;
  fmul := Float32.mul;
  fdiv := Float32.div;
  fsqrt := Float32.sqrt;
  fepsilon := Float32.epsilon
|}.

Section Normalize.
Context {F : Type} `{Arith F}.

(** First loop of [normalize]: [norm += val * val] over [v], from 0.
    Product and sum are rounded one after the other, as the amd64
    compiler does; a target that fuses them rounds once. *)
Definition sum_squares (v : list F) : F :=
  fold_left (fun norm val => fadd norm (fmul val val)) v fzero.

(** [norm] after [norm = float32(math.Sqrt(float64(norm)))]. *)
Definition norm_of (v : list F) : F := fsqrt (sum_squares v).

(** func normalize(v []float32) []float32 *)
Definition normalize (v : list F) : list F :=
  let norm := norm_of v in
  let epsilon := fepsilon in
  map (fun val => fadd (fdiv val norm) epsilon) v.

(** Body of the loop of [getEmbeddings], from index [i] for [n] more
    rounds; [x] is only the loop bound, [n] counts the rounds left. *)
Fixpoint getEmbeddings_loop (data : list F) (y z : Z) (n : nat) (i : Z)
  : result (list (list F)) :=
  match n with
  | O => Ok []
  | S n' =>
      let startIndex := int_wrap (int_wrap (i * y) * z) in
      let endIndex := int_wrap (startIndex + z) in
      row <- slice data startIndex endIndex ;;
      rest <- getEmbeddings_loop data y z n' (int_wrap (i + 1)) ;;
      Ok (normalize row :: rest)
  end.

(** func getEmbeddings(data []float32, dimensions []int64) [][]float32

    [dimensions[0..2]] panic on a shorter slice, [make] panics on a
    negative length; the loop runs for [i = 0 .. x-1]. *)
Definition getEmbeddings (data : list F) (dimensions : list Z)
  : result (list (list F)) :=
  match dimensions with
  | x :: y :: z :: _ =>
      if x <? 0 then Panic
      else getEmbeddings_loop data y z (Z.to_nat x) 0
  | _ => Panic
  end.

End Normalize.

(** The slice of [data] holding the hidden state of the first token of
    input [i], for a buffer of shape [_, y, z]. *)
Definition first_token_slice {F} (data : list F) (y z i : Z) : list F :=
  firstn (Z.to_nat z) (skipn (Z.to_nat (i * y * z)) data).

Abbreviation vector := (list Float32.float32).

(* ---------------------------------------------------------------------- *)
(** ** The real numbers behind the binary32 data *)

(** [2^e] as a real number. *)
Definition pow2R (e : Z) : R := powerRZ 2 e.

Definition sign_of (s : bool) : R := if s then (-1)%R else 1%R.

(** The real number a floating-point datum stands for; 0 for the data
    that stand for none. *)
Definition F2R (x : spec_float) : R :=
  match x with
  | S754_finite s m e => (sign_of s * (IZR (Zpos m) * pow2R e))%R
  | _ => 0%R
  end.

(** Sum of the elements and of their squares: [sqrt (Rsumsq (map F2R v))]
    is the Euclidean norm of the vector [v]. *)
Definition Rsum (v : list R) : R := fold_right Rplus 0%R v.
Definition Rsumsq (v : list R) : R := fold_right (fun x acc => (x * x + acc)%R) 0%R v.

(** A normal number: the mantissa has all its [prec] bits. *)
Definition is_normal (prec : Z) (x : spec_float) : bool :=
  match x with
  | S754_finite _ m _ => Zpos (digits2_pos m) =? prec
  | _ => false
  end.

(** Relative accuracy of a result [r] for the exact value [t]: one unit
    in the last place, [2^(1-prec)] of [r]. *)
Definition approx (prec : Z) (r : spec_float) (t : R) : Prop :=
  (Rabs (F2R r - t) <= pow2R (1 - prec) * Rabs (F2R r))%R.

(** One unit in the last place of a normal binary32 number, relatively. *)
Definition u32 : R := pow2R (1 - Float32.prec).

(** A result that is a normal binary32 number, or that is exact because
    an operand is zero: it has neither overflowed nor underflowed. *)
Definition settled (r : Float32.float32) (operands : list Float32.float32) : bool :=
  is_normal Float32.prec r || existsb Float32.is_zero operands.

(** The first loop of [normalize] from the accumulator [norm]: no square
    and no partial sum overflows or underflows. *)
Fixpoint sum_settled (v : vector) (norm : Float32.float32) : bool :=
  match v with
  | [] => true
  | val :: v' =>
      let sq := Float32.mul val val in
      let norm' := Float32.add norm sq in
      settled sq [val] && settled norm' [norm; sq] && sum_settled v' norm'
  end.

(** [normalize v] runs without overflow and underflow: the squares, the
    partial sums, the binary64 square root, the norm, the quotients and
    the returned elements are all settled, and the norm is normal. *)
Definition stays_normal (v : vector) : bool :=
  let norm := norm_of v in
  sum_settled v Float32.zero
  && is_normal 53 (Float32.sqrt64 (Float32.to_float64 (sum_squares v)))
  && is_normal Float32.prec norm
  && forallb (fun val =>
                let q := Float32.div val norm in
                settled q [val] && settled (Float32.add q Float32.epsilon) [q]) v.

(* ====================================================================== *)
(** * External collaborators *)

Inductive errno := ENOENT | EACCES | ENOTDIR | EIO.

(** [errors.Is(err, fs.ErrNotExist)] for the [err] of an [os.Stat] call;
    [None] is the nil error, for which [errors.Is] is false. *)
Definition errors_Is_ErrNotExist (err : option errno) : bool :=
  match err with
  | Some ENOENT => true
  | _ => false
  end.

Inductive tar_typeflag := TypeDir | TypeReg | TypeOther.

Record tar_header := { Name : string; Typeflag : tar_typeflag }.

(** What [tarReader.Next] yields, one element per call; the end of the
    list is [io.EOF].  A regular file carries the bytes [io.Copy] reads. *)
Inductive tar_next :=
| Next (header : tar_header) (content : string)
| NextErr (err : error).

(** A response body, seen through [gzip.NewReader]: the header is
    rejected, or the stream decodes to a sequence of tar entries. *)
Inductive body :=
| NotGzip (err : error)
| Gzip (entries : list tar_next).

Record Response := {
  StatusCode : Z;
  Status : string;
  ContentLength : Z;
  Body : body
}.

(** I/O that leaves the process, in the order it happened. *)
Inductive event :=
| EvGet (url : string)
| EvUntar (target : string).

(** The operating system and the network: [path/filepath], [os], [io]
    and [net/http] as far as the code calls them.  The answer to a GET may
    depend on everything that was requested before. *)
Class Platform : Type := {
  FS : Type;
  filepath_Join : string -> string -> string;
  filepath_Dir : string -> string;
  os_Stat : string -> FS -> option errno;
  os_MkdirAll : string -> FS -> FS * option error;
  os_Create : string -> FS -> FS * option error;
  io_Copy : string -> string -> FS -> FS * option error;
  http_Get : list event -> string -> result Response
}.

(** One [Encoding] of [sugarme/tokenizer]: the three [[]int] the code reads. *)
Record Encoding := {
  GetIds : list Z;
  GetAttentionMask : list Z;
  GetTypeIds : list Z
}.

(** The onnxruntime binding, lines 147-194 of [onnxEmbed] taken as one
    call: the three input tensors of shape [shape] are created, a session
    on the model file is created and run, and the data of the output
    tensor is read back; any error of these steps is the error of the call. *)
Class Runtime : Type := {
  ort_run : string -> list Z -> list Z -> list Z -> list Z -> result vector
}.

(** [FlagEmbedding]: the tokenizer is what [f.tokenizer.EncodeBatch(_, true)]
    answers, truncation and padding to [maxLength] being configured in it. *)
Record FlagEmbedding := {
  tokenizer_EncodeBatch : list string -> result (list Encoding);
  model : string;
  maxLength : Z;
  modelPath : string
}.

(* ====================================================================== *)
(** * [onnxEmbed]: one chunk through tokenizer, engine and normalizer *)

(** One output of [encodingToInt32]: [make([]int64, len(input))], then
    the first [n] entries are written, [n] being [len(inputA)]. *)
Definition widen (n : nat) (input : list Z) : list Z :=
  firstn n input ++ repeat 0 (length input - n).

(** func encodingToInt32(inputA, inputB, inputC []int)

    The loop ranges over [inputA] and indexes all three slices. *)
Definition encodingToInt32 (inputA inputB inputC : list Z)
  : result (list Z * list Z * list Z) :=
  if (length inputA <=? length inputB)%nat && (length inputA <=? length inputC)%nat
  then Ok (widen (length inputA) inputA,
           widen (length inputA) inputB,
           widen (length inputA) inputC)
  else Panic.

(** The loop over [encodings] in [onnxEmbed], appending to the three
    flat slices. *)
Fixpoint flatten_encodings (encodings : list Encoding)
  (flat : list Z * list Z * list Z) : result (list Z * list Z * list Z) :=
  match encodings with
  | [] => Ok flat
  | encoding :: rest =>
      let '(inputIdsFlat, inputMaskFlat, inputTypeIdsFlat) := flat in
      out <- encodingToInt32 (GetIds encoding) (GetAttentionMask encoding)
                             (GetTypeIds encoding) ;;
      let '(inputIds, inputMask, inputTypeIds) := out in
      flatten_encodings rest
        (inputIdsFlat ++ inputIds, inputMaskFlat ++ inputMask,
         inputTypeIdsFlat ++ inputTypeIds)
  end.

Section Pipeline.
Context `{Platform} `{Runtime}.
Variable f : FlagEmbedding.

(** func (f *FlagEmbedding) onnxEmbed(input []string) ([][]float32, error)

    [inputs] wraps every string of [input] at its own index, so the
    tokenizer sees the strings of [input] in order. *)
Definition onnxEmbed (input : list string) : result (list vector) :=
  let inputs := input in
  encodings <- tokenizer_EncodeBatch f inputs ;;
  flat <- flatten_encodings encodings ([], [], []) ;;
  let '(inputIdsFlat, inputMaskFlat, inputTypeIdsFlat) := flat in
  let inputShape := [Z.of_nat (length inputs); maxLength f] in
  let outputShape := [Z.of_nat (length inputs); maxLength f; 384] in
  data <- ort_run (filepath_Join (modelPath f) "model_optimized.onnx")
                  inputShape inputIdsFlat inputMaskFlat inputTypeIdsFlat ;;
  getEmbeddings data outputShape.

(* ---------------------------------------------------------------------- *)
(** ** [Embed]: the main goroutine *)

(** [if batchSize <= 0 { batchSize = 512 }] *)
Definition effective_batchSize (batchSize : Z) : Z :=
  if batchSize <=? 0 then 512 else batchSize.

(** [for i := 0; i < len(input); i += batchSize]: the values of [i] for
    which a goroutine is started.  [fuel] bounds the number of rounds;
    [None] means the bound was reached before the loop condition failed. *)
Fixpoint spawn_loop (fuel : nat) (len batchSize i : Z) : option (list Z) :=
  match fuel with
  | O => None
  | S fuel' =>
      if i <? len
      then option_map (cons i) (spawn_loop fuel' len batchSize (int_wrap (i + batchSize)))
      else Some []
  end.

(** [end] in the goroutine started at [i]. *)
Definition chunk_end (len batchSize i : Z) : Z :=
  let end_ := int_wrap (i + batchSize) in
  if end_ >? len then len else end_.

(** [copy(embeddings[i:end], batchOut)]: as many elements as the shorter
    of the two slices holds are overwritten, the others stay. *)
Definition copy_into (embeddings : list vector) (i end_ : Z) (batchOut : list vector)
  : result (list vector) :=
  dst <- slice embeddings i end_ ;;
  let n := Nat.min (length dst) (length batchOut) in
  Ok (firstn (Z.to_nat i) embeddings ++ firstn n batchOut
      ++ skipn (Z.to_nat i + n) embeddings).

(* ---------------------------------------------------------------------- *)
(** ** [Embed]: the goroutines *)

(** Where a goroutine stands: before [f.onnxEmbed] has returned, before
    [errorCh <- err], before [copy], after [wg.Done]. *)
Inductive pc :=
| Calling
| Sending (batchOut : list vector) (err : error)
| Copying (batchOut : list vector)
| Done.

Record goroutine := { g_i : Z; g_pc : pc }.

(** The memory the goroutines share. *)
Record state := {
  goroutines : list goroutine;
  embeddings : list vector;
  errorCh : list error
}.

Inductive config :=
| Running (s : state)
| Crashed.

Section Steps.
Variable input : list string.
Variable batchSize : Z.

(** [input[i:end]] followed by [f.onnxEmbed]. *)
Definition call_onnxEmbed (i : Z) : result (list vector) :=
  chunk <- slice input i (chunk_end (Z.of_nat (length input)) batchSize i) ;;
  onnxEmbed chunk.

(** One step of one goroutine; the scheduler may pick any goroutine that
    can move.  A send blocks while the channel holds [len(input)] errors. *)
Inductive step : config -> config -> Prop :=
| step_call_ok l1 l2 i emb ch batchOut :
    call_onnxEmbed i = Ok batchOut ->
    step (Running {| goroutines := l1 ++ {| g_i := i; g_pc := Calling |} :: l2;
                     embeddings := emb; errorCh := ch |})
         (Running {| goroutines := l1 ++ {| g_i := i; g_pc := Copying batchOut |} :: l2;
                     embeddings := emb; errorCh := ch |})
| step_call_err l1 l2 i emb ch err :
    call_onnxEmbed i = Fail err ->
    step (Running {| goroutines := l1 ++ {| g_i := i; g_pc := Calling |} :: l2;
                     embeddings := emb; errorCh := ch |})
         (Running {| goroutines := l1 ++ {| g_i := i; g_pc := Sending [] err |} :: l2;
                     embeddings := emb; errorCh := ch |})
| step_call_panic l1 l2 i emb ch :
    call_onnxEmbed i = Panic ->
    step (Running {| goroutines := l1 ++ {| g_i := i; g_pc := Calling |} :: l2;
                     embeddings := emb; errorCh := ch |})
         Crashed
| step_send l1 l2 i emb ch batchOut err :
    (length ch < length input)%nat ->
    step (Running {| goroutines := l1 ++ {| g_i := i; g_pc := Sending batchOut err |} :: l2;
                     embeddings := emb; errorCh := ch |})
         (Running {| goroutines := l1 ++ {| g_i := i; g_pc := Copying batchOut |} :: l2;
                     embeddings := emb; errorCh := ch ++ [err] |})
| step_copy_ok l1 l2 i emb ch batchOut emb' :
    copy_into emb i (chunk_end (Z.of_nat (length input)) batchSize i) batchOut = Ok emb' ->
    step (Running {| goroutines := l1 ++ {| g_i := i; g_pc := Copying batchOut |} :: l2;
                     embeddings := emb; errorCh := ch |})
         (Running {| goroutines := l1 ++ {| g_i := i; g_pc := Done |} :: l2;
                     embeddings := emb'; errorCh := ch |})
| step_copy_panic l1 l2 i emb ch batchOut :
    copy_into emb i (chunk_end (Z.of_nat (length input)) batchSize i) batchOut = Panic ->
    step (Running {| goroutines := l1 ++ {| g_i := i; g_pc := Copying batchOut |} :: l2;
                     embeddings := emb; errorCh := ch |})
         Crashed.

Inductive steps : config -> config -> Prop :=
| steps_refl c : steps c c
| steps_snoc c1 c2 c3 : steps c1 c2 -> step c2 c3 -> steps c1 c3.

End Steps.

(* ---------------------------------------------------------------------- *)
(** ** [Embed]: start, barrier and return *)

(** The state when the [for] loop of [Embed] has started its goroutines:
    [embeddings] holds [len(input)] nil slices, [errorCh] is empty.  The
    goroutines are taken as all started; one that is started later can
    only do less. *)
Definition Embed_start (input : list string) (batchSize : Z) : option state :=
  let batchSize := effective_batchSize batchSize in
  match spawn_loop (S (length input)) (Z.of_nat (length input)) batchSize 0 with
  | None => None
  | Some starts =>
      Some {| goroutines := map (fun i => {| g_i := i; g_pc := Calling |}) starts;
              embeddings := repeat [] (length input);
              errorCh := [] |}
  end.

(** [wg.Wait()] returns when every goroutine has run [wg.Done]. *)
Definition all_done (s : state) : Prop :=
  Forall (fun g => g_pc g = Done) (goroutines s).

(** After the barrier: [if len(errorCh) > 0 { return nil, <-errorCh }],
    else [return embeddings, nil]. *)
Definition Embed_finish (s : state) : result (list vector) :=
  match errorCh s with
  | err :: _ => Fail err
  | [] => Ok (embeddings s)
  end.

(** The states in which [wg.Wait()] can return. *)
Definition Embed_final (input : list string) (batchSize : Z) (s : state) : Prop :=
  exists s0,
    Embed_start input batchSize = Some s0 /\
    steps input (effective_batchSize batchSize) (Running s0) (Running s) /\
    all_done s.

(** func (f *FlagEmbedding) Embed(input []string, batchSize int) ([][]float32, error)

    [Embed_returns input batchSize r]: some schedule of the goroutines
    makes the call end in [r]. *)
Inductive Embed_returns (input : list string) (batchSize : Z)
  : result (list vector) -> Prop :=
| Embed_return s :
    Embed_final input batchSize s ->
    Embed_returns input batchSize (Embed_finish s)
| Embed_panic s0 :
    Embed_start input batchSize = Some s0 ->
    steps input (effective_batchSize batchSize) (Running s0) Crashed ->
    Embed_returns input batchSize Panic.

(** The chunks the goroutines of [Embed] pass to [onnxEmbed], in the
    order the goroutines are started. *)
Fixpoint chunks_from (input : list string) (batchSize : Z) (starts : list Z)
  : result (list (list string)) :=
  match starts with
  | [] => Ok []
  | i :: rest =>
      chunk <- slice input i (chunk_end (Z.of_nat (length input)) batchSize i) ;;
      more <- chunks_from input batchSize rest ;;
      Ok (chunk :: more)
  end.

Definition Embed_chunks (input : list string) (batchSize : Z)
  : option (result (list (list string))) :=
  let batchSize := effective_batchSize batchSize in
  option_map (chunks_from input batchSize)
    (spawn_loop (S (length input)) (Z.of_nat (length input)) batchSize 0).

(** The vector [onnxEmbed] computes for the string at index [p], in the
    chunk that holds it: the chunk starts at the multiple of the chunk
    size below [p]. *)
Definition embedding_of (input : list string) (batchSize : Z) (p : Z) : vector :=
  let bs := effective_batchSize batchSize in
  let i := p / bs * bs in
  match call_onnxEmbed input bs i with
  | Ok batchOut => nth (Z.to_nat (p - i)) batchOut []
  | _ => []
  end.

(* ---------------------------------------------------------------------- *)
(** ** [QueryEmbed] and [PassageEmbed] *)

(** [data[0]] *)
Definition index0 {A} (data : list A) : result A :=
  match data with
  | x :: _ => Ok x
  | [] => Panic
  end.

(** func (f *FlagEmbedding) QueryEmbed(input string) ([]float32, error) *)
Definition QueryEmbed (input : string) : result vector :=
  let query := ("query: " ++ input)%string in
  data <- onnxEmbed [query] ;;
  index0 data.

(** [s[i] = x] on a slice: in range it replaces the element, out of
    range it panics. *)
Definition store {A} (s : list A) (i : nat) (x : A) : result (list A) :=
  if (i <? length s)%nat
  then Ok (firstn i s ++ x :: skipn (S i) s)
  else Panic.

(** [for i, v := range input { processedInput[i] = "passage: " + v }],
    from index [i] on. *)
Fixpoint PassageEmbed_loop (input : list string) (i : nat)
  (processedInput : list string) : result (list string) :=
  match input with
  | [] => Ok processedInput
  | v :: rest =>
      processedInput' <- store processedInput i ("passage: " ++ v)%string ;;
      PassageEmbed_loop rest (S i) processedInput'
  end.

(** [processedInput] when [PassageEmbed] calls [f.Embed]. *)
Definition PassageEmbed_processedInput (input : list string) : result (list string) :=
  PassageEmbed_loop input 0 (repeat ""%string (length input)).

(** func (f *FlagEmbedding) PassageEmbed(input []string, batchSize int) ([][]float32, error) *)
Definition PassageEmbed_returns (input : list string) (batchSize : Z)
  (r : result (list vector)) : Prop :=
  match PassageEmbed_processedInput input with
  | Ok processedInput => Embed_returns processedInput batchSize r
  | Fail _ => False
  | Panic => r = Panic
  end.

End Pipeline.

(* ====================================================================== *)
(** * The model cache: [retrieveModel], [downloadFromGcs], [untar] *)

(** What the calls below read and change: the file system, and the record
    of the I/O done so far. *)
Record World `{Platform} := { fs : FS; trace : list event }.

Section ArtifactStore.
Context `{Platform}.

(** The [for] loop of [untar] over the entries still to be read. *)
Fixpoint untar_loop (entries : list tar_next) (target : string) (fs0 : FS)
  : FS * option error :=
  match entries with
  | [] => (fs0, None)
  | NextErr err :: _ => (fs0, Some err)
  | Next header content :: rest =>
      let path := filepath_Join target (Name header) in
      match Typeflag header with
      | TypeDir =>
          match os_MkdirAll path fs0 with
          | (fs1, Some err) => (fs1, Some err)
          | (fs1, None) => untar_loop rest target fs1
          end
      | TypeReg =>
          match os_MkdirAll (filepath_Dir path) fs0 with
          | (fs1, Some err) => (fs1, Some err)
          | (fs1, None) =>
              match os_Create path fs1 with
              | (fs2, Some err) => (fs2, Some err)
              | (fs2, None) =>
                  match io_Copy path content fs2 with
                  | (fs3, Some err) => (fs3, Some err)
                  | (fs3, None) => untar_loop rest target fs3
                  end
              end
          end
      | TypeOther => untar_loop rest target fs0
      end
  end.

(** func untar(tarball io.Reader, target string) error *)
Definition untar (tarball : body) (target : string) (w : World)
  : option error * World :=
  let w1 := {| fs := fs w; trace := trace w ++ [EvUntar target] |} in
  match tarball with
  | NotGzip err => (Some err, w1)
  | Gzip entries =>
      let (fs', err) := untar_loop entries target (fs w1) in
      (err, {| fs := fs'; trace := trace w1 |})
  end.

(** [progressbar.NewReader(response.Body, bar)]: the same bytes. *)
Definition progressbar_NewReader (b : body) : body := b.

(** [fmt.Sprintf("https://storage.googleapis.com/qdrant-fastembed/%s.tar.gz", model)] *)
Definition downloadURL (model : string) : string :=
  ("https://storage.googleapis.com/qdrant-fastembed/" ++ model ++ ".tar.gz")%string.

(** func downloadFromGcs(model EmbeddingModel, cacheDir string, showDownloadProgress bool) (string, error) *)
Definition downloadFromGcs (model cacheDir : string) (showDownloadProgress : bool)
  (w : World) : result string * World :=
  let w1 := {| fs := fs w; trace := trace w ++ [EvGet (downloadURL model)] |} in
  match http_Get (trace w) (downloadURL model) with
  | Panic => (Panic, w1)
  | Fail err => (Fail err, w1)
  | Ok response =>
      if (StatusCode response <? 200) || (StatusCode response >? 299)
      then (Fail ("model download failed: " ++ Status response)%string, w1)
      else
        let (err, w2) :=
          if showDownloadProgress
          then untar (progressbar_NewReader (Body response)) cacheDir w1
          else untar (Body response) cacheDir w1 in
        match err with
        | Some e => (Fail e, w2)
        | None => (Ok (filepath_Join cacheDir model), w2)
        end
  end.

(** func retrieveModel(model EmbeddingModel, cacheDir string, showDownloadProgress bool) (string, error) *)
Definition retrieveModel (model cacheDir : string) (showDownloadProgress : bool)
  (w : World) : result string * World :=
  if negb (errors_Is_ErrNotExist (os_Stat (filepath_Join cacheDir model) (fs w)))
  then (Ok (filepath_Join cacheDir model), w)
  else downloadFromGcs model cacheDir showDownloadProgress w.

(** The GETs among the I/O of a trace. *)
Definition network_calls (t : list event) : list string :=
  flat_map (fun e => match e with EvGet url => [url] | EvUntar _ => [] end) t.

(** The extractions among the I/O of a trace. *)
Definition extractions (t : list event) : list string :=
  flat_map (fun e => match e with EvUntar target => [target] | EvGet _ => [] end) t.

End ArtifactStore.

(* ====================================================================== *)
(** * Schedules: running the goroutines of [Embed] in a given order *)

Section Schedules.
Context `{Platform} `{Runtime}.
Variable f : FlagEmbedding.
Variable input : list string.
Variable batchSize : Z.

(** The step of goroutine number [k], when it can move. *)
Definition exec_step (k : nat) (s : state) : option config :=
  match nth_error (goroutines s) k with
  | None => None
  | Some g =>
      let l1 := firstn k (goroutines s) in
      let l2 := skipn (S k) (goroutines s) in
      let i := g_i g in
      match g_pc g with
      | Calling =>
          match call_onnxEmbed f input batchSize i with
          | Ok batchOut =>
              Some (Running {| goroutines := l1 ++ {| g_i := i; g_pc := Copying batchOut |} :: l2;
                               embeddings := embeddings s; errorCh := errorCh s |})
          | Fail err =>
              Some (Running {| goroutines := l1 ++ {| g_i := i; g_pc := Sending [] err |} :: l2;
                               embeddings := embeddings s; errorCh := errorCh s |})
          | Panic => Some Crashed
          end
      | Sending batchOut err =>
          if (length (errorCh s) <? length input)%nat
          then Some (Running {| goroutines := l1 ++ {| g_i := i; g_pc := Copying batchOut |} :: l2;
                                embeddings := embeddings s; errorCh := errorCh s ++ [err] |})
          else None
      | Copying batchOut =>
          match copy_into (embeddings s) i
                          (chunk_end (Z.of_nat (length input)) batchSize i) batchOut with
          | Ok emb' =>
              Some (Running {| goroutines := l1 ++ {| g_i := i; g_pc := Done |} :: l2;
                               embeddings := emb'; errorCh := errorCh s |})
          | Fail _ => None
          | Panic => Some Crashed
          end
      | Done => None
      end
  end.

(** A schedule names the goroutine that moves next, step after step. *)
Fixpoint run_schedule (schedule : list nat) (c : config) : option config :=
  match schedule with
  | [] => Some c
  | k :: rest =>
      match c with
      | Crashed => None
      | Running s =>
          match exec_step k s with
          | None => None
          | Some c' => run_schedule rest c'
          end
      end
  end.

Definition is_Done (p : pc) : bool :=
  match p with Done => true | _ => false end.

End Schedules.

Section EmbedUnderSchedule.
Context `{Platform} `{Runtime}.
Variable f : FlagEmbedding.

(** [Embed] under one schedule: [None] when the schedule asks a
    goroutine that cannot move, or stops before the barrier opens. *)
Definition Embed_under (schedule : list nat) (input : list string) (batchSize : Z)
  : option (result (list vector)) :=
  match Embed_start input batchSize with
  | None => None
  | Some s0 =>
      match run_schedule f input (effective_batchSize batchSize) schedule (Running s0) with
      | Some (Running s) =>
          if forallb (fun g => is_Done (g_pc g)) (goroutines s)
          then Some (Embed_finish s)
          else None
      | Some Crashed => Some Panic
      | None => None
      end
  end.

(** The errors of the chunks whose [onnxEmbed] fails, in chunk order. *)
Definition errors_of (input : list string) (batchSize : Z) (starts : list Z)
  : list error :=
  flat_map (fun i => match call_onnxEmbed f input batchSize i with
                     | Fail err => [err]
                     | _ => []
                     end) starts.

Definition task_errors (input : list string) (batchSize : Z) : list error :=
  let batchSize := effective_batchSize batchSize in
  match spawn_loop (S (length input)) (Z.of_nat (length input)) batchSize 0 with
  | Some starts => errors_of input batchSize starts
  | None => []
  end.

(** No chunk makes [onnxEmbed] panic. *)
Definition no_task_panics (input : list string) (batchSize : Z) : Prop :=
  let batchSize := effective_batchSize batchSize in
  forall starts,
    spawn_loop (S (length input)) (Z.of_nat (length input)) batchSize 0 = Some starts ->
    Forall (fun i => call_onnxEmbed f input batchSize i <> Panic) starts.

End EmbedUnderSchedule.

(* ====================================================================== *)
(** * What holds in every state the goroutines of [Embed] can reach *)

(** The loop counter of [Embed] at the rounds that start a goroutine:
    the multiples of the chunk size below [len]. *)
Definition chunk_count (len batchSize : Z) : nat :=
  Z.to_nat ((len + batchSize - 1) / batchSize).

Definition chunk_starts (len batchSize : Z) : list Z :=
  map (fun k => Z.of_nat k * batchSize) (seq 0 (chunk_count len batchSize)).

Section Invariant.
Context `{Platform} `{Runtime}.
Variable f : FlagEmbedding.
Variable input : list string.
Variable batchSize : Z.

(** The local variables of a goroutine agree with what [onnxEmbed]
    returned to it. *)
Definition pc_ok (g : goroutine) : Prop :=
  match g_pc g with
  | Calling => True
  | Sending batchOut err =>
      batchOut = [] /\ call_onnxEmbed f input batchSize (g_i g) = Fail err
  | Copying batchOut =>
      call_onnxEmbed f input batchSize (g_i g) = Ok batchOut \/
      (batchOut = [] /\ exists err, call_onnxEmbed f input batchSize (g_i g) = Fail err)
  | Done => call_onnxEmbed f input batchSize (g_i g) <> Panic
  end.

(** The errors of the goroutines that are past [errorCh <- err]. *)
Definition sent_errors (gs : list goroutine) : list error :=
  flat_map (fun g => match g_pc g with
                     | Copying _ | Done => errors_of f input batchSize [g_i g]
                     | _ => []
                     end) gs.

(** The range [[i, end)] of a goroutine holds its rows once it is done,
    and nil slices before. *)
Definition range_ok (emb : list vector) (g : goroutine) : Prop :=
  forall p : Z,
    g_i g <= p < Z.min (g_i g + batchSize) (Z.of_nat (length input)) ->
    nth (Z.to_nat p) emb [] =
    if is_Done (g_pc g)
    then match call_onnxEmbed f input batchSize (g_i g) with
         | Ok batchOut => nth (Z.to_nat (p - g_i g)) batchOut []
         | _ => []
         end
    else [].

Record Inv (s : state) : Prop := {
  inv_starts : map g_i (goroutines s)
               = chunk_starts (Z.of_nat (length input)) batchSize;
  inv_length : length (embeddings s) = length input;
  inv_pc : Forall pc_ok (goroutines s);
  inv_ranges : Forall (range_ok (embeddings s)) (goroutines s);
  inv_errors : Permutation (errorCh s) (sent_errors (goroutines s))
}.

(** Steps a goroutine still has to take, at most. *)
Definition steps_left (g : goroutine) : nat :=
  match g_pc g with
  | Calling => 3
  | Sending _ _ => 2
  | Copying _ => 1
  | Done => 0
  end.

Definition work_left (s : state) : nat :=
  fold_right (fun g n => (steps_left g + n)%nat) 0%nat (goroutines s).

End Invariant.

(* ====================================================================== *)
(** * The loops of [encodingToInt32] and the tensors of [onnxEmbed] *)

(** [s[i]] read from a slice: out of range it panics. *)
Definition load {A} (s : list A) (i : nat) : result A :=
  match nth_error s i with
  | Some x => Ok x
  | None => Panic
  end.

(** The [for i := range inputA] loop of [encodingToInt32], statement by
    statement, for the [n] indices from [i] on. *)
Fixpoint encodingToInt32_loop (n i : nat) (inputA inputB inputC : list Z)
  (outputs : list Z * list Z * list Z) : result (list Z * list Z * list Z) :=
  match n with
  | O => Ok outputs
  | S n' =>
      let '(outputA, outputB, outputC) := outputs in
      a <- load inputA i ;;
      outputA' <- store outputA i a ;;
      b <- load inputB i ;;
      outputB' <- store outputB i b ;;
      c <- load inputC i ;;
      outputC' <- store outputC i c ;;
      encodingToInt32_loop n' (S i) inputA inputB inputC (outputA', outputB', outputC')
  end.

(** [encodingToInt32] as it is written: three [make], then the loop. *)
Definition encodingToInt32_src (inputA inputB inputC : list Z)
  : result (list Z * list Z * list Z) :=
  encodingToInt32_loop (length inputA) 0 inputA inputB inputC
    (repeat 0 (length inputA), repeat 0 (length inputB), repeat 0 (length inputC)).

(** An encoding whose three arrays hold [L] entries each. *)
Definition well_shaped (L : nat) (encoding : Encoding) : Prop :=
  length (GetIds encoding) = L /\
  length (GetAttentionMask encoding) = L /\
  length (GetTypeIds encoding) = L.

Section Tensors.
Context `{Platform} `{Runtime}.
Variable f : FlagEmbedding.

(** [onnxEmbed] up to the call of the engine: the shape and the three
    flat buffers the input tensors are made of. *)
Definition onnxEmbed_tensors (input : list string)
  : result (list Z * (list Z * list Z * list Z)) :=
  encodings <- tokenizer_EncodeBatch f input ;;
  flat <- flatten_encodings encodings ([], [], []) ;;
  Ok ([Z.of_nat (length input); maxLength f], flat).

End Tensors.

(* ====================================================================== *)
(** * [NewFlagEmbedding] *)

Record InitOptions := {
  Model : string;
  ExecutionProviders : list string;
  MaxLength : Z;
  CacheDir : string;
  ShowDownloadProgress : option bool;
  OnnxPath : string
}.

(** [tokenizer.TruncationParams] and [tokenizer.PaddingParams], as far as
    [NewFlagEmbedding] sets them. *)
Inductive truncation_strategy := LongestFirst.
Inductive padding_direction := Right.

Record TruncationParams := {
  trunc_MaxLength : Z;
  trunc_Strategy : truncation_strategy;
  trunc_Stride : Z
}.

Record PaddingParams := {
  pad_Fixed : Z;
  pad_Direction : padding_direction;
  pad_PadId : Z;
  pad_PadToken : string
}.

(** The part of the process that [ort] keeps: the path set by
    [ort.SetSharedLibraryPath] and what [ort.IsInitialized] answers. *)
Record OrtState := { SharedLibraryPath : string; IsInitialized : bool }.

(** The process: the world outside and the state of the [ort] package. *)
Record Process `{Platform} := { world : World; ort : OrtState }.

(** What [NewFlagEmbedding] calls beyond the platform:
    [ort.InitializeEnvironment] with the library path in force, and
    [pretrained.FromFile] followed by [WithTruncation] and [WithPadding],
    which yield the tokenizer that [EncodeBatch] is called on. *)
Class Loader `{Platform} : Type := {
  ort_InitializeEnvironment : string -> option error;
  pretrained_FromFile : string -> FS -> result unit;
  configured_EncodeBatch :
    string -> FS -> TruncationParams -> PaddingParams ->
    list string -> result (list Encoding)
}.

Section Construction.
Context `{HP : Platform} `{HL : @Loader HP}.

(** The four defaults of [NewFlagEmbedding], written back into
    [*options]. *)
Definition default_options (options : InitOptions) : InitOptions :=
  let options1 :=
    if String.eqb (CacheDir options) ""
    then {| Model := Model options; ExecutionProviders := ExecutionProviders options;
            MaxLength := MaxLength options; CacheDir := "local_cache";
            ShowDownloadProgress := ShowDownloadProgress options;
            OnnxPath := OnnxPath options |}
    else options in
  let options2 :=
    if String.eqb (Model options1) ""
    then {| Model := "fast-bge-small-en"; ExecutionProviders := ExecutionProviders options1;
            MaxLength := MaxLength options1; CacheDir := CacheDir options1;
            ShowDownloadProgress := ShowDownloadProgress options1;
            OnnxPath := OnnxPath options1 |}
    else options1 in
  let options3 :=
    if MaxLength options2 =? 0
    then {| Model := Model options2; ExecutionProviders := ExecutionProviders options2;
            MaxLength := 512; CacheDir := CacheDir options2;
            ShowDownloadProgress := ShowDownloadProgress options2;
            OnnxPath := OnnxPath options2 |}
    else options2 in
  match ShowDownloadProgress options3 with
  | None =>
      {| Model := Model options3; ExecutionProviders := ExecutionProviders options3;
         MaxLength := MaxLength options3; CacheDir := CacheDir options3;
         ShowDownloadProgress := Some true;
         OnnxPath := OnnxPath options3 |}
  | Some _ => options3
  end.

(** [*options.ShowDownloadProgress] after the defaults. *)
Definition show_progress (options : InitOptions) : bool :=
  match ShowDownloadProgress options with
  | Some b => b
  | None => true
  end.

(** func NewFlagEmbedding(options *InitOptions), returning a
    [*FlagEmbedding] and an [error].

    The answer, [*options] after the call, and the process after it. *)
Definition NewFlagEmbedding (options : InitOptions) (p : Process)
  : result FlagEmbedding * InitOptions * Process :=
  let options := default_options options in
  let ort1 :=
    if negb (String.eqb (OnnxPath options) "")
    then {| SharedLibraryPath := OnnxPath options; IsInitialized := IsInitialized (ort p) |}
    else ort p in
  let init :=
    if negb (IsInitialized ort1)
    then match ort_InitializeEnvironment (SharedLibraryPath ort1) with
         | Some err => Fail err
         | None => Ok {| SharedLibraryPath := SharedLibraryPath ort1;
                         IsInitialized := true |}
         end
    else Ok ort1 in
  match init with
  | Panic => (Panic, options, {| world := world p; ort := ort1 |})
  | Fail err => (Fail err, options, {| world := world p; ort := ort1 |})
  | Ok ort2 =>
      match retrieveModel (Model options) (CacheDir options) (show_progress options)
                          (world p) with
      | (Panic, w1) => (Panic, options, {| world := w1; ort := ort2 |})
      | (Fail err, w1) => (Fail err, options, {| world := w1; ort := ort2 |})
      | (Ok modelPath, w1) =>
          let file := filepath_Join modelPath "tokenizer.json" in
          match pretrained_FromFile file (fs w1) with
          | Panic => (Panic, options, {| world := w1; ort := ort2 |})
          | Fail err => (Fail err, options, {| world := w1; ort := ort2 |})
          | Ok _ =>
              let maxLen := MaxLength options in
              let truncation := {| trunc_MaxLength := maxLen;
                                   trunc_Strategy := LongestFirst;
                                   trunc_Stride := 0 |} in
              let paddingParams := {| pad_Fixed := maxLen;
                                      pad_Direction := Right;
                                      pad_PadId := 0;
                                      pad_PadToken := "[PAD]" |} in
              (Ok {| tokenizer_EncodeBatch :=
                       configured_EncodeBatch file (fs w1) truncation paddingParams;
                     model := Model options;
                     maxLength := maxLen;
                     modelPath := modelPath |},
               options, {| world := w1; ort := ort2 |})
          end
      end
  end.

(** func (f *FlagEmbedding) Destroy() *)
Definition Destroy (p : Process) : Process :=
  {| world := world p;
     ort := {| SharedLibraryPath := SharedLibraryPath (ort p); IsInitialized := false |} |}.

End Construction.

(* ====================================================================== *)
(** * Small collaborators, for running the code on concrete inputs *)

Local Open Scope string_scope.

Definition sample_Join (dir name : string) : string := (dir ++ "/" ++ name)%string.

(** The part of a path before its last slash, if it has one. *)
Fixpoint before_last_slash (path : string) : option string :=
  match path with
  | EmptyString => None
  | String c rest =>
      match before_last_slash rest with
      | Some d => Some (String c d)
      | None => if Ascii.eqb c "/" then Some EmptyString else None
      end
  end.

Definition sample_Dir (path : string) : string :=
  match before_last_slash path with
  | Some EmptyString => "/"%string
  | Some d => d
  | None => "."%string
  end.

(** A file system that knows which paths exist and which paths cannot be
    examined. *)
Record SampleFS := { present : list string; forbidden : list string }.

Definition mem (p : string) (l : list string) : bool :=
  existsb (String.eqb p) l.

Definition sample_Stat (path : string) (fs0 : SampleFS) : option errno :=
  if mem path (forbidden fs0) then Some EACCES
  else if mem path (present fs0) then None
  else Some ENOENT.

Definition sample_add (path : string) (fs0 : SampleFS) : SampleFS * option error :=
  ({| present := path :: present fs0; forbidden := forbidden fs0 |}, None).

Definition sample_platform (server : list event -> string -> result Response)
  : Platform := {|
  FS := SampleFS;
  filepath_Join := sample_Join;
  filepath_Dir := sample_Dir;
  os_Stat := sample_Stat;
  os_MkdirAll := sample_add;
  os_Create := sample_add;
  io_Copy := fun _ _ fs0 => (fs0, None);
  http_Get := server
|}.

(** A server that answers every request with 404. *)
Definition server_404 (_ : list event) (_ : string) : result Response :=
  Ok {| StatusCode := 404; Status := "404 Not Found";
        ContentLength := 0; Body := NotGzip "unexpected EOF" |}.

(** A server that answers every request with a well-formed archive. *)
Definition server_200 (entries : list tar_next) (_ : list event) (_ : string)
  : result Response :=
  Ok {| StatusCode := 200; Status := "200 OK";
        ContentLength := 1024; Body := Gzip entries |}.

Definition empty_fs : SampleFS := {| present := []; forbidden := [] |}.

(** An engine with one token per input and hidden states
    [id, 1, 0, ..., 0] of dimension 384. *)
Definition sample_runtime : Runtime := {|
  ort_run := fun _ _ ids _ _ =>
    Ok (flat_map (fun id => Float32.of_Z id :: Float32.of_Z 1
                            :: repeat Float32.zero 382) ids)
|}.

(** A tokenizer with one token per input, the length of the string; it
    rejects a batch that holds a string starting with an exclamation
    mark, and names that string. *)
Definition sample_EncodeBatch (inputs : list string) : result (list Encoding) :=
  match find (String.prefix "!") inputs with
  | Some s => Fail ("tokenizer: " ++ s)
  | None =>
      Ok (map (fun s => {| GetIds := [Z.of_nat (String.length s)];
                           GetAttentionMask := [1];
                           GetTypeIds := [0] |}) inputs)
  end.

Definition sample_embedder : FlagEmbedding := {|
  tokenizer_EncodeBatch := sample_EncodeBatch;
  model := "fast-bge-small-en";
  maxLength := 1;
  modelPath := "local_cache/fast-bge-small-en"
|}.

(** A tokenizer that accepts every string, with the same engine: the
    hidden states of a string are [length, 1, 0, ..., 0]. *)
Definition plain_EncodeBatch (inputs : list string) : result (list Encoding) :=
  Ok (map (fun s => {| GetIds := [Z.of_nat (String.length s)];
                       GetAttentionMask := [1];
                       GetTypeIds := [0] |}) inputs).

Definition plain_embedder : FlagEmbedding := {|
  tokenizer_EncodeBatch := plain_EncodeBatch;
  model := "fast-bge-small-en";
  maxLength := 1;
  modelPath := "local_cache/fast-bge-small-en"
|}.

Definition plain_row (s : string) : vector :=
  Float32.of_Z (Z.of_nat (String.length s)) :: Float32.of_Z 1
  :: repeat Float32.zero 382.

Definition plain_embedding (s : string) : vector := normalize (plain_row s).

(** A loader whose runtime library is found unless it is asked for
    ["missing.so"], and whose tokenizer file always loads. *)
Definition sample_loader (P : Platform) : @Loader P := {|
  ort_InitializeEnvironment := fun library =>
    if String.eqb library "missing.so" then Some "library not found" else None;
  pretrained_FromFile := fun _ _ => Ok tt;
  configured_EncodeBatch := fun _ _ _ _ => sample_EncodeBatch
|}.

(** The zero value of [InitOptions], and a process that has not
    initialized the runtime, on a cold and on a warm cache. *)
Definition zero_options : InitOptions := {|
  Model := ""; ExecutionProviders := []; MaxLength := 0; CacheDir := "";
  ShowDownloadProgress := None; OnnxPath := ""
|}.

Definition fresh_process (server : list event -> string -> result Response)
  (fs0 : SampleFS) : @Process (sample_platform server) :=
  @Build_Process (sample_platform server)
    (@Build_World (sample_platform server) fs0 [])
    {| SharedLibraryPath := "onnxruntime.so"; IsInitialized := false |}.

Definition warm_fs : SampleFS :=
  {| present := ["local_cache/fast-bge-small-en"]; forbidden := [] |}.

Local Close Scope string_scope.

(** Three inputs in chunks of two, the second chunk finishing first. *)
Definition sample_world : Platform := sample_platform server_404.

Definition sample_input : list string := ["a"; "bb"; "ccc"]%string.

Definition sample_schedule : list nat := [1; 1; 0; 0]%nat.

(** Two failing chunks. *)
Definition failing_input : list string := ["!x"; "bb"; "!y"]%string.

(** A cold cache, and a cache whose entry for ["m"] cannot be examined. *)
Definition cold_world (server : list event -> string -> result Response)
  : @World (sample_platform server) :=
  @Build_World (sample_platform server) empty_fs [].

Definition locked_world : @World sample_world :=
  @Build_World sample_world
    {| present := []; forbidden := ["cache/m"%string] |} [].

(** An archive with the directory ["m"] and one file in it. *)
Definition model_archive : list tar_next :=
  [Next {| Name := "m"; Typeflag := TypeDir |} "";
   Next {| Name := "m/tokenizer.json"; Typeflag := TypeReg |} "{}"]%string.

(** The entries [untar] acts on: directories, regular files, and the
    errors of the reader. *)
Definition extracted (entry : tar_next) : bool :=
  match entry with
  | Next header _ =>
      match Typeflag header with
      | TypeOther => false
      | _ => true
      end
  | NextErr _ => true
  end.

(** A path is there: [os.Stat] does not answer with a not-exist error. *)
Definition seen `{Platform} (path : string) (fs0 : FS) : Prop :=
  errors_Is_ErrNotExist (os_Stat path fs0) = false.

(** An archive that breaks off after the directory of the model. *)
Definition truncated_archive : list tar_next :=
  [Next {| Name := "m"; Typeflag := TypeDir |} "";
   NextErr "unexpected EOF"]%string.

(** Two resolutions in a row: both answers and the world after them. *)
Definition retrieve_twice `{Platform} (model cacheDir : string) (w : World)
  : result string * result string * World :=
  let (r1, w1) := retrieveModel model cacheDir true w in
  let (r2, w2) := retrieveModel model cacheDir true w1 in
  (r1, r2, w2).

(* ====================================================================== *)
(* ====================================================================== *)
(** * Part II: properties *)

(* ---------------------------------------------------------------------- *)
(** ** Facts about [int_wrap] and [slice] *)

Lemma int_wrap_id (z : Z) : - 2 ^ 63 <= z <= max_int -> int_wrap z = z.
Proof.
unfold int_wrap, max_int. intros Hz.
rewrite Z.mod_small; lia.
Qed.

Lemma slice_ok {A} (s : list A) (lo hi : Z) :
0 <= lo -> lo <= hi -> hi <= Z.of_nat (length s) ->
slice s lo hi = Ok (firstn (Z.to_nat (hi - lo)) (skipn (Z.to_nat lo) s)).
Proof.
intros H0 H1 H2. unfold slice.
destruct (Z.leb_spec 0 lo); try lia.
destruct (Z.leb_spec lo hi); try lia.
destruct (Z.leb_spec hi (Z.of_nat (length s))); try lia.
reflexivity.
Qed.

Lemma slice_length {A} (s : list A) (lo hi : Z) (r : list A) :
slice s lo hi = Ok r -> Z.of_nat (length r) = hi - lo.
Proof.
unfold slice.
destruct (Z.leb_spec 0 lo); simpl; try discriminate.
destruct (Z.leb_spec lo hi); simpl; try discriminate.
destruct (Z.leb_spec hi (Z.of_nat (length s))); simpl; try discriminate.
intros E. injection E as <-.
rewrite length_firstn, length_skipn. lia.
Qed.

(* ---------------------------------------------------------------------- *)
(** ** [getEmbeddings] reads the first token of every input *)

Section GetEmbeddingsFacts.
Context {F : Type} `{Arith F}.

Lemma getEmbeddings_loop_rows (data : list F) (x y z : Z) :
  0 <= x <= max_int -> 0 < y -> 0 <= z ->
  Z.of_nat (length data) = x * y * z ->
  Z.of_nat (length data) <= max_int ->
  forall (n : nat) (i : Z),
    0 <= i -> i + Z.of_nat n <= x ->
    getEmbeddings_loop data y z n i =
    Ok (map (fun k => normalize (first_token_slice data y z (i + Z.of_nat k)))
            (seq 0 n)).
Proof.
  intros Hx Hy Hz Hlen Hmax n.
  induction n as [|n IH]; intros i Hi Hin; [reflexivity|].
  cbn [getEmbeddings_loop].
  assert (Hstart : int_wrap (int_wrap (i * y) * z) = i * y * z).
  { destruct (Z.eq_dec z 0) as [->|Hz0].
    - rewrite !Z.mul_0_r. reflexivity.
    - assert (i * y <= i * y * z) by nia.
      assert (i * y * z <= x * y * z) by nia.
      assert (0 <= i * y) by nia.
      unfold max_int in *.
      rewrite (int_wrap_id (i * y)) by (unfold max_int; lia).
      apply int_wrap_id. unfold max_int. nia. }
  rewrite Hstart.
  assert (Hend : i * y * z + z <= x * y * z).
  { assert (z <= y * z) by nia.
    assert (0 <= (x - i - 1) * (y * z)) by nia.
    lia. }
  assert (0 <= i * y * z) by nia.
  rewrite (int_wrap_id (i * y * z + z)) by (unfold max_int in *; lia).
  rewrite slice_ok by lia.
  cbn [bind].
  rewrite (int_wrap_id (i + 1)) by (unfold max_int in *; lia).
  rewrite IH by lia.
  cbn [bind]. f_equal.
  change (seq 0 (S n)) with (0%nat :: seq 1 n).
  rewrite <- seq_shift. cbn [map]. rewrite map_map.
  f_equal.
  - unfold first_token_slice.
    replace (i * y * z + z - i * y * z) with z by lia.
    replace (i + Z.of_nat 0) with i by lia. reflexivity.
  - apply map_ext. intros k.
    replace (i + 1 + Z.of_nat k) with (i + Z.of_nat (S k)) by lia.
    reflexivity.
Qed.

Lemma first_token_slice_length (data : list F) (x y z i : Z) :
  0 < y -> 0 <= z -> 0 <= i < x ->
  Z.of_nat (length data) = x * y * z ->
  Z.of_nat (length (first_token_slice data y z i)) = z.
Proof.
  intros Hy Hz Hi Hlen. unfold first_token_slice.
  rewrite length_firstn, length_skipn.
  assert (i * y * z + z <= x * y * z).
  { assert (z <= y * z) by nia.
    assert (0 <= (x - i - 1) * (y * z)) by nia.
    lia. }
  assert (0 <= i * y * z) by nia.
  lia.
Qed.

End GetEmbeddingsFacts.

(** The output of [getEmbeddings] has one row per unit of [x]. *)
Lemma getEmbeddings_loop_length {F : Type} `{Arith F} (data : list F) (y z : Z) :
  forall (n : nat) (i : Z) (embs : list (list F)),
    getEmbeddings_loop data y z n i = Ok embs -> length embs = n.
Proof.
  induction n as [|n IH]; intros i embs E; cbn [getEmbeddings_loop] in E.
  - injection E as <-. reflexivity.
  - destruct (slice data _ _) as [row| |]; cbn [bind] in E; try discriminate.
    destruct (getEmbeddings_loop data y z n _) as [rest| |] eqn:Er;
      cbn [bind] in E; try discriminate.
    injection E as <-. cbn [length]. f_equal. eapply IH, Er.
Qed.

Lemma getEmbeddings_length {F : Type} `{Arith F} (data : list F) (x y z : Z)
  (embs : list (list F)) :
  getEmbeddings data [x; y; z] = Ok embs -> length embs = Z.to_nat x.
Proof.
  unfold getEmbeddings. destruct (x <? 0); [discriminate|].
  apply getEmbeddings_loop_length.
Qed.

(* ---------------------------------------------------------------------- *)
(** ** [normalize] on binary32 *)

(** [Float32.epsilon] is a binary32 number (24 significant bits), and
    the one nearest to 10^-12: with [m = 9223372], the real 10^-12 lies
    strictly between [(2m-1) * 2^-64] and [(2m+1) * 2^-64]. *)
Lemma epsilon_is_nearest :
  Float32.epsilon = S754_finite false 9223372 (-63) /\
  2 ^ 23 <= 9223372 < 2 ^ 24 /\
  (2 * 9223372 - 1) * 10 ^ 12 < 2 ^ 64 < (2 * 9223372 + 1) * 10 ^ 12.
Proof. split; [reflexivity|]. split; lia. Qed.

Lemma sum_squares_zeros (v : vector) :
  Forall (fun x => Float32.is_zero x = true) v ->
  sum_squares v = Float32.zero.
Proof.
  unfold sum_squares. cbn [fzero fadd fmul float32_arith].
  intros Hv. induction Hv as [|x v Hx _ IH]; [reflexivity|].
  cbn [fold_left].
  destruct x as [s| | |]; try discriminate.
  replace (Float32.add Float32.zero (Float32.mul (S754_zero s) (S754_zero s)))
    with Float32.zero by (destruct s; reflexivity).
  exact IH.
Qed.

(** C9. [normalize] has no guard on the norm: for a vector whose elements
    are all zero (of either sign) the norm is 0, every quotient is the
    0/0 of IEEE-754, that is NaN, and every output element, the quotient
    plus epsilon, is NaN; the function still returns a vector of the
    input's length, not an error. *)
Theorem normalize_zero_vector_nan (v : vector) :
  Forall (fun x => Float32.is_zero x = true) v ->
  norm_of v = Float32.zero /\
  (forall val, In val v -> Float32.div val (norm_of v) = Float32.nan) /\
  normalize v = repeat Float32.nan (length v) /\
  Forall (fun out => Float32.is_nan out = true /\ Float32.is_finite out = false)
         (normalize v).
Proof.
  intros Hv.
  assert (Hn : norm_of v = Float32.zero).
  { unfold norm_of. rewrite (sum_squares_zeros v Hv). reflexivity. }
  assert (Hd : forall val, In val v -> Float32.div val (norm_of v) = Float32.nan).
  { intros val Hin. rewrite Hn.
    rewrite Forall_forall in Hv. specialize (Hv val Hin).
    destruct val; try discriminate. reflexivity. }
  assert (Hr : normalize v = repeat Float32.nan (length v)).
  { unfold normalize. cbn [fadd fdiv fepsilon float32_arith].
    clear Hn. revert Hd. generalize (norm_of v). intros norm Hd.
    induction v as [|a v IH]; [reflexivity|].
    cbn [map length repeat]. f_equal.
    - rewrite Hd by (left; reflexivity). reflexivity.
    - apply IH.
      + inversion Hv; assumption.
      + intros val Hin. apply Hd. right. exact Hin. }
  repeat split; try assumption.
  rewrite Hr. clear. induction (length v); constructor; auto.
Qed.

Lemma normalize_zero_vector_nan_witness :
  norm_of [Float32.zero; S754_zero true; Float32.zero] = Float32.zero /\
  normalize [Float32.zero; S754_zero true; Float32.zero]
  = [Float32.nan; Float32.nan; Float32.nan].
Proof.
  pose proof (normalize_zero_vector_nan [Float32.zero; S754_zero true; Float32.zero]) as P.
  assert (Hz : Forall (fun x => Float32.is_zero x = true)
                      [Float32.zero; S754_zero true; Float32.zero]).
  { repeat constructor. }
  destruct (P Hz) as (Hn & _ & Hr & _).
  split; [exact Hn | exact Hr].
Defined.

(* ---------------------------------------------------------------------- *)
(** ** [getEmbeddings] pools the first token *)

(** C3. For a hidden-state buffer [data] of shape [x, y, z] (batch size,
    maximum length at least 1, hidden dimension; all Go [int64], [data] a
    Go slice), [getEmbeddings] returns [x] vectors, and the [i]-th is
    computed from the slice [data[i*y*z : i*y*z + z]] alone: each of its
    elements is [v_j / sqrt(sum v_k^2) + 1e-12] in binary32 arithmetic,
    epsilon added after the division. *)
Theorem getEmbeddings_first_token (data : vector) (x y z : Z) :
  0 <= x <= max_int -> 0 < y <= max_int -> 0 <= z <= max_int ->
  Z.of_nat (length data) = x * y * z ->
  Z.of_nat (length data) <= max_int ->
  exists embs : list vector,
    getEmbeddings data [x; y; z] = Ok embs /\
    length embs = Z.to_nat x /\
    forall i : Z, 0 <= i < x ->
      let v := first_token_slice data y z i in
      let norm :=
        Float32.sqrt
          (fold_left (fun acc vk => Float32.add acc (Float32.mul vk vk)) v Float32.zero) in
      slice data (i * y * z) (i * y * z + z) = Ok v /\
      Z.of_nat (length v) = z /\
      nth (Z.to_nat i) embs [] =
      map (fun vj => Float32.add (Float32.div vj norm) Float32.epsilon) v.
Proof.
  intros Hx Hy Hz Hlen Hmax.
  pose proof (getEmbeddings_loop_rows data x y z Hx (proj1 Hy) (proj1 Hz) Hlen Hmax
                (Z.to_nat x) 0 (Z.le_refl 0)) as Hloop.
  rewrite Z2Nat.id in Hloop by lia.
  specialize (Hloop (Z.le_refl _)).
  eexists. split; [|split].
  - unfold getEmbeddings. destruct (Z.ltb_spec x 0); [lia|]. exact Hloop.
  - rewrite length_map, length_seq. reflexivity.
  - intros i Hi v norm.
    assert (Hv : Z.of_nat (length v) = z).
    { apply (first_token_slice_length data x y z i); lia. }
    assert (Hin : i * y * z + z <= x * y * z).
    { assert (z <= y * z) by nia.
      assert (0 <= (x - i - 1) * (y * z)) by nia.
      lia. }
    assert (0 <= i * y * z) by nia.
    split; [|split; [exact Hv|]].
    + rewrite slice_ok by lia.
      replace (i * y * z + z - i * y * z) with z by lia. reflexivity.
    + rewrite (nth_indep _ [] (normalize (first_token_slice data y z (0 + Z.of_nat 0))))
        by (rewrite length_map, length_seq; lia).
      rewrite (map_nth (fun k => normalize (first_token_slice data y z (0 + Z.of_nat k)))).
      rewrite seq_nth by lia.
      replace (0 + Z.of_nat (0 + Z.to_nat i)) with i by lia.
      reflexivity.
Qed.

Lemma getEmbeddings_first_token_witness :
  exists embs : list vector,
    getEmbeddings
      [Float32.of_Z 3; Float32.of_Z 4; Float32.of_Z 7; Float32.of_Z 7;
       Float32.of_Z 0; Float32.of_Z 5; Float32.of_Z 9; Float32.of_Z 9] [2; 2; 2]
    = Ok embs /\ length embs = 2%nat.
Proof.
  destruct (getEmbeddings_first_token
    [Float32.of_Z 3; Float32.of_Z 4; Float32.of_Z 7; Float32.of_Z 7;
     Float32.of_Z 0; Float32.of_Z 5; Float32.of_Z 9; Float32.of_Z 9] 2 2 2)
    as (embs & He & Hl & _).
  - unfold max_int; lia.
  - unfold max_int; lia.
  - unfold max_int; lia.
  - reflexivity.
  - unfold max_int; simpl; lia.
  - exists embs. split; [exact He | exact Hl].
Defined.

(** A buffer of shape [1, 0, 2] is empty, and the first slice is out of
    range: [getEmbeddings] panics when the maximum length is 0. *)
Example getEmbeddings_no_token :
  getEmbeddings (F := Float32.float32) [] [1; 0; 2] = Panic.
Proof. reflexivity. Qed.

(* ---------------------------------------------------------------------- *)
(** ** The rounding of binary32 and binary64 *)

Lemma pow2R_pos e : (0 < pow2R e)%R.
Proof. apply powerRZ_lt. lra. Qed.

Lemma pow2R_add a b : pow2R (a + b) = (pow2R a * pow2R b)%R.
Proof. apply powerRZ_add. lra. Qed.

Lemma pow2R_Z (n : Z) : 0 <= n -> pow2R n = IZR (2 ^ n).
Proof.
  intros Hn. unfold pow2R.
  rewrite <- (Z2Nat.id n Hn) at 1. rewrite <- pow_powerRZ.
  rewrite pow_IZR. rewrite Z2Nat.id by exact Hn. reflexivity.
Qed.

Lemma pow2R_le a b : a <= b -> (pow2R a <= pow2R b)%R.
Proof.
  intros Hab. replace b with (a + (b - a)) by lia. rewrite pow2R_add.
  rewrite (pow2R_Z (b - a)) by lia.
  assert (1 <= 2 ^ (b - a)) by (apply Z.lt_pred_le, Z.pow_pos_nonneg; lia).
  apply IZR_le in H. pose proof (pow2R_pos a). nra.
Qed.

(** One step of [shr] halves the mantissa. *)
Lemma shr_1_m mrs : 0 <= shr_m mrs -> shr_m (shr_1 mrs) = shr_m mrs / 2.
Proof.
  destruct mrs as [m r s]. cbn [shr_m]. intros Hm.
  rewrite <- Z.div2_div.
  destruct m as [|[p|p|]|p]; try reflexivity. lia.
Qed.

Lemma iter_pos_shr_1 (p : positive) : forall mrs,
  0 <= shr_m mrs ->
  shr_m (SpecFloat.iter_pos shr_1 p mrs) = shr_m mrs / 2 ^ Zpos p.
Proof.
  induction p as [p IH|p IH|]; intros mrs Hm; cbn [SpecFloat.iter_pos].
  - assert (H1 : 0 <= shr_m (shr_1 mrs)).
    { rewrite shr_1_m by exact Hm. apply Z.div_pos; lia. }
    assert (H2 : 0 <= shr_m (SpecFloat.iter_pos shr_1 p (shr_1 mrs))).
    { rewrite IH by exact H1. apply Z.div_pos; [exact H1|]. apply Z.pow_pos_nonneg; lia. }
    rewrite IH by exact H2. rewrite IH by exact H1. rewrite shr_1_m by exact Hm.
    rewrite !Z.div_div by (try apply Z.pow_pos_nonneg; lia).
    f_equal. replace (Zpos p~1) with (1 + Zpos p + Zpos p) by lia.
    rewrite !Z.pow_add_r by lia. rewrite Z.pow_1_r. lia.
  - assert (H2 : 0 <= shr_m (SpecFloat.iter_pos shr_1 p mrs)).
    { rewrite IH by exact Hm. apply Z.div_pos; [exact Hm|]. apply Z.pow_pos_nonneg; lia. }
    rewrite IH by exact H2. rewrite IH by exact Hm.
    rewrite !Z.div_div by (try apply Z.pow_pos_nonneg; lia).
    f_equal. replace (Zpos p~0) with (Zpos p + Zpos p) by lia.
    rewrite !Z.pow_add_r by lia. lia.
  - rewrite shr_1_m by exact Hm. reflexivity.
Qed.

(** What [shr] does to the mantissa: a floor. *)
Lemma shr_floor mrs e n mrs' e' :
  0 <= shr_m mrs ->
  shr mrs e n = (mrs', e') ->
  0 <= shr_m mrs' /\
  (IZR (shr_m mrs') * pow2R e' <= IZR (shr_m mrs) * pow2R e)%R /\
  (IZR (shr_m mrs + 1) * pow2R e <= IZR (shr_m mrs' + 1) * pow2R e')%R.
Proof.
  intros Hm. unfold shr. destruct n as [|p|p]; intros E; injection E as <- <-;
    try (split; [exact Hm|split; apply Rle_refl]).
  rewrite iter_pos_shr_1 by exact Hm.
  assert (Hp : 0 < 2 ^ Zpos p) by (apply Z.pow_pos_nonneg; lia).
  set (d := 2 ^ Zpos p) in *.
  pose proof (Z.div_mod (shr_m mrs) d ltac:(lia)) as Hdm.
  pose proof (Z.mod_pos_bound (shr_m mrs) d Hp) as Hmod.
  set (q := shr_m mrs / d) in *.
  assert (Hq : 0 <= q) by (apply Z.div_pos; lia).
  split; [exact Hq|].
  rewrite pow2R_add, (pow2R_Z (Zpos p)) by lia. fold d.
  pose proof (pow2R_pos e) as He.
  assert (H1 : (IZR q * IZR d <= IZR (shr_m mrs))%R).
  { rewrite <- mult_IZR. apply IZR_le. nia. }
  assert (H2 : (IZR (shr_m mrs + 1) <= IZR (q + 1) * IZR d)%R).
  { rewrite <- mult_IZR. apply IZR_le. nia. }
  split; nra.
Qed.

Lemma round_nearest_even_range m l :
  m <= round_nearest_even m l <= m + 1.
Proof.
  unfold round_nearest_even. destruct l as [|[| |]]; try lia.
  destruct (Z.even m); lia.
Qed.

Lemma shr_record_of_loc_m m l : shr_m (shr_record_of_loc m l) = m.
Proof. destruct l as [|[| |]]; reflexivity. Qed.

(** The rounding of SpecFloat is faithful: whatever the location says,
    the result is at most one unit in the last place from the value. *)
Lemma binary_round_aux_bracket (prec emax : Z) (sx : bool) (mx ex : Z)
  (lx : location) (t : R) (s : bool) (m : positive) (e : Z) :
  0 <= mx ->
  (IZR mx * pow2R ex <= t <= IZR (mx + 1) * pow2R ex)%R ->
  binary_round_aux prec emax sx mx ex lx = S754_finite s m e ->
  s = sx /\
  (IZR (Zpos m - 1) * pow2R e <= t <= IZR (Zpos m + 1) * pow2R e)%R.
Proof.
  intros Hmx Ht. unfold binary_round_aux, shr_fexp.
  destruct (shr (shr_record_of_loc mx lx) ex _) as [mrs1 e1] eqn:E1.
  apply shr_floor in E1; [|rewrite shr_record_of_loc_m; exact Hmx].
  rewrite shr_record_of_loc_m in E1. destruct E1 as (Hm1 & Hlo1 & Hhi1).
  pose proof (round_nearest_even_range (shr_m mrs1) (loc_of_shr_record mrs1)) as Hr.
  set (m2 := round_nearest_even (shr_m mrs1) (loc_of_shr_record mrs1)) in *.
  destruct (shr (shr_record_of_loc m2 loc_Exact) e1 _) as [mrs2 e2] eqn:E2.
  pose proof E2 as E2'.
  apply shr_floor in E2; [|cbn [shr_record_of_loc shr_m]; lia].
  cbn [shr_record_of_loc shr_m] in E2. destruct E2 as (Hm3 & Hlo2 & Hhi2).
  assert (He : e1 <= e2).
  { unfold shr in E2'. destruct (_ - e1) as [|p|p]; injection E2' as _ <-; lia. }
  destruct (shr_m mrs2) as [|m3|m3] eqn:Em3; try discriminate.
  destruct (e2 <=? emax - prec); [|discriminate].
  intros E. injection E as <- <- <-. split; [reflexivity|].
  pose proof (pow2R_pos e1) as Hp1. pose proof (pow2R_pos e2) as Hp2.
  pose proof (pow2R_le e1 e2 He) as Hle.
  rewrite minus_IZR, plus_IZR in *.
  assert (Hm2lo : (IZR (shr_m mrs1) <= IZR m2)%R) by (apply IZR_le; lia).
  assert (Hm2hi : (IZR m2 <= IZR (shr_m mrs1) + 1)%R)
    by (rewrite <- plus_IZR; apply IZR_le; lia).
  rewrite !plus_IZR in *.
  split; nra.
Qed.

Lemma digits2_pos_le (m : positive) : 2 ^ (Zpos (digits2_pos m) - 1) <= Zpos m.
Proof.
  induction m as [m IH|m IH|]; cbn [digits2_pos].
  - rewrite Pos2Z.inj_succ.
    replace (Z.succ (Zpos (digits2_pos m)) - 1) with (1 + (Zpos (digits2_pos m) - 1)) by lia.
    rewrite Z.pow_add_r by lia. rewrite Z.pow_1_r. lia.
  - rewrite Pos2Z.inj_succ.
    replace (Z.succ (Zpos (digits2_pos m)) - 1) with (1 + (Zpos (digits2_pos m) - 1)) by lia.
    rewrite Z.pow_add_r by lia. rewrite Z.pow_1_r. lia.
  - reflexivity.
Qed.

Lemma sign_of_abs s : Rabs (sign_of s) = 1%R.
Proof. destruct s; cbn [sign_of]; unfold Rabs; destruct (Rcase_abs _); lra. Qed.

Lemma sign_of_xorb a b : sign_of (xorb a b) = (sign_of a * sign_of b)%R.
Proof. destruct a, b; cbn; lra. Qed.

Lemma sign_of_sq s : (sign_of s * sign_of s = 1)%R.
Proof. destruct s; cbn; lra. Qed.

(** A normal result of [binary_round_aux] is within [2^(1-prec)] of the
    value it rounds, relatively. *)
Lemma binary_round_aux_approx (prec emax : Z) (sx : bool) (mx ex : Z)
  (lx : location) (t : R) :
  0 < prec ->
  0 <= mx ->
  (IZR mx * pow2R ex <= t <= IZR (mx + 1) * pow2R ex)%R ->
  is_normal prec (binary_round_aux prec emax sx mx ex lx) = true ->
  approx prec (binary_round_aux prec emax sx mx ex lx) (sign_of sx * t).
Proof.
  intros Hprec Hmx Ht Hn.
  destruct (binary_round_aux prec emax sx mx ex lx) as [| | |s m e] eqn:E;
    try discriminate.
  destruct (binary_round_aux_bracket _ _ _ _ _ _ t _ _ _ Hmx Ht E) as (-> & Hb).
  unfold approx, F2R. cbn [is_normal] in Hn. apply Z.eqb_eq in Hn.
  pose proof (digits2_pos_le m) as Hd. rewrite Hn in Hd.
  rewrite <- Rmult_minus_distr_l, !Rabs_mult, sign_of_abs, !Rmult_1_l.
  pose proof (pow2R_pos e) as He.
  assert (Hu : (pow2R (1 - prec) * IZR (2 ^ (prec - 1)) = 1)%R).
  { rewrite <- pow2R_Z by lia. rewrite <- pow2R_add.
    replace (1 - prec + (prec - 1)) with 0 by lia. reflexivity. }
  apply IZR_le in Hd.
  pose proof (pow2R_pos (1 - prec)) as Hup.
  rewrite minus_IZR, plus_IZR in Hb.
  assert (Hm : (0 < IZR (Zpos m))%R) by (apply IZR_lt; lia).
  rewrite (Rabs_right (IZR (Zpos m))) by lra.
  rewrite (Rabs_right (pow2R e)) by lra.
  assert (Hulp : (pow2R e <= pow2R (1 - prec) * (IZR (Z.pos m) * pow2R e))%R).
  { assert (pow2R (1 - prec) * IZR (2 ^ (prec - 1)) <= pow2R (1 - prec) * IZR (Zpos m))%R
      by (apply Rmult_le_compat_l; lra).
    nra. }
  apply Rabs_le. lra.
Qed.

Section Ops.
Variables prec emax : Z.
Hypothesis Hprec : 0 < prec.

Lemma SFmul_approx (x y : spec_float) :
  is_normal prec (SFmul prec emax x y) = true ->
  approx prec (SFmul prec emax x y) (F2R x * F2R y).
Proof.
  destruct x as [sx|sx| |sx mx ex], y as [sy|sy| |sy my ey];
    cbn [SFmul is_normal]; try discriminate.
  intros Hn.
  replace (F2R (S754_finite sx mx ex) * F2R (S754_finite sy my ey))%R
    with (sign_of (xorb sx sy)
          * (IZR (Zpos (mx * my)) * pow2R (ex + ey)))%R.
  - apply binary_round_aux_approx; [exact Hprec|lia| |exact Hn].
    pose proof (pow2R_pos (ex + ey)). rewrite plus_IZR. nra.
  - cbn [F2R]. rewrite sign_of_xorb, pow2R_add, Pos2Z.inj_mul, mult_IZR. ring.
Qed.

Lemma iter_xO (d : positive) (m : positive) :
  Zpos (Pos.iter xO m d) = Zpos m * 2 ^ Zpos d.
Proof.
  induction d as [|d IH] using Pos.peano_ind.
  - cbn [Pos.iter]. lia.
  - rewrite Pos.iter_succ, Pos2Z.inj_xO, IH, Pos2Z.inj_succ, Z.pow_succ_r by lia. lia.
Qed.

Lemma shl_align_value (mx : positive) (ex ex' : Z) :
  (IZR (Zpos (fst (shl_align mx ex ex'))) * pow2R (snd (shl_align mx ex ex'))
   = IZR (Zpos mx) * pow2R ex)%R.
Proof.
  unfold shl_align. destruct (ex' - ex) as [|d|d] eqn:E; cbn [fst snd]; try reflexivity.
  rewrite iter_xO, mult_IZR, <- pow2R_Z by lia.
  rewrite Rmult_assoc, <- pow2R_add. do 2 f_equal. lia.
Qed.

Lemma shl_align_exp (mx : positive) (ex ex' : Z) :
  ex' <= ex -> snd (shl_align mx ex ex') = ex'.
Proof.
  intros H. unfold shl_align. destruct (ex' - ex) as [|d|d] eqn:E; cbn [snd]; lia.
Qed.

Lemma binary_round_approx (s : bool) (m : positive) (e : Z) :
  is_normal prec (binary_round prec emax s m e) = true ->
  approx prec (binary_round prec emax s m e) (sign_of s * (IZR (Zpos m) * pow2R e)).
Proof.
  unfold binary_round.
  pose proof (shl_align_value m e (fexp prec emax (Zpos (digits2_pos m) + e))) as Hv.
  destruct (shl_align m e _) as [mz ez]. cbn [fst snd] in Hv. intros Hn.
  rewrite <- Hv.
  apply binary_round_aux_approx; [exact Hprec|lia| |exact Hn].
  pose proof (pow2R_pos ez). rewrite plus_IZR. nra.
Qed.

Lemma binary_normalize_approx (m e : Z) (sz : bool) :
  is_normal prec (binary_normalize prec emax m e sz) = true ->
  approx prec (binary_normalize prec emax m e sz) (IZR m * pow2R e).
Proof.
  destruct m as [|p|p]; cbn [binary_normalize is_normal]; try discriminate; intros Hn.
  - replace (IZR (Zpos p) * pow2R e)%R with (sign_of false * (IZR (Zpos p) * pow2R e))%R
      by (cbn [sign_of]; ring).
    apply binary_round_approx, Hn.
  - replace (IZR (Zneg p) * pow2R e)%R with (sign_of true * (IZR (Zpos p) * pow2R e))%R.
    + apply binary_round_approx, Hn.
    + cbn [sign_of]. change (Zneg p) with (- Zpos p). rewrite opp_IZR. ring.
Qed.

Lemma cond_Zopp_R (s : bool) (m : Z) : IZR (cond_Zopp s m) = (sign_of s * IZR m)%R.
Proof. destruct s; cbn [cond_Zopp sign_of]; [rewrite opp_IZR|]; ring. Qed.

Lemma SFadd_approx (x y : spec_float) :
  is_normal prec (SFadd prec emax x y) = true ->
  approx prec (SFadd prec emax x y) (F2R x + F2R y).
Proof.
  assert (Hexact : forall r t : R, r = t -> (Rabs (r - t) <= pow2R (1 - prec) * Rabs r)%R).
  { intros r t ->. rewrite Rminus_diag, Rabs_R0.
    pose proof (pow2R_pos (1 - prec)). pose proof (Rabs_pos t). nra. }
  destruct x as [sx|sx| |sx mx ex], y as [sy|sy| |sy my ey];
    cbn [SFadd]; try (destruct sx, sy; discriminate); try discriminate.
  - intros _. apply Hexact. cbn [F2R]. ring.
  - intros _. apply Hexact. cbn [F2R]. ring.
  - intros Hn.
    pose proof (shl_align_value mx ex (Z.min ex ey)) as Hx.
    pose proof (shl_align_value my ey (Z.min ex ey)) as Hy.
    rewrite shl_align_exp in Hx, Hy by lia.
    replace (F2R (S754_finite sx mx ex) + F2R (S754_finite sy my ey))%R
      with (IZR (cond_Zopp sx (Zpos (fst (shl_align mx ex (Z.min ex ey))))
                 + cond_Zopp sy (Zpos (fst (shl_align my ey (Z.min ex ey)))))
            * pow2R (Z.min ex ey))%R.
    + apply binary_normalize_approx, Hn.
    + rewrite plus_IZR, !cond_Zopp_R. cbn [F2R].
      rewrite Rmult_plus_distr_r, !Rmult_assoc, Hx, Hy. reflexivity.
Qed.

End Ops.

Section Ops2.
Variables prec emax : Z.
Hypothesis Hprec : 0 < prec.

Lemma SFdiv_core_bracket (m1 m2 : positive) (e1 e2 : Z) :
  let '(q, e', _) := SFdiv_core_binary prec emax (Zpos m1) e1 (Zpos m2) e2 in
  0 <= q /\
  (IZR q * pow2R e' <= IZR (Zpos m1) * pow2R e1 / (IZR (Zpos m2) * pow2R e2)
   <= IZR (q + 1) * pow2R e')%R.
Proof.
  unfold SFdiv_core_binary.
  set (e' := Z.min _ (e1 - e2)).
  assert (He' : e' <= e1 - e2) by apply Z.le_min_r.
  set (m' := match e1 - e2 - e' with
             | Zpos _ => Z.shiftl (Zpos m1) (e1 - e2 - e')
             | Z0 => Zpos m1
             | Zneg _ => 0
             end).
  assert (Hm' : m' = Zpos m1 * 2 ^ (e1 - e2 - e')).
  { unfold m'. destruct (e1 - e2 - e') as [|p|p] eqn:E.
    - lia.
    - apply Z.shiftl_mul_pow2. lia.
    - lia. }
  pose proof (Z_div_mod m' (Zpos m2) ltac:(lia)) as Hdm.
  destruct (Z.div_eucl m' (Zpos m2)) as [q r]. destruct Hdm as [Hdm Hr].
  assert (Hm'pos : 0 < m').
  { rewrite Hm'. apply Z.mul_pos_pos; [lia|]. apply Z.pow_pos_nonneg; lia. }
  assert (Hq : 0 <= q) by nia.
  split; [exact Hq|].
  pose proof (pow2R_pos e') as Hpe'. pose proof (pow2R_pos e2) as Hpe2.
  assert (Hm2 : (0 < IZR (Zpos m2))%R) by (apply IZR_lt; lia).
  assert (Hval : (IZR (Zpos m1) * pow2R e1 / (IZR (Zpos m2) * pow2R e2)
                  = IZR m' / IZR (Zpos m2) * pow2R e')%R).
  { rewrite Hm', mult_IZR, <- pow2R_Z by lia.
    replace e1 with ((e1 - e2 - e') + e' + e2) at 1 by lia.
    rewrite !pow2R_add. field. split; lra. }
  rewrite Hval.
  assert (H1 : (IZR q <= IZR m' / IZR (Zpos m2))%R).
  { apply Rmult_le_reg_r with (IZR (Zpos m2)); [exact Hm2|].
    unfold Rdiv. rewrite Rmult_assoc, Rinv_l, Rmult_1_r by lra.
    rewrite <- mult_IZR. apply IZR_le. nia. }
  assert (H2 : (IZR m' / IZR (Zpos m2) <= IZR (q + 1))%R).
  { apply Rmult_le_reg_r with (IZR (Zpos m2)); [exact Hm2|].
    unfold Rdiv. rewrite Rmult_assoc, Rinv_l, Rmult_1_r by lra.
    rewrite <- mult_IZR. apply IZR_le. nia. }
  split; apply Rmult_le_compat_r; lra.
Qed.

Lemma SFdiv_approx (x y : spec_float) :
  is_normal prec (SFdiv prec emax x y) = true ->
  approx prec (SFdiv prec emax x y) (F2R x / F2R y).
Proof.
  destruct x as [sx|sx| |sx mx ex], y as [sy|sy| |sy my ey];
    cbn [SFdiv is_normal]; try discriminate.
  pose proof (SFdiv_core_bracket mx my ex ey) as Hb.
  destruct (SFdiv_core_binary prec emax (Zpos mx) ex (Zpos my) ey) as [[q e'] l].
  destruct Hb as [Hq Hb]. intros Hn.
  replace (F2R (S754_finite sx mx ex) / F2R (S754_finite sy my ey))%R
    with (sign_of (xorb sx sy)
          * (IZR (Zpos mx) * pow2R ex / (IZR (Zpos my) * pow2R ey)))%R.
  - apply binary_round_aux_approx; [exact Hprec|exact Hq|exact Hb|exact Hn].
  - cbn [F2R]. rewrite sign_of_xorb.
    pose proof (pow2R_pos ey).
    assert (0 < IZR (Zpos my))%R by (apply IZR_lt; lia).
    destruct sx, sy; cbn [sign_of]; field; split; lra.
Qed.

Lemma SFsqrt_core_bracket (m : positive) (e : Z) :
  let '(q, e', _) := SFsqrt_core_binary prec emax (Zpos m) e in
  0 <= q /\
  (IZR q * pow2R e' <= sqrt (IZR (Zpos m) * pow2R e) <= IZR (q + 1) * pow2R e')%R.
Proof.
  unfold SFsqrt_core_binary.
  set (e' := Z.min _ (Z.div2 e)).
  assert (He' : 2 * e' <= e).
  { pose proof (Z.le_min_r (fexp prec emax (Z.div2 (Zdigits2 (Zpos m) + e + 1))) (Z.div2 e)).
    fold e' in H. rewrite Z.div2_div in H.
    pose proof (Z.div_mod e 2 ltac:(lia)). pose proof (Z.mod_pos_bound e 2 ltac:(lia)). lia. }
  set (m' := match e - 2 * e' with
             | Zpos _ => Z.shiftl (Zpos m) (e - 2 * e')
             | Z0 => Zpos m
             | Zneg _ => 0
             end).
  assert (Hm' : m' = Zpos m * 2 ^ (e - 2 * e')).
  { unfold m'. destruct (e - 2 * e') as [|p|p] eqn:E.
    - lia.
    - apply Z.shiftl_mul_pow2. lia.
    - lia. }
  assert (Hm'pos : 0 < m').
  { rewrite Hm'. apply Z.mul_pos_pos; [lia|]. apply Z.pow_pos_nonneg; lia. }
  pose proof (Z.sqrtrem_spec m' ltac:(lia)) as Hs.
  destruct (Z.sqrtrem m') as [q r]. destruct Hs as [Hs Hr].
  assert (Hq : 0 <= q) by nia.
  split; [exact Hq|].
  pose proof (pow2R_pos e') as Hpe'.
  assert (Hval : (IZR (Zpos m) * pow2R e = IZR m' * (pow2R e' * pow2R e'))%R).
  { rewrite Hm', mult_IZR, <- pow2R_Z by lia.
    replace e with ((e - 2 * e') + e' + e') at 1 by lia.
    rewrite !pow2R_add. ring. }
  rewrite Hval, sqrt_mult_alt by (apply IZR_le; lia).
  rewrite sqrt_square by lra.
  assert (Hq0 : (0 <= IZR q)%R) by (apply IZR_le; exact Hq).
  assert (H1 : (IZR q <= sqrt (IZR m'))%R).
  { rewrite <- (sqrt_square (IZR q)) by exact Hq0.
    apply sqrt_le_1_alt. rewrite <- mult_IZR. apply IZR_le. nia. }
  assert (H2 : (sqrt (IZR m') <= IZR (q + 1))%R).
  { rewrite <- (sqrt_square (IZR (q + 1))) by (apply IZR_le; lia).
    apply sqrt_le_1_alt. rewrite <- mult_IZR. apply IZR_le. nia. }
  split; apply Rmult_le_compat_r; lra.
Qed.

Lemma SFsqrt_approx (x : spec_float) :
  is_normal prec (SFsqrt prec emax x) = true ->
  approx prec (SFsqrt prec emax x) (sqrt (F2R x)).
Proof.
  destruct x as [sx|sx| |sx mx ex]; cbn [SFsqrt is_normal];
    try (destruct sx; discriminate); try discriminate.
  destruct sx; [discriminate|].
  pose proof (SFsqrt_core_bracket mx ex) as Hb.
  destruct (SFsqrt_core_binary prec emax (Zpos mx) ex) as [[q e'] l].
  destruct Hb as [Hq Hb]. intros Hn.
  replace (sqrt (F2R (S754_finite false mx ex)))
    with (sign_of false * sqrt (IZR (Zpos mx) * pow2R ex))%R.
  - apply binary_round_aux_approx; [exact Hprec|exact Hq|exact Hb|exact Hn].
  - cbn [F2R sign_of]. rewrite !Rmult_1_l. reflexivity.
Qed.

End Ops2.

(* ---------------------------------------------------------------------- *)
(** ** The norm of a normalized vector *)

Section RealSums.
Local Open Scope R_scope.

Lemma Rsumsq_nonneg (v : list R) : 0 <= Rsumsq v.
Proof.
  induction v as [|x v IH]; cbn [Rsumsq fold_right]; [lra|].
  fold (Rsumsq v). nra.
Qed.

Lemma Rsumsq_shift (u : list R) (e : R) :
  Rsumsq (map (fun x => x + e) u)
  = Rsumsq u + 2 * e * Rsum u + INR (length u) * (e * e).
Proof.
  induction u as [|x u IH].
  - cbn. lra.
  - cbn [map Rsumsq Rsum fold_right length].
    fold (Rsumsq (map (fun x => x + e) u)). fold (Rsumsq u). fold (Rsum u).
    rewrite IH, S_INR. lra.
Qed.

(** Cauchy-Schwarz against the all-ones vector. *)
Lemma Rsum_sqr_le (u : list R) :
  Rsum u * Rsum u <= INR (length u) * Rsumsq u.
Proof.
  induction u as [|a u IH].
  - cbn. lra.
  - cbn [Rsum Rsumsq fold_right length].
    fold (Rsum u). fold (Rsumsq u). rewrite S_INR.
    pose proof (Rsumsq_nonneg u) as Hq.
    pose proof (pos_INR (length u)) as Hn.
    set (n := INR (length u)) in *. set (s := Rsum u) in *. set (q := Rsumsq u) in *.
    clearbody n s q.
    destruct (Req_dec n 0) as [Hn0|Hn0].
    + rewrite Hn0 in *. assert (s = 0) by nra. subst s. nra.
    + assert (0 < n) by lra.
      pose proof (Rle_0_sqr (n * a - s)) as Hsq. unfold Rsqr in Hsq.
      assert (0 <= n * (n * a * a - 2 * a * s + q)) by nra.
      assert (0 <= n * a * a - 2 * a * s + q) by nra.
      nra.
Qed.

End RealSums.

Section ErrorBound.
Local Open Scope R_scope.

Lemma u32_val : u32 = / 8388608.
Proof.
  unfold u32, Float32.prec.
  assert (H : pow2R (1 - 24) * IZR (2 ^ 23) = 1).
  { rewrite <- pow2R_Z by lia. rewrite <- pow2R_add. reflexivity. }
  change (2 ^ 23)%Z with 8388608%Z in H.
  apply Rmult_eq_reg_r with 8388608; [|lra]. rewrite H. field.
Qed.

Lemma u64_le : pow2R (1 - 53) <= u32.
Proof. unfold u32, Float32.prec. apply pow2R_le. lia. Qed.

Lemma approx_exact (prec : Z) (r : spec_float) (t : R) :
  F2R r = t -> approx prec r t.
Proof.
  intros <-. unfold approx. rewrite Rminus_diag, Rabs_R0.
  pose proof (pow2R_pos (1 - prec)). pose proof (Rabs_pos (F2R r)). nra.
Qed.

(** What [approx] says of a non-negative exact value. *)
Lemma approx_nonneg (prec : Z) (r : spec_float) (t : R) :
  pow2R (1 - prec) <= u32 ->
  approx prec r t -> 0 <= t ->
  0 <= F2R r /\ F2R r * (1 - u32) <= t <= F2R r * (1 + u32).
Proof.
  unfold approx. intros Hu Ha Ht. rewrite u32_val in *.
  pose proof (pow2R_pos (1 - prec)) as Hp.
  set (u := pow2R (1 - prec)) in *. clearbody u.
  unfold Rabs in Ha.
  destruct (Rcase_abs (F2R r - t)), (Rcase_abs (F2R r)); nra.
Qed.

(** What [approx] says of the squares. *)
Lemma approx_sqr (r : spec_float) (t : R) :
  approx Float32.prec r t ->
  F2R r * F2R r * ((1 - u32) * (1 - u32)) <= t * t
  <= F2R r * F2R r * ((1 + u32) * (1 + u32)).
Proof.
  unfold approx. fold u32. rewrite u32_val. intros Ha.
  unfold Rabs in Ha.
  destruct (Rcase_abs (F2R r - t)), (Rcase_abs (F2R r)); split; nra.
Qed.

Lemma is_normal_finite (prec : Z) (r : spec_float) :
  is_normal prec r = true -> Float32.is_finite r = true.
Proof. destruct r; cbn; congruence. Qed.

Lemma is_normal_nonzero (prec : Z) (r : spec_float) :
  is_normal prec r = true -> F2R r <> 0.
Proof.
  destruct r as [| | |s m e]; cbn [is_normal]; try discriminate. intros _.
  cbn [F2R]. pose proof (pow2R_pos e).
  assert (0 < IZR (Zpos m)) by (apply IZR_lt; lia).
  destruct s; cbn [sign_of]; nra.
Qed.

Lemma is_zero_F2R (r : spec_float) : Float32.is_zero r = true -> F2R r = 0.
Proof. destruct r; cbn; congruence. Qed.

Lemma mul_settled (x : Float32.float32) :
  settled (Float32.mul x x) [x] = true ->
  approx Float32.prec (Float32.mul x x) (F2R x * F2R x) /\
  Float32.is_finite (Float32.mul x x) = true.
Proof.
  unfold settled. intros H. apply orb_true_iff in H. destruct H as [Hn|Hz].
  - split; [|apply (is_normal_finite _ _ Hn)].
    apply SFmul_approx; [reflexivity|exact Hn].
  - cbn [existsb] in Hz. rewrite orb_false_r in Hz.
    destruct x; try discriminate. split; [|reflexivity].
    apply approx_exact. cbn. ring.
Qed.

Lemma add_settled (x y : Float32.float32) :
  Float32.is_finite x = true -> Float32.is_finite y = true ->
  settled (Float32.add x y) [x; y] = true ->
  approx Float32.prec (Float32.add x y) (F2R x + F2R y) /\
  Float32.is_finite (Float32.add x y) = true.
Proof.
  unfold settled. intros Hx Hy H. apply orb_true_iff in H. destruct H as [Hn|Hz].
  - split; [|apply (is_normal_finite _ _ Hn)].
    apply SFadd_approx; [reflexivity|exact Hn].
  - cbn [existsb] in Hz. rewrite orb_false_r in Hz.
    destruct x as [sx|sx| |sx mx ex], y as [sy|sy| |sy my ey]; try discriminate;
      (split; [apply approx_exact|]); try (destruct sx, sy; cbn; try ring; reflexivity);
      cbn; try ring; reflexivity.
Qed.

Lemma div_settled (x y : Float32.float32) :
  is_normal Float32.prec y = true ->
  settled (Float32.div x y) [x] = true ->
  approx Float32.prec (Float32.div x y) (F2R x / F2R y).
Proof.
  unfold settled. intros Hy H. apply orb_true_iff in H. destruct H as [Hn|Hz].
  - apply SFdiv_approx; [reflexivity|exact Hn].
  - cbn [existsb] in Hz. rewrite orb_false_r in Hz.
    destruct x as [sx|sx| |sx mx ex], y as [sy|sy| |sy my ey]; try discriminate.
    apply approx_exact. cbn. unfold Rdiv. ring.
Qed.

Lemma add_epsilon_settled (q : Float32.float32) :
  settled (Float32.add q Float32.epsilon) [q] = true ->
  approx Float32.prec (Float32.add q Float32.epsilon) (F2R q + F2R Float32.epsilon).
Proof.
  unfold settled. intros H. apply orb_true_iff in H. destruct H as [Hn|Hz].
  - apply SFadd_approx; [reflexivity|exact Hn].
  - cbn [existsb] in Hz. rewrite orb_false_r in Hz.
    destruct q; try discriminate. apply approx_exact. cbn [F2R Float32.add SFadd
      Float32.epsilon]. ring.
Qed.

End ErrorBound.

Section ErrorBound2.
Local Open Scope R_scope.

Lemma pow_le_one (x : R) (k : nat) : 0 <= x <= 1 -> 0 <= x ^ k <= 1.
Proof.
  intros Hx. induction k as [|k IH]; cbn [pow]; [lra|]. nra.
Qed.

Lemma pow_le_self (x : R) (k : nat) : 0 <= x <= 1 -> (1 <= k)%nat -> x ^ k <= x.
Proof.
  intros Hx Hk. destruct k as [|k]; [lia|]. cbn [pow].
  pose proof (pow_le_one x k Hx). nra.
Qed.

Lemma pow_ge_self (x : R) (k : nat) : 1 <= x -> (1 <= k)%nat -> x <= x ^ k.
Proof.
  intros Hx Hk. destruct k as [|k]; [lia|]. cbn [pow].
  pose proof (pow_R1_Rle x k Hx). nra.
Qed.

(** Bernoulli, downwards. *)
Lemma pow_one_minus (x : R) (k : nat) : 0 <= x <= 1 -> 1 - INR k * x <= (1 - x) ^ k.
Proof.
  intros Hx. induction k as [|k IH].
  - cbn. lra.
  - rewrite S_INR. cbn [pow].
    pose proof (pow_le_one (1 - x) k ltac:(lra)) as Hp.
    pose proof (pos_INR k). nra.
Qed.

Lemma pow_plus_minus (x : R) (k : nat) : 0 <= x <= 1 -> (1 + x) ^ k * (1 - x) ^ k <= 1.
Proof.
  intros Hx. rewrite <- Rpow_mult_distr.
  apply (pow_le_one ((1 + x) * (1 - x)) k). nra.
Qed.

Lemma u32_range : 0 < u32 < 1.
Proof. rewrite u32_val. lra. Qed.

(** The first loop: the computed sum of squares against the exact one. *)
Lemma sum_squares_bound (v : vector) :
  forall (acc : Float32.float32) (k : nat) (T : R),
    sum_settled v acc = true ->
    Float32.is_finite acc = true ->
    0 <= F2R acc -> (1 <= k)%nat ->
    F2R acc * (1 - u32) ^ k <= T <= F2R acc * (1 + u32) ^ k ->
    let r := fold_left (fun norm val => Float32.add norm (Float32.mul val val)) v acc in
    0 <= F2R r /\
    F2R r * (1 - u32) ^ (k + length v) <= T + Rsumsq (map F2R v)
    <= F2R r * (1 + u32) ^ (k + length v).
Proof.
  pose proof u32_range as Hu.
  induction v as [|val v IH]; intros acc k T Hs Hfin Hacc Hk HT.
  - cbn [fold_left length map Rsumsq fold_right]. rewrite Nat.add_0_r. split; [exact Hacc|lra].
  - cbn [sum_settled] in Hs. apply andb_true_iff in Hs. destruct Hs as [Hs Hrest].
    apply andb_true_iff in Hs. destruct Hs as [Hsq Hadd].
    destruct (mul_settled val Hsq) as [Hasq Hfsq].
    destruct (add_settled acc _ Hfin Hfsq Hadd) as [Haadd Hfadd].
    destruct (approx_nonneg _ _ _ (Rle_refl _) Hasq ltac:(nra)) as (Hs0 & Hslo & Hshi).
    destruct (approx_nonneg _ _ _ (Rle_refl _) Haadd ltac:(lra)) as (Hr0 & Hrlo & Hrhi).
    cbn [fold_left length map Rsumsq fold_right]. fold (Rsumsq (map F2R v)).
    set (acc' := Float32.add acc (Float32.mul val val)) in *.
    set (s := F2R (Float32.mul val val)) in *.
    set (x := F2R val) in *.
    specialize (IH acc' (S k) (T + x * x) Hrest Hfadd Hr0 ltac:(lia)).
    replace (k + S (length v))%nat with (S k + length v)%nat by lia.
    replace (T + (x * x + Rsumsq (map F2R v))) with (T + x * x + Rsumsq (map F2R v)) by ring.
    apply IH. cbn [pow].
    pose proof (pow_le_self (1 - u32) k ltac:(lra) Hk) as Hp1.
    pose proof (pow_le_one (1 - u32) k ltac:(lra)) as Hp0.
    pose proof (pow_ge_self (1 + u32) k ltac:(lra) Hk) as Hq1.
    set (p := (1 - u32) ^ k) in *. set (q := (1 + u32) ^ k) in *.
    set (A := F2R acc) in *. set (r := F2R acc') in *.
    clearbody p q A r s x. split.
    + (* r (1-u) p <= (A+s) p <= A p + s (1-u) <= T + x^2 *)
      assert (r * (1 - u32) * p <= (A + s) * p) by (apply Rmult_le_compat_r; lra).
      assert (s * p <= s * (1 - u32)) by (apply Rmult_le_compat_l; lra).
      nra.
    + assert ((A + s) * q <= r * (1 + u32) * q) by (apply Rmult_le_compat_r; lra).
      assert (s * (1 + u32) <= s * q) by (apply Rmult_le_compat_l; lra).
      nra.
Qed.

Lemma of_float64_approx (y : spec_float) :
  is_normal Float32.prec (Float32.of_float64 y) = true ->
  approx Float32.prec (Float32.of_float64 y) (F2R y).
Proof.
  destruct y as [s|s| |s m e]; cbn [Float32.of_float64 is_normal]; try discriminate.
  intros Hn.
  replace (F2R (S754_finite s m e)) with (IZR (cond_Zopp s (Zpos m)) * pow2R e).
  - apply binary_normalize_approx; [reflexivity|exact Hn].
  - rewrite cond_Zopp_R. cbn [F2R]. ring.
Qed.

(** The norm: [float32(math.Sqrt(float64(s)))] against the square root. *)
Lemma sqrt_bound (s : Float32.float32) :
  0 <= F2R s ->
  is_normal 53 (Float32.sqrt64 (Float32.to_float64 s)) = true ->
  is_normal Float32.prec (Float32.sqrt s) = true ->
  0 < F2R (Float32.sqrt s) /\
  F2R (Float32.sqrt s) * F2R (Float32.sqrt s) * (1 - u32) ^ 4 <= F2R s
  <= F2R (Float32.sqrt s) * F2R (Float32.sqrt s) * (1 + u32) ^ 4.
Proof.
  intros Hs H64 H32. pose proof u32_range as Hu.
  pose proof (SFsqrt_approx 53 1024 ltac:(lia) _ H64) as Ha64.
  unfold Float32.sqrt in *. fold (Float32.sqrt64 (Float32.to_float64 s)) in Ha64.
  set (y := Float32.sqrt64 (Float32.to_float64 s)) in *.
  pose proof (of_float64_approx y H32) as Ha32.
  pose proof (is_normal_nonzero _ _ H32) as Hnz.
  unfold Float32.to_float64 in Ha64.
  destruct (approx_nonneg _ _ _ u64_le Ha64 (sqrt_pos _)) as (Hy0 & Hylo & Hyhi).
  destruct (approx_nonneg _ _ _ (Rle_refl _) Ha32 Hy0) as (Hn0 & Hnlo & Hnhi).
  set (n := F2R (Float32.of_float64 y)) in *. set (r1 := F2R y) in *.
  pose proof (sqrt_sqrt (F2R s) Hs) as Hsq.
  pose proof (sqrt_pos (F2R s)) as Hrt.
  set (rt := sqrt (F2R s)) in *. clearbody n r1 rt.
  split; [lra|]. rewrite <- Hsq.
  assert (Hlo : n * ((1 - u32) * (1 - u32)) <= rt).
  { assert (n * (1 - u32) * (1 - u32) <= r1 * (1 - u32))
      by (apply Rmult_le_compat_r; lra). lra. }
  assert (Hhi : rt <= n * ((1 + u32) * (1 + u32))).
  { assert (r1 * (1 + u32) <= n * (1 + u32) * (1 + u32))
      by (apply Rmult_le_compat_r; lra). lra. }
  assert (H0 : 0 <= n * ((1 - u32) * (1 - u32)))
    by (apply Rmult_le_pos; [lra|apply Rmult_le_pos; lra]).
  replace (n * n * (1 - u32) ^ 4)
    with ((n * ((1 - u32) * (1 - u32))) * (n * ((1 - u32) * (1 - u32)))) by ring.
  replace (n * n * (1 + u32) ^ 4)
    with ((n * ((1 + u32) * (1 + u32))) * (n * ((1 + u32) * (1 + u32)))) by ring.
  split; apply Rmult_le_compat; lra.
Qed.

(** Sums of squares of two families that agree term by term up to
    factors. *)
Lemma Rsumsq_compare {A : Type} (l : list A) (f g : A -> R) (c1 c2 : R) :
  (forall a, In a l -> f a * f a * c1 <= g a * g a <= f a * f a * c2) ->
  Rsumsq (map f l) * c1 <= Rsumsq (map g l) <= Rsumsq (map f l) * c2.
Proof.
  induction l as [|a l IH]; intros H; cbn [map Rsumsq fold_right].
  - lra.
  - fold (Rsumsq (map f l)). fold (Rsumsq (map g l)).
    pose proof (H a (or_introl eq_refl)).
    specialize (IH (fun b Hb => H b (or_intror Hb))). lra.
Qed.

End ErrorBound2.

Section ErrorBound3.
Local Open Scope R_scope.

Lemma Rsumsq_scale (v : list R) (c : R) :
  c <> 0 -> Rsumsq (map (fun x => x / c) v) = Rsumsq v / (c * c).
Proof.
  intros Hc. induction v as [|x v IH]; cbn [map Rsumsq fold_right].
  - unfold Rdiv. lra.
  - fold (Rsumsq (map (fun x => x / c) v)). fold (Rsumsq v). rewrite IH.
    field. exact Hc.
Qed.

Lemma epsilon_value :
  0 <= F2R Float32.epsilon <= / 10 ^ 12.
Proof.
  cbn [F2R Float32.epsilon sign_of].
  assert (H : pow2R (-63) * IZR (2 ^ 63) = 1).
  { rewrite <- pow2R_Z by lia. rewrite <- pow2R_add. reflexivity. }
  change (2 ^ 63)%Z with 9223372036854775808%Z in H.
  assert (Hp : pow2R (-63) = / 9223372036854775808).
  { apply Rmult_eq_reg_r with 9223372036854775808; [|lra]. rewrite H. field. }
  rewrite Hp. lra.
Qed.

(** From the squares to the numbers. *)
Lemma sqr_le_le (a b : R) : 0 <= b -> a * a <= b * b -> a <= b.
Proof. intros Hb H. destruct (Rle_lt_dec a b) as [|Hlt]; [assumption|]. nra. Qed.

(** The arithmetic of the bound, on the real numbers. *)
Lemma norm_within (k : nat) (S nh Q2 Sg E N2 eh : R) :
  (Z.of_nat k <= 2 ^ 20)%Z ->
  0 < nh ->
  nh * nh * (1 - u32) ^ (k + 5) <= S <= nh * nh * (1 + u32) ^ (k + 5) ->
  0 <= Q2 ->
  Q2 * ((1 - u32) * (1 - u32)) <= S / (nh * nh) <= Q2 * ((1 + u32) * (1 + u32)) ->
  Sg * Sg <= INR k * Q2 ->
  E = Q2 + 2 * eh * Sg + INR k * (eh * eh) ->
  0 <= eh <= / 10 ^ 12 ->
  0 <= N2 ->
  N2 * ((1 - u32) * (1 - u32)) <= E <= N2 * ((1 + u32) * (1 + u32)) ->
  Rabs (sqrt N2 - (1 + / 10 ^ 12 * sqrt (INR k))) <= (INR k + 8) / 2 ^ 22.
Proof.
  intros Hk Hnh HS HQ2 HT HSg HE Heh HN2 HN.
  pose proof u32_range as Hu.
  assert (Hn : 0 <= INR k <= 1048576).
  { split; [apply pos_INR|]. rewrite INR_IZR_INZ.
    apply IZR_le in Hk. exact Hk. }
  set (n := INR k) in *.
  (* the square root of the dimension *)
  pose proof (sqrt_pos n) as Hr0.
  pose proof (sqrt_sqrt n (proj1 Hn)) as Hrr.
  assert (Hr : sqrt n <= 1024).
  { apply sqr_le_le; [lra|]. rewrite Hrr. lra. }
  set (r := sqrt n) in *.
  (* the exact quotient of the sums *)
  set (T := S / (nh * nh)) in *.
  assert (Hnh2 : 0 < nh * nh) by nra.
  assert (HTlo : (1 - u32) ^ (k + 5) <= T).
  { unfold T. apply Rmult_le_reg_r with (nh * nh); [exact Hnh2|].
    unfold Rdiv. rewrite Rmult_assoc, Rinv_l, Rmult_1_r by lra. lra. }
  assert (HThi : T <= (1 + u32) ^ (k + 5)).
  { unfold T. apply Rmult_le_reg_r with (nh * nh); [exact Hnh2|].
    unfold Rdiv. rewrite Rmult_assoc, Rinv_l, Rmult_1_r by lra. lra. }
  pose proof (pow_one_minus u32 (k + 7) ltac:(lra)) as Hbern.
  rewrite plus_INR in Hbern. fold n in Hbern.
  replace (INR 7) with 7 in Hbern by (cbn; lra).
  pose proof (pow_plus_minus u32 (k + 5) ltac:(lra)) as Hpm.
  pose proof (pow_le_one (1 - u32) (k + 5) ltac:(lra)) as Hp01.
  assert (Hp7 : (1 - u32) ^ (k + 7) = (1 - u32) ^ (k + 5) * ((1 - u32) * (1 - u32))).
  { rewrite !pow_add. cbn [pow]. ring. }
  set (a := (1 - u32) ^ (k + 5)) in *. set (b := (1 + u32) ^ (k + 5)) in *.
  set (K := (n + 7) * u32) in *.
  assert (HK : 0 <= K <= / 7).
  { unfold K. rewrite u32_val. lra. }
  rewrite Hp7 in Hbern.
  set (c1 := (1 - u32) * (1 - u32)) in *. set (c2 := (1 + u32) * (1 + u32)) in *.
  assert (Hc1 : 0 < c1 <= 1) by (unfold c1; nra).
  assert (Hc2 : 1 <= c2) by (unfold c2; nra).
  assert (Hc12 : c1 * c2 <= 1).
  { unfold c1, c2.
    replace ((1 - u32) * (1 - u32) * ((1 + u32) * (1 + u32)))
      with (((1 + u32) * (1 - u32)) * ((1 + u32) * (1 - u32))) by ring.
    assert (0 <= (1 + u32) * (1 - u32) <= 1) by nra. nra. }
  assert (HQlo : 1 - K <= Q2).
  { (* a c1 <= T c1 <= Q2 c2 c1 <= Q2 *)
    assert (a * c1 <= T * c1) by (apply Rmult_le_compat_r; lra).
    assert (T * c1 <= Q2 * c2 * c1) by (apply Rmult_le_compat_r; lra).
    assert (Q2 * (c2 * c1) <= Q2 * 1) by (apply Rmult_le_compat_l; lra).
    lra. }
  assert (HQhi : Q2 * (1 - K) <= 1).
  { assert (Q2 * (1 - K) <= Q2 * (a * c1)) by (apply Rmult_le_compat_l; lra).
    assert (Q2 * c1 * a <= T * a) by (apply Rmult_le_compat_r; lra).
    assert (T * a <= b * a) by (apply Rmult_le_compat_r; lra).
    lra. }
  assert (Htol : (n + 8) / 2 ^ 22 = 2 * (K + u32)).
  { unfold K. rewrite u32_val. field. }
  clearbody a b T K.
  (* the norm of the quotients *)
  pose proof (sqrt_pos Q2) as HQ0.
  pose proof (sqrt_sqrt Q2 HQ2) as HQQ.
  set (Q := sqrt Q2) in *. clearbody Q.
  assert (HQge : 1 - K <= Q).
  { destruct (Rle_lt_dec (1 - K) Q) as [|Hlt]; [assumption|]. nra. }
  assert (HQle : Q * (1 - K) <= 1).
  { destruct (Rle_lt_dec (Q * (1 - K)) 1) as [|Hlt]; [assumption|].
    assert (1 < Q) by nra. nra. }
  (* the sum of the quotients *)
  assert (HSgabs : - (r * Q) <= Sg <= r * Q).
  { assert (Hsq : Sg * Sg <= (r * Q) * (r * Q)).
    { replace (r * Q * (r * Q)) with ((r * r) * (Q * Q)) by ring.
      rewrite Hrr, HQQ. exact HSg. }
    assert (0 <= r * Q) by (apply Rmult_le_pos; lra).
    split.
    - destruct (Rle_lt_dec (- (r * Q)) Sg) as [|Hlt]; [assumption|]. nra.
    - destruct (Rle_lt_dec Sg (r * Q)) as [|Hlt]; [assumption|]. nra. }
  assert (Hehr : 0 <= eh * r <= / 10 ^ 12 * 1024).
  { split; [apply Rmult_le_pos; lra|]. apply Rmult_le_compat; lra. }
  assert (HEhi : E <= (Q + eh * r) * (Q + eh * r)).
  { rewrite HE.
    replace ((Q + eh * r) * (Q + eh * r))
      with (Q * Q + 2 * eh * (r * Q) + (r * r) * (eh * eh)) by ring.
    rewrite Hrr, HQQ.
    assert (eh * Sg <= eh * (r * Q)) by (apply Rmult_le_compat_l; lra). lra. }
  assert (HElo : (Q - eh * r) * (Q - eh * r) <= E).
  { rewrite HE.
    replace ((Q - eh * r) * (Q - eh * r))
      with (Q * Q - 2 * eh * (r * Q) + (r * r) * (eh * eh)) by ring.
    rewrite Hrr, HQQ.
    assert (eh * - (r * Q) <= eh * Sg) by (apply Rmult_le_compat_l; lra). lra. }
  (* the norm of the result *)
  pose proof (sqrt_pos N2) as HN0.
  pose proof (sqrt_sqrt N2 HN2) as HNN.
  set (N := sqrt N2) in *. clearbody N.
  assert (Heps : 0 < / 10 ^ 12 <= / 1000000000000).
  { replace (10 ^ 12) with 1000000000000 by (cbn; lra). lra. }
  set (e := / 10 ^ 12) in *. clearbody e.
  assert (HNhi : N * (1 - u32) <= Q + eh * r).
  { apply sqr_le_le; [lra|].
    replace (N * (1 - u32) * (N * (1 - u32))) with (N * N * ((1 - u32) * (1 - u32))) by ring.
    rewrite HNN. fold c1. lra. }
  assert (HNlo : Q - eh * r <= N * (1 + u32)).
  { apply sqr_le_le; [apply Rmult_le_pos; lra|].
    replace (N * (1 + u32) * (N * (1 + u32))) with (N * N * ((1 + u32) * (1 + u32))) by ring.
    rewrite HNN. fold c2. lra. }
  rewrite Htol. clear Htol HN HElo HEhi HSgabs HE HSg HT HS HQlo HQhi HTlo HThi Hbern Hpm Hp01 Hp7 Hc12.
  clearbody c1 c2.
  assert (HuK : 0 < u32 + K <= / 6) by (rewrite u32_val in *; lra).
  rewrite u32_val in *.
  apply Rabs_le. split.
  - (* N >= 1 + e r - 2 (K + u) *)
    assert (H1 : 1 - K - eh * r <= N * (1 + / 8388608)) by lra.
    assert (H2 : 0 <= e * r <= / 1000000000000 * 1024).
    { split; [apply Rmult_le_pos; lra|]. apply Rmult_le_compat; lra. }
    assert (H3 : eh * r <= e * r) by (apply Rmult_le_compat_r; lra).
    set (er := e * r) in *. set (ehr := eh * r) in *. clearbody er ehr.
    nra.
  - assert (H1 : N * (1 - / 8388608) * (1 - K) <= 1 + eh * r).
    { assert (N * (1 - / 8388608) * (1 - K) <= (Q + eh * r) * (1 - K))
        by (apply Rmult_le_compat_r; lra).
      assert (eh * r * (1 - K) <= eh * r * 1) by (apply Rmult_le_compat_l; lra).
      lra. }
    assert (H2 : 0 <= e * r <= / 1000000000000 * 1024).
    { split; [apply Rmult_le_pos; lra|]. apply Rmult_le_compat; lra. }
    assert (H3 : eh * r <= e * r) by (apply Rmult_le_compat_r; lra).
    set (er := e * r) in *. set (ehr := eh * r) in *. clearbody er ehr.
    nra.
Qed.

End ErrorBound3.

(** C2, as amended.  When [normalize v] runs without overflow and
    underflow ([stays_normal]), on a vector of at most 2^20 elements, the
    Euclidean norm of the returned vector, [sqrt(sum(v_i^2))] over the
    real numbers its elements stand for, differs from
    [1 + epsilon*sqrt(dim)], with [epsilon = 10^-12], by at most
    [(dim + 8) * 2^-22].  This is the float32 code: every rounding leaves
    its result within one unit in the last place of the exact value, and
    there are [dim + 5] of them behind the norm and two behind each
    element. *)
Theorem normalize_norm_bound (v : vector) :
  stays_normal v = true ->
  Z.of_nat (length v) <= 2 ^ 20 ->
  (Rabs (sqrt (Rsumsq (map F2R (normalize v)))
         - (1 + / 10 ^ 12 * sqrt (INR (length v))))
   <= (INR (length v) + 8) / 2 ^ 22)%R.
Proof.
  intros Hst Hlen. unfold stays_normal in Hst.
  apply andb_true_iff in Hst. destruct Hst as [Hst Helems].
  apply andb_true_iff in Hst. destruct Hst as [Hst H32].
  apply andb_true_iff in Hst. destruct Hst as [Hsum H64].
  pose proof u32_range as Hu.
  (* the sum of squares *)
  pose proof (sum_squares_bound v Float32.zero 1 0 Hsum eq_refl) as Hs.
  cbv zeta in Hs.
  change (fold_left (fun norm val => Float32.add norm (Float32.mul val val)) v Float32.zero)
    with (sum_squares v) in Hs.
  destruct Hs as (Hs0 & Hslo & Hshi);
    [cbn; lra | lia | cbn [F2R Float32.zero]; lra |].
  rewrite Rplus_0_l in Hslo, Hshi.
  (* the norm *)
  change (norm_of v) with (Float32.sqrt (sum_squares v)) in *.
  destruct (sqrt_bound (sum_squares v) Hs0 H64 H32) as (Hn0 & Hnlo & Hnhi).
  set (nrm := Float32.sqrt (sum_squares v)) in *.
  set (nh := F2R nrm) in *.
  set (S := Rsumsq (map F2R v)) in *.
  assert (HS : (nh * nh * (1 - u32) ^ (length v + 5) <= S
                <= nh * nh * (1 + u32) ^ (length v + 5))%R).
  { replace (length v + 5)%nat with (4 + (1 + length v))%nat by lia.
    rewrite (pow_add (1 - u32)), (pow_add (1 + u32)).
    pose proof (pow_le_one (1 - u32) (1 + length v) ltac:(lra)) as Hp.
    assert (Hq : (0 <= (1 + u32) ^ (1 + length v))%R) by (apply pow_le; lra).
    set (p := ((1 - u32) ^ (1 + length v))%R) in *.
    set (q := ((1 + u32) ^ (1 + length v))%R) in *.
    set (a4 := ((1 - u32) ^ 4)%R) in *. set (b4 := ((1 + u32) ^ 4)%R) in *.
    set (sh := F2R (sum_squares v)) in *. clearbody p q a4 b4 sh S.
    split.
    - assert (nh * nh * a4 * p <= sh * p)%R by (apply Rmult_le_compat_r; lra). lra.
    - assert (sh * q <= nh * nh * b4 * q)%R by (apply Rmult_le_compat_r; lra). lra. }
  (* the elements *)
  rewrite forallb_forall in Helems.
  set (q := fun val => F2R (Float32.div val nrm)).
  assert (Hq : (Rsumsq (map q v) * ((1 - u32) * (1 - u32))
                <= Rsumsq (map (fun val => F2R val / nh) v)
                <= Rsumsq (map q v) * ((1 + u32) * (1 + u32)))%R).
  { apply Rsumsq_compare. intros val Hin. specialize (Helems val Hin).
    cbv zeta in Helems. apply andb_true_iff in Helems. destruct Helems as [Hd _].
    apply approx_sqr, div_settled; assumption. }
  assert (Ho : (Rsumsq (map F2R (normalize v)) * ((1 - u32) * (1 - u32))
                <= Rsumsq (map (fun val => q val + F2R Float32.epsilon) v)
                <= Rsumsq (map F2R (normalize v)) * ((1 + u32) * (1 + u32)))%R).
  { unfold normalize. rewrite map_map.
    apply Rsumsq_compare. intros val Hin. specialize (Helems val Hin).
    cbv zeta in Helems. apply andb_true_iff in Helems. destruct Helems as [_ Ha].
    apply approx_sqr. apply add_epsilon_settled. exact Ha. }
  rewrite <- (map_map F2R (fun x => (x / nh)%R)) in Hq.
  rewrite Rsumsq_scale in Hq by lra. fold S in Hq.
  rewrite <- (map_map q (fun x => (x + F2R Float32.epsilon)%R)) in Ho.
  rewrite Rsumsq_shift, length_map in Ho.
  pose proof (Rsum_sqr_le (map q v)) as Hcs. rewrite length_map in Hcs.
  apply (norm_within (length v) S nh (Rsumsq (map q v)) (Rsum (map q v))
           (Rsumsq (map q v) + 2 * F2R Float32.epsilon * Rsum (map q v)
            + INR (length v) * (F2R Float32.epsilon * F2R Float32.epsilon))
           (Rsumsq (map F2R (normalize v))) (F2R Float32.epsilon));
    try assumption.
  - apply Rsumsq_nonneg.
  - reflexivity.
  - apply epsilon_value.
  - apply Rsumsq_nonneg.
Qed.

Lemma normalize_norm_bound_witness :
  (Rabs (sqrt (Rsumsq (map F2R (normalize [Float32.of_Z 3; Float32.of_Z 4])))
         - (1 + / 10 ^ 12 * sqrt (INR 2)))
   <= (INR 2 + 8) / 2 ^ 22)%R.
Proof.
  apply (normalize_norm_bound [Float32.of_Z 3; Float32.of_Z 4]).
  - vm_compute. reflexivity.
  - cbn. lia.
Defined.

(** Where the bound applies: [stays_normal] holds of small integer
    vectors, of a vector of 384 elements and of a vector whose elements
    are 2^120 apart, and fails when a square overflows or underflows. *)
Example stays_normal_examples :
  stays_normal [Float32.of_Z 1; Float32.of_Z 1; Float32.of_Z 1] = true /\
  stays_normal (map (fun k => Float32.of_Z (Z.of_nat k - 190)) (seq 0 384)) = true /\
  stays_normal [Float32.pow2 60; Float32.pow2 (-60)] = true /\
  stays_normal [Float32.zero; Float32.of_Z 1] = true /\
  stays_normal [Float32.pow2 100] = false /\
  stays_normal [Float32.pow2 (-100)] = false /\
  stays_normal [Float32.pow2 (-70); Float32.of_Z 1] = false.
Proof. repeat split; vm_compute; reflexivity. Qed.

(* ---------------------------------------------------------------------- *)
(** ** [normalize] on binary32: overflow and underflow of the norm *)

(** C2, as stated, fails on binary32.  The one-element vector [2^100] is
    not all-zero; its square overflows to +Inf, the norm is +Inf, the
    quotient is 0 and the returned vector is [epsilon], whose Euclidean
    norm is below 2^-39 (about 1.8e-12), not near 1.  The vector [2^-100]
    is not all-zero either; its square underflows to 0, the norm is 0 and
    the returned element is +Inf. *)
Lemma normalize_norm_counterexample :
  Float32.is_zero (Float32.pow2 100) = false /\
  sum_squares [Float32.pow2 100] = S754_infinity false /\
  normalize [Float32.pow2 100] = [Float32.epsilon] /\
  SFltb (norm_of (normalize [Float32.pow2 100])) (Float32.pow2 (-39)) = true /\
  Float32.is_zero (Float32.pow2 (-100)) = false /\
  normalize [Float32.pow2 (-100)] = [S754_infinity false].
Proof. repeat split; vm_compute; reflexivity. Qed.

(* ====================================================================== *)
(** * The chunks of [Embed] *)

Lemma effective_batchSize_range (batchSize : Z) :
  batchSize <= max_int ->
  1 <= effective_batchSize batchSize <= max_int.
Proof.
  unfold effective_batchSize, max_int. intros Hb.
  destruct (Z.leb_spec batchSize 0); lia.
Qed.

Section ChunkArithmetic.
Variables len bs : Z.
Hypothesis Hlen0 : 0 <= len.
Hypothesis Hlen : 2 * len <= max_int.
Hypothesis Hbs : 1 <= bs <= max_int.

Lemma chunk_count_spec :
  let m := Z.of_nat (chunk_count len bs) in
  len <= m * bs /\ (0 < m -> (m - 1) * bs < len) /\ m <= len.
Proof.
  unfold chunk_count.
  assert (Hq : 0 <= (len + bs - 1) / bs) by (apply Z.div_pos; lia).
  rewrite Z2Nat.id by exact Hq.
  pose proof (Z.div_mod (len + bs - 1) bs ltac:(lia)) as Hdm.
  pose proof (Z.mod_pos_bound (len + bs - 1) bs ltac:(lia)) as Hmod.
  set (m := (len + bs - 1) / bs) in *.
  set (r := (len + bs - 1) mod bs) in *. clearbody m r.
  clear Hlen. destruct Hbs as [Hbs1 _].
  cbv zeta. split; [nia|]. split; [intros Hm; nia|].
  destruct (Z.eq_dec m 0) as [->|Hm0]; [lia|].
  assert (0 <= (m - 1) * (bs - 1)) by nia. nia.
Qed.

Lemma chunk_start_lt (k : nat) :
  (k < chunk_count len bs)%nat -> Z.of_nat k * bs < len.
Proof.
  intros Hk. destruct chunk_count_spec as (_ & Hlt & _).
  assert (Z.of_nat k <= Z.of_nat (chunk_count len bs) - 1) by lia.
  assert (Z.of_nat k * bs <= (Z.of_nat (chunk_count len bs) - 1) * bs) by nia.
  lia.
Qed.

(** The additions of the loop and of the goroutines do not wrap. *)
Lemma chunk_next_no_wrap (k : nat) :
  (k < chunk_count len bs)%nat ->
  int_wrap (Z.of_nat k * bs + bs) = Z.of_nat (S k) * bs.
Proof.
  intros Hk. pose proof (chunk_start_lt k Hk) as Hlt.
  rewrite int_wrap_id.
  - lia.
  - unfold max_int in *. destruct k as [|k].
    + simpl. lia.
    + assert (bs <= Z.of_nat (S k) * bs) by nia. nia.
Qed.

Lemma chunk_end_min (k : nat) :
  (k < chunk_count len bs)%nat ->
  chunk_end len bs (Z.of_nat k * bs) = Z.min (Z.of_nat k * bs + bs) len.
Proof.
  intros Hk. unfold chunk_end. rewrite (chunk_next_no_wrap k Hk).
  replace (Z.of_nat (S k) * bs) with (Z.of_nat k * bs + bs) by lia.
  destruct (Z.gtb_spec (Z.of_nat k * bs + bs) len); lia.
Qed.

Lemma spawn_loop_from (n : nat) :
  forall (k fuel : nat),
    (k + n = chunk_count len bs)%nat -> (n < fuel)%nat ->
    spawn_loop fuel len bs (Z.of_nat k * bs)
    = Some (map (fun j => Z.of_nat j * bs) (seq k n)).
Proof.
  induction n as [|n IH]; intros k fuel Hk Hfuel.
  - destruct fuel as [|fuel]; [lia|]. cbn [spawn_loop seq map].
    destruct chunk_count_spec as (Hge & _ & _).
    replace (k + 0)%nat with k in Hk by lia. rewrite <- Hk in Hge.
    destruct (Z.ltb_spec (Z.of_nat k * bs) len); [lia|reflexivity].
  - destruct fuel as [|fuel]; [lia|]. cbn [spawn_loop seq map].
    assert (Hlt : (k < chunk_count len bs)%nat) by lia.
    pose proof (chunk_start_lt k Hlt).
    destruct (Z.ltb_spec (Z.of_nat k * bs) len); [|lia].
    rewrite (chunk_next_no_wrap k Hlt).
    rewrite (IH (S k) fuel) by lia. reflexivity.
Qed.

Lemma spawn_loop_starts (fuel : nat) :
  (Z.to_nat len < fuel)%nat ->
  spawn_loop fuel len bs 0 = Some (chunk_starts len bs).
Proof.
  intros Hfuel. unfold chunk_starts.
  change 0 with (Z.of_nat 0 * bs).
  apply spawn_loop_from; [lia|].
  destruct chunk_count_spec as (_ & _ & Hm). lia.
Qed.

Lemma in_chunk_starts (i : Z) :
  In i (chunk_starts len bs) <->
  exists k, (k < chunk_count len bs)%nat /\ i = Z.of_nat k * bs.
Proof.
  unfold chunk_starts. rewrite in_map_iff. split.
  - intros (k & <- & Hin). apply in_seq in Hin. exists k. split; [lia|reflexivity].
  - intros (k & Hk & ->). exists k. split; [reflexivity|]. apply in_seq. lia.
Qed.

Lemma chunk_starts_NoDup : NoDup (chunk_starts len bs).
Proof.
  unfold chunk_starts. apply Finite.Injective_map_NoDup.
  - intros a b Hab. nia.
  - apply seq_NoDup.
Qed.

(** The chunk of index [p]. *)
Lemma chunk_of_index (k : nat) (p : Z) :
  Z.of_nat k * bs <= p < Z.of_nat k * bs + bs -> p / bs = Z.of_nat k.
Proof.
  intros Hp. symmetry. apply (Z.div_unique p bs (Z.of_nat k) (p - Z.of_nat k * bs)); lia.
Qed.

Lemma index_in_chunk (p : Z) :
  0 <= p < len ->
  exists k, (k < chunk_count len bs)%nat /\
            Z.of_nat k * bs <= p < Z.min (Z.of_nat k * bs + bs) len /\
            p / bs * bs = Z.of_nat k * bs.
Proof.
  intros Hp.
  pose proof (Z.div_mod p bs ltac:(lia)) as Hdm.
  pose proof (Z.mod_pos_bound p bs ltac:(lia)) as Hmod.
  assert (Hq : 0 <= p / bs) by (apply Z.div_pos; lia).
  exists (Z.to_nat (p / bs)). rewrite Z2Nat.id by exact Hq.
  destruct chunk_count_spec as (Hge & _ & _).
  repeat split; try lia.
  assert (p / bs < Z.of_nat (chunk_count len bs)) by nia. lia.
Qed.

End ChunkArithmetic.

Section ChunkLists.
Variable input : list string.
Variable bs : Z.
Hypothesis Hlen : 2 * Z.of_nat (length input) <= max_int.
Hypothesis Hbs : 1 <= bs <= max_int.

Abbreviation len := (Z.of_nat (length input)).
Abbreviation chunk k :=
  (firstn (Z.to_nat bs) (skipn (Z.to_nat (Z.of_nat k * bs)) input)).

Lemma chunk_slice (k : nat) :
  (k < chunk_count len bs)%nat ->
  slice input (Z.of_nat k * bs) (chunk_end len bs (Z.of_nat k * bs)) = Ok (chunk k).
Proof.
  intros Hk.
  rewrite chunk_end_min by (assumption || lia).
  assert (Hlt : Z.of_nat k * bs < len) by (apply chunk_start_lt; assumption || lia).
  rewrite slice_ok by lia. f_equal.
  destruct (Z.min_spec (Z.of_nat k * bs + bs) len) as [[_ ->]|[Hge ->]].
  - f_equal. lia.
  - rewrite !firstn_all2; try reflexivity; rewrite length_skipn; lia.
Qed.

Lemma chunks_from_seq (n : nat) :
  forall k : nat,
    (k + n <= chunk_count len bs)%nat ->
    chunks_from input bs (map (fun j => Z.of_nat j * bs) (seq k n))
    = Ok (map (fun j => chunk j) (seq k n)).
Proof.
  induction n as [|n IH]; intros k Hk; cbn [seq map chunks_from]; [reflexivity|].
  rewrite chunk_slice by lia. cbn [bind].
  rewrite IH by lia. reflexivity.
Qed.

Lemma chunks_concat (n : nat) :
  forall k : nat,
    (k + n = chunk_count len bs)%nat ->
    concat (map (fun j => chunk j) (seq k n))
    = skipn (Z.to_nat (Z.of_nat k * bs)) input.
Proof.
  induction n as [|n IH]; intros k Hk; cbn [seq map concat].
  - destruct (chunk_count_spec len bs) as (Hge & _ & _); [lia|assumption|].
    rewrite skipn_all2; [reflexivity|].
    replace (k + 0)%nat with k in Hk by lia. rewrite <- Hk in Hge. lia.
  - rewrite IH by lia.
    rewrite <- (firstn_skipn (Z.to_nat bs) (skipn (Z.to_nat (Z.of_nat k * bs)) input)) at 2.
    f_equal. rewrite skipn_skipn. f_equal. lia.
Qed.

Lemma chunk_length (k : nat) :
  (k < chunk_count len bs)%nat ->
  Z.of_nat (length (chunk k)) = Z.min bs (len - Z.of_nat k * bs) /\
  1 <= Z.of_nat (length (chunk k)) <= bs.
Proof.
  intros Hk.
  assert (Hlt : Z.of_nat k * bs < len) by (apply chunk_start_lt; assumption || lia).
  rewrite length_firstn, length_skipn. lia.
Qed.

Lemma chunk_length_full (k : nat) :
  (S k < chunk_count len bs)%nat -> Z.of_nat (length (chunk k)) = bs.
Proof.
  intros Hk.
  assert (Hlt : Z.of_nat (S k) * bs < len) by (apply chunk_start_lt; assumption || lia).
  rewrite length_firstn, length_skipn. lia.
Qed.

End ChunkLists.

(** C4. [Embed] cuts [input] into contiguous chunks in input order:
    chunk [k] is [input[k*bs : min((k+1)*bs, len)]], the chunks
    concatenated are [input], every chunk but the last holds [bs] strings
    and the last holds between 1 and [bs]; [bs] is [batchSize], or 512
    when [batchSize <= 0]. *)
Theorem Embed_partition (input : list string) (batchSize : Z) :
  2 * Z.of_nat (length input) <= max_int ->
  batchSize <= max_int ->
  let bs := if batchSize <=? 0 then 512 else batchSize in
  exists cs : list (list string),
    Embed_chunks input batchSize = Some (Ok cs) /\
    concat cs = input /\
    (forall k, (k < length cs)%nat ->
       nth k cs [] = firstn (Z.to_nat bs) (skipn (Z.to_nat (Z.of_nat k * bs)) input)) /\
    (forall k, (S k < length cs)%nat -> Z.of_nat (length (nth k cs [])) = bs) /\
    (forall c, In c cs -> 1 <= Z.of_nat (length c) <= bs).
Proof.
  intros Hlen Hb bs.
  pose proof (effective_batchSize_range batchSize Hb) as Hbs.
  change (if batchSize <=? 0 then 512 else batchSize)
    with (effective_batchSize batchSize) in bs.
  fold bs in Hbs.
  set (m := chunk_count (Z.of_nat (length input)) bs).
  exists (map (fun j => firstn (Z.to_nat bs)
                          (skipn (Z.to_nat (Z.of_nat j * bs)) input)) (seq 0 m)).
  assert (Hnth : forall k, (k < m)%nat ->
            nth k (map (fun j => firstn (Z.to_nat bs)
                          (skipn (Z.to_nat (Z.of_nat j * bs)) input)) (seq 0 m)) []
            = firstn (Z.to_nat bs) (skipn (Z.to_nat (Z.of_nat k * bs)) input)).
  { intros k Hk.
    rewrite (nth_indep _ [] ((fun j => firstn (Z.to_nat bs)
                          (skipn (Z.to_nat (Z.of_nat j * bs)) input)) 0%nat))
      by (rewrite length_map, length_seq; exact Hk).
    rewrite (map_nth (fun j => firstn (Z.to_nat bs)
                          (skipn (Z.to_nat (Z.of_nat j * bs)) input))).
    rewrite seq_nth by exact Hk. reflexivity. }
  split; [|split; [|split; [|split]]].
  - unfold Embed_chunks. fold bs.
    rewrite spawn_loop_starts by (assumption || lia).
    cbn [option_map]. f_equal. unfold chunk_starts. fold m.
    apply chunks_from_seq; try assumption. unfold m. lia.
  - rewrite (chunks_concat input bs) by (assumption || (unfold m; lia)).
    reflexivity.
  - intros k Hk. rewrite length_map, length_seq in Hk. apply Hnth, Hk.
  - intros k Hk. rewrite length_map, length_seq in Hk.
    rewrite Hnth by lia.
    apply chunk_length_full; assumption.
  - intros c Hc. apply in_map_iff in Hc. destruct Hc as (k & <- & Hk).
    apply in_seq in Hk.
    apply chunk_length; try assumption. unfold m in Hk. lia.
Qed.

Lemma Embed_partition_witness :
  exists cs : list (list string),
    Embed_chunks ["a"; "b"; "c"; "d"; "e"]%string 0 = Some (Ok cs) /\
    concat cs = ["a"; "b"; "c"; "d"; "e"]%string.
Proof.
  destruct (Embed_partition ["a"; "b"; "c"; "d"; "e"]%string 0)
    as (cs & Hcs & Hcat & _).
  - unfold max_int. simpl. lia.
  - unfold max_int. lia.
  - exists cs. split; [exact Hcs | exact Hcat].
Defined.

(* ====================================================================== *)
(** * The goroutines of [Embed] *)

Lemma copy_into_ok (emb : list vector) (i e : Z) (out : list vector) :
  0 <= i <= e -> e <= Z.of_nat (length emb) ->
  exists emb',
    copy_into emb i e out = Ok emb' /\
    length emb' = length emb /\
    forall q : nat,
      nth q emb' [] =
      if (Z.to_nat i <=? q)%nat
         && (q <? Z.to_nat i + Nat.min (Z.to_nat (e - i)) (length out))%nat
      then nth (q - Z.to_nat i) out []
      else nth q emb [].
Proof.
  intros Hi He. unfold copy_into.
  rewrite slice_ok by lia. cbn [bind].
  set (a := Z.to_nat i).
  assert (Hdst : length (firstn (Z.to_nat (e - i)) (skipn a emb)) = Z.to_nat (e - i)).
  { rewrite length_firstn, length_skipn. unfold a. lia. }
  rewrite Hdst.
  set (n := Nat.min (Z.to_nat (e - i)) (length out)).
  assert (Ha : length (firstn a emb) = a) by (rewrite length_firstn; unfold a; lia).
  assert (Hn : length (firstn n out) = n) by (rewrite length_firstn; unfold n; lia).
  eexists. split; [reflexivity|]. split.
  - rewrite !length_app, Ha, Hn, length_skipn. unfold a, n. lia.
  - intros q.
    destruct (Nat.leb_spec a q) as [Haq|Haq]; cbn [andb].
    + rewrite app_nth2 by lia. rewrite Ha.
      destruct (Nat.ltb_spec q (a + n)) as [Hqn|Hqn].
      * rewrite app_nth1 by lia. rewrite nth_firstn.
        destruct (Nat.ltb_spec (q - a) n); [reflexivity|lia].
      * rewrite app_nth2 by lia. rewrite Hn, nth_skipn. f_equal. lia.
    + rewrite app_nth1 by lia. rewrite nth_firstn.
      destruct (Nat.ltb_spec q a); [reflexivity|lia].
Qed.

Lemma Forall_replace {A} (P : A -> Prop) (l1 l2 : list A) (a b : A) :
  Forall P (l1 ++ a :: l2) -> P b -> Forall P (l1 ++ b :: l2).
Proof.
  intros Hall Hb. apply Forall_app in Hall. destruct Hall as [H1 H2].
  apply Forall_app. split; [exact H1|].
  inversion H2; subst. constructor; assumption.
Qed.

Lemma map_replace {A B} (g : A -> B) (l1 l2 : list A) (a b : A) :
  g b = g a -> map g (l1 ++ b :: l2) = map g (l1 ++ a :: l2).
Proof.
  intros Hg. rewrite !map_app. cbn [map]. rewrite Hg. reflexivity.
Qed.

Section Goroutines.
Context `{Platform} `{Runtime}.
Variable f : FlagEmbedding.
Variable input : list string.
Variable bs : Z.
Hypothesis Hlen : 2 * Z.of_nat (length input) <= max_int.
Hypothesis Hbs : 1 <= bs <= max_int.

Abbreviation len := (Z.of_nat (length input)).
Abbreviation call i := (call_onnxEmbed f input bs i).
Abbreviation GInv := (Inv f input bs).

Lemma sent_errors_replace (l1 l2 : list goroutine) (g : goroutine) :
  sent_errors f input bs (l1 ++ g :: l2)
  = sent_errors f input bs l1 ++ sent_errors f input bs [g]
    ++ sent_errors f input bs l2.
Proof.
  unfold sent_errors. rewrite flat_map_app. cbn [flat_map].
  rewrite app_nil_r. reflexivity.
Qed.

Lemma start_of_goroutine (l1 l2 : list goroutine) (g : goroutine) :
  map g_i (l1 ++ g :: l2) = chunk_starts len bs ->
  exists k, (k < chunk_count len bs)%nat /\ g_i g = Z.of_nat k * bs.
Proof.
  intros Hst. apply (in_chunk_starts len bs). rewrite <- Hst.
  apply in_map, in_elt.
Qed.

Lemma other_goroutine (l1 l2 : list goroutine) (g g' : goroutine) :
  map g_i (l1 ++ g :: l2) = chunk_starts len bs ->
  In g' (l1 ++ l2) ->
  exists j, (j < chunk_count len bs)%nat /\ g_i g' = Z.of_nat j * bs /\
            g_i g' <> g_i g.
Proof.
  intros Hst Hin.
  assert (Hin' : In (g_i g') (chunk_starts len bs)).
  { rewrite <- Hst. apply in_map. apply in_app_or in Hin.
    apply in_or_app. destruct Hin; [left|right; right]; assumption. }
  apply (in_chunk_starts len bs) in Hin'. destruct Hin' as (j & Hj & Hgj).
  exists j. repeat split; try assumption.
  assert (Hnd : NoDup (chunk_starts len bs))
    by (apply chunk_starts_NoDup; assumption || lia).
  rewrite <- Hst, map_app in Hnd. cbn [map] in Hnd.
  apply NoDup_remove in Hnd. destruct Hnd as [_ Hnotin].
  intros Heq. apply Hnotin. rewrite <- Heq, <- map_app. apply in_map, Hin.
Qed.

Lemma range_ok_not_done (emb : list vector) (i : Z) (p1 p2 : pc) :
  is_Done p1 = false -> is_Done p2 = false ->
  range_ok f input bs emb {| g_i := i; g_pc := p1 |} ->
  range_ok f input bs emb {| g_i := i; g_pc := p2 |}.
Proof.
  unfold range_ok. cbn [g_i g_pc]. intros H1 H2 Hr p Hp.
  specialize (Hr p Hp). rewrite H1 in Hr. rewrite H2. exact Hr.
Qed.

Lemma step_preserves (s : state) (c : config) :
  GInv s -> step f input bs (Running s) c ->
  match c with Running s' => GInv s' | Crashed => True end.
Proof.
  intros [Hst Hl Hpc Hrg Her] Hstep.
  inversion Hstep as
    [l1 l2 i emb ch out Hcall | l1 l2 i emb ch err Hcall | l1 l2 i emb ch Hcall
    | l1 l2 i emb ch out err Hcap | l1 l2 i emb ch out emb' Hcopy
    | l1 l2 i emb ch out Hcopy];
    subst; cbn [goroutines embeddings errorCh] in *; try exact I.
  - (* f.onnxEmbed returned a batch *)
    constructor; cbn [goroutines embeddings errorCh].
    + rewrite <- Hst. apply map_replace. reflexivity.
    + exact Hl.
    + eapply Forall_replace; [exact Hpc|]. left. exact Hcall.
    + eapply Forall_replace; [exact Hrg|].
      eapply range_ok_not_done; [| |eapply Forall_elt; exact Hrg]; reflexivity.
    + rewrite sent_errors_replace in *.
      unfold sent_errors at 2. unfold sent_errors at 2 in Her.
      cbn [flat_map g_pc g_i errors_of] in *. rewrite Hcall. exact Her.
  - (* f.onnxEmbed returned an error *)
    constructor; cbn [goroutines embeddings errorCh].
    + rewrite <- Hst. apply map_replace. reflexivity.
    + exact Hl.
    + eapply Forall_replace; [exact Hpc|]. split; [reflexivity|exact Hcall].
    + eapply Forall_replace; [exact Hrg|].
      eapply range_ok_not_done; [| |eapply Forall_elt; exact Hrg]; reflexivity.
    + rewrite sent_errors_replace in *. exact Her.
  - (* errorCh <- err *)
    pose proof (Forall_elt _ _ _ Hpc) as Hg. destruct Hg as [-> Hcall].
    cbn [g_i] in Hcall.
    constructor; cbn [goroutines embeddings errorCh].
    + rewrite <- Hst. apply map_replace. reflexivity.
    + exact Hl.
    + eapply Forall_replace; [exact Hpc|]. right. split; [reflexivity|].
      exists err. exact Hcall.
    + eapply Forall_replace; [exact Hrg|].
      eapply range_ok_not_done; [| |eapply Forall_elt; exact Hrg]; reflexivity.
    + rewrite sent_errors_replace in *.
      unfold sent_errors at 2. unfold sent_errors at 2 in Her.
      cbn [flat_map g_pc g_i errors_of app] in *. rewrite Hcall.
      cbn [app].
      apply Permutation_trans with (err :: ch).
      * apply Permutation_sym, Permutation_cons_append.
      * apply Permutation_cons_app. exact Her.
  - (* copy(embeddings[i:end], batchOut) *)
    destruct (start_of_goroutine _ _ _ Hst) as (k & Hk & Hik).
    cbn [g_i] in Hik.
    assert (Hend : chunk_end len bs i = Z.min (i + bs) len).
    { rewrite Hik. apply chunk_end_min; assumption || lia. }
    assert (Hilt : i < len).
    { rewrite Hik. apply chunk_start_lt; assumption || lia. }
    assert (Hi0 : 0 <= i) by nia.
    destruct (copy_into_ok emb i (chunk_end len bs i) out) as (emb2 & Hc2 & Hl2 & Hnth);
      [lia | lia |].
    rewrite Hc2 in Hcopy. injection Hcopy as <-.
    pose proof (Forall_elt _ _ _ Hpc) as Hg. cbv [pc_ok] in Hg. cbn [g_pc g_i] in Hg.
    pose proof (Forall_elt _ _ _ Hrg) as Hr. unfold range_ok in Hr.
    cbn [g_pc g_i is_Done] in Hr.
    constructor; cbn [goroutines embeddings errorCh].
    + rewrite <- Hst. apply map_replace. reflexivity.
    + congruence.
    + eapply Forall_replace; [exact Hpc|]. cbv [pc_ok]. cbn [g_pc g_i].
      destruct Hg as [Hg|(_ & e & Hg)]; rewrite Hg; discriminate.
    + apply Forall_app. apply Forall_app in Hrg. destruct Hrg as [Hr1 Hr2].
      apply Forall_cons_iff in Hr2. destruct Hr2 as [_ Hr2'].
      assert (Hother : forall g',
                In g' (l1 ++ l2) -> range_ok f input bs emb g' ->
                range_ok f input bs emb2 g').
      { intros g' Hin Hrg' p Hp.
        destruct (other_goroutine _ _ _ _ Hst Hin) as (j & Hj & Hgj & Hne).
        cbn [g_i] in Hne.
        rewrite Hnth.
        replace ((Z.to_nat i <=? Z.to_nat p)%nat &&
                 (Z.to_nat p <? Z.to_nat i
                    + Nat.min (Z.to_nat (chunk_end len bs i - i)) (length out))%nat)
          with false; [apply Hrg', Hp|].
        symmetry. apply andb_false_iff.
        destruct (Nat.leb_spec (Z.to_nat i) (Z.to_nat p)) as [Hle|Hle]; [right|left; reflexivity].
        apply Nat.ltb_ge.
        assert (Hjk : j <> k) by (intros ->; lia).
        assert (Hdis : i + bs <= g_i g' \/ g_i g' + bs <= i).
        { rewrite Hgj, Hik.
          destruct (Nat.lt_ge_cases j k) as [Hlt|Hge].
          - right. assert (Z.of_nat j + 1 <= Z.of_nat k) by lia. nia.
          - left. assert (Z.of_nat k + 1 <= Z.of_nat j) by lia. nia. }
        lia. }
      split; [|constructor].
      * rewrite Forall_forall in *. intros g' Hin.
        apply Hother; [apply in_or_app; left; exact Hin|apply Hr1, Hin].
      * intros p Hp. cbn [g_i g_pc is_Done] in *.
        rewrite Hnth. specialize (Hr p Hp).
        destruct (Nat.leb_spec (Z.to_nat i) (Z.to_nat p)) as [Hle|Hle]; [|lia].
        cbn [andb].
        replace (Z.to_nat p - Z.to_nat i)%nat with (Z.to_nat (p - i)) by lia.
        destruct (Nat.ltb_spec (Z.to_nat p)
                    (Z.to_nat i + Nat.min (Z.to_nat (chunk_end len bs i - i)) (length out)))
          as [Hin|Hout].
        -- destruct Hg as [Hg|(-> & e & Hg)]; rewrite Hg; [reflexivity|].
           destruct (Z.to_nat (p - i)); reflexivity.
        -- rewrite Hr.
           destruct Hg as [Hg|(-> & e & Hg)]; rewrite Hg; [|reflexivity].
           symmetry. apply nth_overflow. lia.
      * rewrite Forall_forall in *. intros g' Hin.
        apply Hother; [apply in_or_app; right; exact Hin|apply Hr2', Hin].
    + rewrite sent_errors_replace in *. exact Her.
Qed.

Lemma steps_preserve (s0 : state) (c : config) :
  GInv s0 -> steps f input bs (Running s0) c ->
  match c with Running s => GInv s | Crashed => True end.
Proof.
  intros Hinv0 Hsteps. remember (Running s0) as c0 eqn:E.
  induction Hsteps as [c|c1 c2 c3 Hsteps IH Hstep]; subst.
  - exact Hinv0.
  - specialize (IH eq_refl).
    destruct c2 as [s2|]; [|inversion Hstep].
    apply (step_preserves s2 c3 IH Hstep).
Qed.

Lemma steps_cons (c1 c2 c3 : config) :
  step f input bs c1 c2 -> steps f input bs c2 c3 -> steps f input bs c1 c3.
Proof.
  intros Hstep Hsteps. induction Hsteps as [c|c2 c3 c4 _ IH Hlast].
  - eapply steps_snoc; [apply steps_refl|exact Hstep].
  - eapply steps_snoc; [apply IH, Hstep|exact Hlast].
Qed.

Lemma start_state :
  exists s0,
    spawn_loop (S (length input)) len bs 0 = Some (chunk_starts len bs) /\
    s0 = {| goroutines := map (fun i => {| g_i := i; g_pc := Calling |})
                              (chunk_starts len bs);
            embeddings := repeat [] (length input);
            errorCh := [] |} /\
    GInv s0.
Proof.
  eexists. split; [|split; [reflexivity|]].
  - apply spawn_loop_starts; assumption || lia.
  - constructor; cbn [goroutines embeddings errorCh].
    + rewrite map_map. cbn [g_i]. apply map_id.
    + apply repeat_length.
    + apply Forall_forall. intros g Hg. apply in_map_iff in Hg.
      destruct Hg as (i & <- & _). exact I.
    + apply Forall_forall. intros g Hg. apply in_map_iff in Hg.
      destruct Hg as (i & <- & _). intros p Hp. cbn [g_i g_pc is_Done].
      destruct (Nat.lt_ge_cases (Z.to_nat p) (length input)) as [Hlt|Hge].
      * apply nth_repeat.
      * apply nth_overflow. rewrite repeat_length. exact Hge.
    + induction (chunk_starts len bs) as [|i l IH]; [constructor|exact IH].
Qed.

Lemma sent_errors_all_done (gs : list goroutine) :
  Forall (fun g => g_pc g = Done) gs ->
  sent_errors f input bs gs = errors_of f input bs (map g_i gs).
Proof.
  induction 1 as [|g gs Hg _ IH]; [reflexivity|].
  change (sent_errors f input bs (g :: gs))
    with (match g_pc g with
          | Copying _ | Done => errors_of f input bs [g_i g]
          | _ => []
          end ++ sent_errors f input bs gs).
  rewrite Hg, IH. unfold errors_of. cbn [flat_map map].
  rewrite app_nil_r. reflexivity.
Qed.

(** After the barrier: every error is in the channel, every row is in
    its place. *)
Lemma final_state (s : state) :
  GInv s -> all_done s ->
  Permutation (errorCh s) (errors_of f input bs (chunk_starts len bs)) /\
  length (embeddings s) = length input /\
  forall p : Z, 0 <= p < len ->
    nth (Z.to_nat p) (embeddings s) [] =
    match call (p / bs * bs) with
    | Ok batchOut => nth (Z.to_nat (p - p / bs * bs)) batchOut []
    | _ => []
    end.
Proof.
  intros [Hst Hl Hpc Hrg Her] Hdone. unfold all_done in Hdone.
  split; [|split].
  - rewrite <- Hst, <- sent_errors_all_done by exact Hdone. exact Her.
  - exact Hl.
  - intros p Hp.
    destruct (index_in_chunk len bs (Zle_0_nat _) Hbs p Hp) as (k & Hk & Hrange & Hdiv).
    assert (Hin : In (Z.of_nat k * bs) (map g_i (goroutines s))).
    { rewrite Hst. apply in_chunk_starts. exists k. split; [exact Hk|reflexivity]. }
    apply in_map_iff in Hin. destruct Hin as (g & Hgi & Hg).
    rewrite Forall_forall in Hrg, Hdone.
    specialize (Hrg g Hg p). rewrite Hgi in Hrg. specialize (Hrg Hrange).
    rewrite (Hdone g Hg) in Hrg. cbn [is_Done] in Hrg.
    rewrite Hdiv. exact Hrg.
Qed.

(* ---------------------------------------------------------------------- *)
(** ** No goroutine blocks, and the barrier opens *)

Lemma step_safe (s : state) (c : config) :
  GInv s ->
  Forall (fun i => call i <> Panic) (chunk_starts len bs) ->
  step f input bs (Running s) c -> c <> Crashed.
Proof.
  intros [Hst Hl Hpc Hrg Her] Hnp Hstep.
  inversion Hstep as
    [l1 l2 i emb ch out Hcall | l1 l2 i emb ch err Hcall | l1 l2 i emb ch Hcall
    | l1 l2 i emb ch out err Hcap | l1 l2 i emb ch out emb' Hcopy
    | l1 l2 i emb ch out Hcopy];
    subst; cbn [goroutines embeddings errorCh] in *; try discriminate.
  - exfalso. rewrite Forall_forall in Hnp. apply (Hnp i); [|exact Hcall].
    rewrite <- Hst. apply (in_map g_i _ {| g_i := i; g_pc := Calling |}), in_elt.
  - exfalso.
    destruct (start_of_goroutine _ _ _ Hst) as (k & Hk & Hik). cbn [g_i] in Hik.
    assert (Hend : chunk_end len bs i = Z.min (i + bs) len).
    { rewrite Hik. apply chunk_end_min; assumption || lia. }
    assert (Hilt : i < len).
    { rewrite Hik. apply chunk_start_lt; assumption || lia. }
    assert (Hi0 : 0 <= i) by nia.
    destruct (copy_into_ok emb i (chunk_end len bs i) out) as (emb2 & Hc2 & _);
      [lia | lia |].
    congruence.
Qed.

Lemma steps_safe (s0 : state) :
  GInv s0 ->
  Forall (fun i => call i <> Panic) (chunk_starts len bs) ->
  ~ steps f input bs (Running s0) Crashed.
Proof.
  intros Hinv0 Hnp Hsteps.
  inversion Hsteps as [|c1 c2 c3 Hpre Hlast]; subst.
  destruct c2 as [s2|]; [|inversion Hlast].
  pose proof (steps_preserve s0 (Running s2) Hinv0 Hpre) as Hinv2.
  exact (step_safe s2 Crashed Hinv2 Hnp Hlast eq_refl).
Qed.

Lemma done_or_split (gs : list goroutine) :
  Forall (fun g => g_pc g = Done) gs \/
  exists l1 g l2, gs = l1 ++ g :: l2 /\ g_pc g <> Done.
Proof.
  induction gs as [|g gs IH]; [left; constructor|].
  destruct (g_pc g) eqn:Eg.
  1-3: right; exists [], g, gs; split; [reflexivity|rewrite Eg; discriminate].
  destruct IH as [IH|(l1 & g' & l2 & -> & Hg')].
  - left. constructor; assumption.
  - right. exists (g :: l1), g', l2. split; [reflexivity|exact Hg'].
Qed.

Lemma sent_errors_length (l : list goroutine) :
  (length (sent_errors f input bs l) <= length l)%nat.
Proof.
  induction l as [|g l IH]; [apply Nat.le_refl|].
  change (sent_errors f input bs (g :: l))
    with (match g_pc g with
          | Copying _ | Done => errors_of f input bs [g_i g]
          | _ => []
          end ++ sent_errors f input bs l).
  rewrite length_app. cbn [length].
  assert (length (errors_of f input bs [g_i g]) <= 1)%nat.
  { unfold errors_of. cbn [flat_map]. destruct (call (g_i g)); cbn; lia. }
  destruct (g_pc g); cbn [length]; lia.
Qed.

Lemma work_left_split (l1 l2 : list goroutine) (g : goroutine) (emb : list vector)
  (ch : list error) :
  work_left {| goroutines := l1 ++ g :: l2; embeddings := emb; errorCh := ch |}
  = (work_left {| goroutines := l1; embeddings := emb; errorCh := ch |}
     + steps_left g
     + work_left {| goroutines := l2; embeddings := emb; errorCh := ch |})%nat.
Proof.
  unfold work_left. cbn [goroutines].
  induction l1 as [|a l1 IH]; cbn [app fold_right]; lia.
Qed.

Lemma work_left_step (l1 l2 : list goroutine) (g g' : goroutine)
  (emb emb' : list vector) (ch ch' : list error) :
  (steps_left g' < steps_left g)%nat ->
  (work_left {| goroutines := l1 ++ g' :: l2; embeddings := emb'; errorCh := ch' |}
   < work_left {| goroutines := l1 ++ g :: l2; embeddings := emb; errorCh := ch |})%nat.
Proof.
  intros Hlt. rewrite !work_left_split. unfold work_left. cbn [goroutines]. lia.
Qed.

(** A goroutine that is not done can move, and moving brings it closer
    to [wg.Done]: the channel has room for its error, its [copy] is in
    range. *)
Lemma progress (s : state) :
  GInv s ->
  Forall (fun i => call i <> Panic) (chunk_starts len bs) ->
  ~ all_done s ->
  exists s', step f input bs (Running s) (Running s') /\
             (work_left s' < work_left s)%nat.
Proof.
  intros Hinv Hnp Hnd. destruct s as [gs emb ch].
  destruct (done_or_split gs) as [Hd|(l1 & g & l2 & -> & Hg)]; [contradiction|].
  destruct Hinv as [Hst Hl Hpc Hrg Her]. cbn [goroutines embeddings errorCh] in *.
  destruct g as [i p]. cbn [g_pc] in Hg.
  destruct p as [|out err|out|]; [| | |contradiction].
  - (* Calling *)
    destruct (call i) as [out|err|] eqn:Hcall.
    + eexists. split; [apply step_call_ok, Hcall|]. apply work_left_step. cbn. lia.
    + eexists. split; [apply step_call_err, Hcall|]. apply work_left_step. cbn. lia.
    + exfalso. rewrite Forall_forall in Hnp. apply (Hnp i); [|exact Hcall].
      rewrite <- Hst. apply (in_map g_i _ {| g_i := i; g_pc := Calling |}), in_elt.
  - (* Sending *)
    eexists. split; [apply step_send|apply work_left_step; cbn; lia].
    apply Permutation_length in Her. rewrite Her, sent_errors_replace, !length_app.
    cbn [sent_errors flat_map g_pc length].
    pose proof (sent_errors_length l1). pose proof (sent_errors_length l2).
    assert (Hm : length (l1 ++ {| g_i := i; g_pc := Sending out err |} :: l2)
                 = chunk_count len bs).
    { rewrite <- (length_map g_i), Hst. unfold chunk_starts.
      rewrite length_map, length_seq. reflexivity. }
    rewrite length_app in Hm. cbn [length] in Hm.
    destruct (chunk_count_spec len bs) as (_ & _ & Hle); [lia|assumption|].
    cbn [app length]. lia.
  - (* Copying *)
    destruct (start_of_goroutine _ _ _ Hst) as (k & Hk & Hik). cbn [g_i] in Hik.
    assert (Hend : chunk_end len bs i = Z.min (i + bs) len).
    { rewrite Hik. apply chunk_end_min; assumption || lia. }
    assert (Hilt : i < len).
    { rewrite Hik. apply chunk_start_lt; assumption || lia. }
    assert (Hi0 : 0 <= i) by nia.
    destruct (copy_into_ok emb i (chunk_end len bs i) out) as (emb2 & Hc2 & _);
      [lia | lia |].
    eexists. split; [apply step_copy_ok, Hc2|]. apply work_left_step. cbn. lia.
Qed.

Lemma all_done_dec (s : state) : all_done s \/ ~ all_done s.
Proof.
  unfold all_done. destruct (done_or_split (goroutines s)) as [Hd|(l1 & g & l2 & E & Hg)].
  - left. exact Hd.
  - right. intros Hd. rewrite E in Hd. apply Forall_elt in Hd. contradiction.
Qed.

(** Whatever the goroutines have done so far, they can all finish. *)
Lemma run_to_end (n : nat) :
  forall s : state,
    (work_left s <= n)%nat -> GInv s ->
    Forall (fun i => call i <> Panic) (chunk_starts len bs) ->
    exists s', steps f input bs (Running s) (Running s') /\ all_done s'.
Proof.
  induction n as [|n IH]; intros s Hw Hinv Hnp.
  - destruct (all_done_dec s) as [Hd|Hd].
    + exists s. split; [apply steps_refl|exact Hd].
    + destruct (progress s Hinv Hnp Hd) as (s1 & _ & Hlt). lia.
  - destruct (all_done_dec s) as [Hd|Hd].
    + exists s. split; [apply steps_refl|exact Hd].
    + destruct (progress s Hinv Hnp Hd) as (s1 & Hstep & Hlt).
      pose proof (step_preserves s (Running s1) Hinv Hstep) as Hinv1.
      destruct (IH s1 ltac:(lia) Hinv1 Hnp) as (s' & Hsteps & Hd').
      exists s'. split; [|exact Hd'].
      eapply steps_cons; [exact Hstep|exact Hsteps].
Qed.

End Goroutines.

(* ---------------------------------------------------------------------- *)
(** ** Schedules are runs *)

Section ScheduleSoundness.
Context `{Platform} `{Runtime}.
Variable f : FlagEmbedding.
Variable input : list string.
Variable bs : Z.

Lemma nth_error_pick {A} (l : list A) (k : nat) (a : A) :
  nth_error l k = Some a -> l = firstn k l ++ a :: skipn (S k) l.
Proof.
  revert k. induction l as [|x l IH]; intros [|k] E; cbn in E; try discriminate.
  - injection E as ->. reflexivity.
  - cbn [firstn skipn app]. f_equal. apply IH, E.
Qed.

Lemma exec_step_sound (k : nat) (s : state) (c : config) :
  exec_step f input bs k s = Some c -> step f input bs (Running s) c.
Proof.
  unfold exec_step. destruct s as [gs emb ch]. cbn [goroutines embeddings errorCh].
  destruct (nth_error gs k) as [g|] eqn:Eg; [|discriminate].
  pose proof (nth_error_pick gs k g Eg) as Egs.
  set (l1 := firstn k gs) in *. set (l2 := skipn (S k) gs) in *. clearbody l1 l2.
  destruct g as [i p]. cbn [g_i g_pc]. subst gs.
  destruct p as [|out err|out|].
  - destruct (call_onnxEmbed f input bs i) eqn:Hcall; intros E; injection E as <-.
    + apply step_call_ok, Hcall.
    + apply step_call_err, Hcall.
    + apply step_call_panic, Hcall.
  - destruct (Nat.ltb_spec (length ch) (length input)); [|discriminate].
    intros E; injection E as <-. apply step_send. assumption.
  - destruct (copy_into emb i _ out) eqn:Hcopy; [| discriminate |];
      intros E; injection E as <-.
    + apply step_copy_ok, Hcopy.
    + apply step_copy_panic, Hcopy.
  - discriminate.
Qed.

Lemma run_schedule_sound (schedule : list nat) :
  forall c c' : config,
    run_schedule f input bs schedule c = Some c' -> steps f input bs c c'.
Proof.
  induction schedule as [|k rest IH]; intros c c' E; cbn [run_schedule] in E.
  - injection E as <-. apply steps_refl.
  - destruct c as [s|]; [|discriminate].
    destruct (exec_step f input bs k s) as [c1|] eqn:Ek; [|discriminate].
    eapply steps_cons; [apply (exec_step_sound _ _ _ Ek)|apply IH, E].
Qed.

End ScheduleSoundness.

Lemma Embed_under_sound `{Platform} `{Runtime} (f : FlagEmbedding)
  (schedule : list nat) (input : list string) (batchSize : Z)
  (r : result (list vector)) :
  Embed_under f schedule input batchSize = Some r ->
  Embed_returns f input batchSize r.
Proof.
  unfold Embed_under.
  destruct (Embed_start input batchSize) as [s0|] eqn:E0; [|discriminate].
  destruct (run_schedule f input _ schedule (Running s0)) as [[s|]|] eqn:Er;
    [| |discriminate].
  - destruct (forallb _ (goroutines s)) eqn:Ed; [|discriminate].
    intros E; injection E as <-. apply Embed_return.
    exists s0. split; [exact E0|]. split; [apply (run_schedule_sound _ _ _ _ _ _ Er)|].
    unfold all_done. rewrite forallb_forall in Ed. apply Forall_forall.
    intros g Hg. specialize (Ed g Hg). destruct (g_pc g); try discriminate. reflexivity.
  - intros E; injection E as <-. apply Embed_panic with s0; [exact E0|].
    apply (run_schedule_sound _ _ _ _ _ _ Er).
Qed.

(* ---------------------------------------------------------------------- *)
(** ** What [Embed] returns *)

Section EmbedResults.
Context `{Platform} `{Runtime}.
Variable f : FlagEmbedding.
Variable input : list string.
Variable batchSize : Z.
Hypothesis Hlen : 2 * Z.of_nat (length input) <= max_int.
Hypothesis Hbatch : batchSize <= max_int.

Lemma Embed_start_inv (s0 : state) :
  Embed_start input batchSize = Some s0 ->
  Inv f input (effective_batchSize batchSize) s0.
Proof.
  pose proof (effective_batchSize_range batchSize Hbatch) as Hbs.
  destruct (start_state f input (effective_batchSize batchSize) Hlen Hbs)
    as (s1 & Hspawn & -> & Hinv).
  unfold Embed_start. rewrite Hspawn. intros E; injection E as <-. exact Hinv.
Qed.

Lemma Embed_start_some : exists s0, Embed_start input batchSize = Some s0.
Proof.
  pose proof (effective_batchSize_range batchSize Hbatch) as Hbs.
  destruct (start_state f input (effective_batchSize batchSize) Hlen Hbs)
    as (s1 & Hspawn & -> & Hinv).
  unfold Embed_start. rewrite Hspawn. eexists. reflexivity.
Qed.

Lemma task_errors_starts :
  task_errors f input batchSize
  = errors_of f input (effective_batchSize batchSize)
      (chunk_starts (Z.of_nat (length input)) (effective_batchSize batchSize)).
Proof.
  pose proof (effective_batchSize_range batchSize Hbatch) as Hbs.
  unfold task_errors.
  rewrite spawn_loop_starts by (assumption || lia). reflexivity.
Qed.

(** The state at the barrier, whatever the schedule was. *)
Lemma Embed_final_facts (s : state) :
  Embed_final f input batchSize s ->
  Permutation (errorCh s) (task_errors f input batchSize) /\
  length (embeddings s) = length input /\
  forall p : nat, (p < length input)%nat ->
    nth p (embeddings s) [] = embedding_of f input batchSize (Z.of_nat p).
Proof.
  intros (s0 & Hstart & Hsteps & Hdone).
  pose proof (effective_batchSize_range batchSize Hbatch) as Hbs.
  pose proof (Embed_start_inv s0 Hstart) as Hinv0.
  pose proof (steps_preserve f input _ Hlen Hbs s0 (Running s) Hinv0 Hsteps) as Hinv.
  destruct (final_state f input _ Hbs s Hinv Hdone) as (Hperm & Hl & Hrows).
  rewrite task_errors_starts. split; [exact Hperm|]. split; [exact Hl|].
  intros p Hp. specialize (Hrows (Z.of_nat p) ltac:(lia)).
  rewrite Nat2Z.id in Hrows. exact Hrows.
Qed.

Lemma Embed_returns_Ok (r : list vector) :
  Embed_returns f input batchSize (Ok r) ->
  task_errors f input batchSize = [] /\
  length r = length input /\
  forall p : nat, (p < length input)%nat ->
    nth p r [] = embedding_of f input batchSize (Z.of_nat p).
Proof.
  intros Hret. inversion Hret as [s Hfinal Hfin|]; subst.
  destruct (Embed_final_facts s Hfinal) as (Hperm & Hl & Hrows).
  unfold Embed_finish in Hfin. destruct (errorCh s) as [|e ch]; [|discriminate].
  injection Hfin as <-.
  split; [|split; assumption].
  apply Permutation_nil. exact Hperm.
Qed.

Lemma Embed_returns_Fail (err : error) :
  Embed_returns f input batchSize (Fail err) ->
  In err (task_errors f input batchSize).
Proof.
  intros Hret. inversion Hret as [s Hfinal Hfin|]; subst.
  destruct (Embed_final_facts s Hfinal) as (Hperm & _).
  unfold Embed_finish in Hfin. destruct (errorCh s) as [|e ch]; [discriminate|].
  injection Hfin as ->.
  apply (Permutation_in _ Hperm). left. reflexivity.
Qed.

Lemma Embed_returns_exists :
  no_task_panics f input batchSize ->
  (exists r, Embed_returns f input batchSize r /\ r <> Panic) /\
  ~ Embed_returns f input batchSize Panic.
Proof.
  intros Hnp.
  pose proof (effective_batchSize_range batchSize Hbatch) as Hbs.
  assert (Hnp' : Forall (fun i => call_onnxEmbed f input (effective_batchSize batchSize) i
                                  <> Panic)
                   (chunk_starts (Z.of_nat (length input)) (effective_batchSize batchSize))).
  { apply Hnp. apply spawn_loop_starts; assumption || lia. }
  destruct Embed_start_some as (s0 & Hstart).
  pose proof (Embed_start_inv s0 Hstart) as Hinv0.
  split.
  - destruct (run_to_end f input _ Hlen Hbs (work_left s0) s0 (Nat.le_refl _) Hinv0 Hnp')
      as (s & Hsteps & Hdone).
    exists (Embed_finish s). split.
    + apply Embed_return. exists s0. repeat split; assumption.
    + unfold Embed_finish. destruct (errorCh s); discriminate.
  - intros Hret. inversion Hret as [s Hfinal Hfin|s1 Hstart1 Hcrash]; subst.
    + unfold Embed_finish in Hfin. destruct (errorCh s); discriminate.
    + rewrite Hstart in Hstart1. injection Hstart1 as <-.
      exact (steps_safe f input _ Hlen Hbs s0 Hinv0 Hnp' Hcrash).
Qed.

End EmbedResults.

(** Two returned sequences are equal: the schedule does not show. *)
Lemma Embed_deterministic `{Platform} `{Runtime} (f : FlagEmbedding)
  (input : list string) (batchSize : Z) (r1 r2 : list vector) :
  2 * Z.of_nat (length input) <= max_int ->
  batchSize <= max_int ->
  Embed_returns f input batchSize (Ok r1) ->
  Embed_returns f input batchSize (Ok r2) ->
  r1 = r2.
Proof.
  intros Hlen Hbatch H1 H2.
  destruct (Embed_returns_Ok f input batchSize Hlen Hbatch r1 H1) as (_ & Hl1 & Hr1).
  destruct (Embed_returns_Ok f input batchSize Hlen Hbatch r2 H2) as (_ & Hl2 & Hr2).
  apply (nth_ext r1 r2 [] []); [congruence|].
  intros p Hp. rewrite Hr1, Hr2 by lia. reflexivity.
Qed.

(** X12. When [onnxEmbed] treats every string of a batch on its own (on
    batches no longer than the input), neither the chunk size nor the
    schedule shows: whatever [batchSize] is, a returned sequence is the
    input mapped string by string. *)
Theorem Embed_rowwise `{Platform} `{Runtime} (f : FlagEmbedding)
  (input : list string) (batchSize : Z) (e : string -> vector) (r : list vector) :
  2 * Z.of_nat (length input) <= max_int ->
  batchSize <= max_int ->
  (forall xs, (length xs <= length input)%nat -> onnxEmbed f xs = Ok (map e xs)) ->
  Embed_returns f input batchSize (Ok r) ->
  r = map e input.
Proof.
  intros Hlen Hbatch Hrow Hret.
  destruct (Embed_returns_Ok f input batchSize Hlen Hbatch r Hret) as (_ & Hl & Hrows).
  pose proof (effective_batchSize_range batchSize Hbatch) as Hbs.
  apply (nth_ext r (map e input) [] (e EmptyString));
    [rewrite length_map; exact Hl|].
  intros p Hp. rewrite Hl in Hp. rewrite (Hrows p Hp), map_nth.
  unfold embedding_of. set (bs := effective_batchSize batchSize) in *.
  destruct (index_in_chunk (Z.of_nat (length input)) bs (Zle_0_nat _) Hbs
              (Z.of_nat p) ltac:(lia)) as (k & Hk & Hrange & Hdiv).
  rewrite Hdiv. unfold call_onnxEmbed.
  rewrite chunk_slice by (assumption || lia). cbn [bind].
  rewrite Hrow by (rewrite length_firstn, length_skipn; lia).
  assert (Hj : (Z.to_nat (Z.of_nat p - Z.of_nat k * bs) < Z.to_nat bs)%nat) by lia.
  rewrite (nth_indep _ [] (e EmptyString)).
  - rewrite map_nth. f_equal. rewrite nth_firstn.
    destruct (Nat.ltb_spec (Z.to_nat (Z.of_nat p - Z.of_nat k * bs)) (Z.to_nat bs));
      [|lia].
    rewrite nth_skipn. f_equal. lia.
  - rewrite length_map, length_firstn, length_skipn. lia.
Qed.

(** C5. [Embed] returns only after every goroutine has finished, and by
    then the channel holds the error of every failing chunk.  When some
    chunk fails, the call returns one of these errors and no sequence;
    when none fails, it returns the complete sequence and no error.
    Unless [onnxEmbed] panics, no schedule blocks or crashes: the call
    returns. *)
Theorem Embed_error_policy `{Platform} `{Runtime} (f : FlagEmbedding)
  (input : list string) (batchSize : Z) :
  2 * Z.of_nat (length input) <= max_int ->
  batchSize <= max_int ->
  (forall s, Embed_final f input batchSize s ->
     all_done s /\ Permutation (errorCh s) (task_errors f input batchSize)) /\
  (forall r, Embed_returns f input batchSize r -> r <> Panic ->
     (task_errors f input batchSize <> [] ->
        exists err, r = Fail err /\ In err (task_errors f input batchSize)) /\
     (task_errors f input batchSize = [] ->
        exists embs, r = Ok embs /\ length embs = length input /\
          forall p : nat, (p < length input)%nat ->
            nth p embs [] = embedding_of f input batchSize (Z.of_nat p))) /\
  (no_task_panics f input batchSize ->
     (exists r, Embed_returns f input batchSize r /\ r <> Panic) /\
     ~ Embed_returns f input batchSize Panic).
Proof.
  intros Hlen Hbatch. split; [|split].
  - intros s Hfinal. split.
    + destruct Hfinal as (s0 & _ & _ & Hdone). exact Hdone.
    + apply (Embed_final_facts f input batchSize Hlen Hbatch s Hfinal).
  - intros r Hret Hnp. destruct r as [embs|err|]; [| |contradiction].
    + destruct (Embed_returns_Ok f input batchSize Hlen Hbatch embs Hret)
        as (Hnone & Hl & Hrows).
      split; [intros Hsome; contradiction|].
      intros _. exists embs. repeat split; assumption.
    + pose proof (Embed_returns_Fail f input batchSize Hlen Hbatch err Hret) as Hin.
      split.
      * intros _. exists err. split; [reflexivity|exact Hin].
      * intros Hnone. rewrite Hnone in Hin. contradiction.
  - apply (Embed_returns_exists f input batchSize Hlen Hbatch).
Qed.

Lemma Embed_error_policy_witness :
  exists r,
    @Embed_returns sample_world sample_runtime sample_embedder failing_input 2 r /\
    exists err, r = Fail err /\
                In err ["tokenizer: !x"; "tokenizer: !y"]%string.
Proof.
  assert (Hlen : 2 * Z.of_nat (length failing_input) <= max_int)
    by (unfold max_int; simpl; lia).
  assert (Hbatch : 2 <= max_int) by (unfold max_int; lia).
  destruct (@Embed_error_policy sample_world sample_runtime sample_embedder
              failing_input 2 Hlen Hbatch) as (_ & Hpolicy & Hreturns).
  assert (Hnp : @no_task_panics sample_world sample_runtime sample_embedder
                  failing_input 2).
  { unfold no_task_panics. cbv zeta. intros starts Hspawn.
    vm_compute in Hspawn. injection Hspawn as <-.
    repeat constructor; vm_compute; discriminate. }
  destruct (Hreturns Hnp) as [(r & Hret & Hr) _].
  exists r. split; [exact Hret|].
  destruct (Hpolicy r Hret Hr) as [Hsome _].
  apply Hsome. vm_compute. discriminate.
Defined.

(** Which of the recorded errors is returned depends on the schedule. *)
Example Embed_error_depends_on_schedule :
  @Embed_under sample_world sample_runtime sample_embedder
     [0; 0; 0; 1; 1; 1]%nat failing_input 2 = Some (Fail "tokenizer: !x"%string) /\
  @Embed_under sample_world sample_runtime sample_embedder
     [1; 1; 0; 0; 0; 1]%nat failing_input 2 = Some (Fail "tokenizer: !y"%string).
Proof. split; vm_compute; reflexivity. Qed.

(* ====================================================================== *)
(** * [QueryEmbed] and [PassageEmbed] *)

Section FacadeFacts.
Context `{Platform} `{Runtime}.
Variable f : FlagEmbedding.

(** [onnxEmbed] returns one vector per input string. *)
Lemma onnxEmbed_length (input : list string) (data : list vector) :
  onnxEmbed f input = Ok data -> length data = length input.
Proof.
  unfold onnxEmbed.
  destruct (tokenizer_EncodeBatch f input) as [encodings| |]; cbn [bind]; try discriminate.
  destruct (flatten_encodings encodings ([], [], [])) as [[[ids mask] types]| |];
    cbn [bind]; try discriminate.
  destruct (ort_run _ _ ids mask types) as [raw| |]; cbn [bind]; try discriminate.
  intros E. apply getEmbeddings_length in E. rewrite E. apply Nat2Z.id.
Qed.

Lemma PassageEmbed_loop_map (input : list string) :
  forall (i : nat) (processedInput : list string),
    length processedInput = (i + length input)%nat ->
    PassageEmbed_loop input i processedInput
    = Ok (firstn i processedInput ++ map (fun v => "passage: " ++ v)%string input).
Proof.
  induction input as [|v rest IH]; intros i processed Hl; cbn [PassageEmbed_loop map].
  - cbn [length] in Hl. rewrite app_nil_r, firstn_all2 by lia. reflexivity.
  - cbn [length] in Hl. unfold store.
    destruct (Nat.ltb_spec i (length processed)); [|lia]. cbn [bind].
    assert (Hi : length (firstn i processed) = i) by (rewrite length_firstn; lia).
    rewrite IH.
    + f_equal.
      replace (S i) with (length (firstn i processed) + 1)%nat by lia.
      rewrite firstn_app_2. cbn [firstn]. rewrite <- app_assoc. reflexivity.
    + rewrite length_app, Hi. cbn [length]. rewrite length_skipn. lia.
Qed.

Lemma PassageEmbed_processedInput_map (input : list string) :
  PassageEmbed_processedInput input
  = Ok (map (fun v => "passage: " ++ v)%string input).
Proof.
  unfold PassageEmbed_processedInput.
  rewrite PassageEmbed_loop_map by (rewrite repeat_length; reflexivity).
  reflexivity.
Qed.

End FacadeFacts.

(** C8. [QueryEmbed] passes the one string ["query: " ++ input] to
    [onnxEmbed], a batch of one, and returns the one vector of the
    answer, or its error.  [PassageEmbed] builds the list of the strings
    ["passage: " ++ v] for the [v] of the input, in order, and returns
    what [Embed] returns on it with the same [batchSize]. *)
Theorem facade_prefixes `{Platform} `{Runtime} (f : FlagEmbedding)
  (text : string) (input : list string) (batchSize : Z) :
  (forall v, QueryEmbed f text = Ok v <->
             onnxEmbed f [("query: " ++ text)%string] = Ok [v]) /\
  (forall err, QueryEmbed f text = Fail err <->
               onnxEmbed f [("query: " ++ text)%string] = Fail err) /\
  PassageEmbed_processedInput input
  = Ok (map (fun v => ("passage: " ++ v)%string) input) /\
  (forall r, PassageEmbed_returns f input batchSize r <->
             Embed_returns f (map (fun v => ("passage: " ++ v)%string) input)
                           batchSize r).
Proof.
  split; [|split; [|split]].
  - intros v. unfold QueryEmbed.
    destruct (onnxEmbed f [("query: " ++ text)%string]) as [data| |] eqn:E;
      cbn [bind].
    + apply onnxEmbed_length in E. cbn [length] in E.
      destruct data as [|v0 [|v1 data]]; try discriminate.
      cbn [index0]. split; intros Hv; injection Hv as ->; reflexivity.
    + split; discriminate.
    + split; discriminate.
  - intros err. unfold QueryEmbed.
    destruct (onnxEmbed f [("query: " ++ text)%string]) as [data| |] eqn:E;
      cbn [bind].
    + apply onnxEmbed_length in E. cbn [length] in E.
      destruct data as [|v0 [|v1 data]]; try discriminate.
      cbn [index0]. split; discriminate.
    + split; intros He; injection He as ->; reflexivity.
    + split; discriminate.
  - apply PassageEmbed_processedInput_map.
  - intros r. unfold PassageEmbed_returns.
    rewrite PassageEmbed_processedInput_map. reflexivity.
Qed.

(* ====================================================================== *)
(** * The model cache *)

Section ArtifactStoreFacts.
Context `{Platform}.
Variables model cacheDir : string.

Abbreviation path := (filepath_Join cacheDir model).

(** A hit: only [os.Stat] on the one path is consulted. *)
Lemma retrieveModel_hit (show : bool) (w : World) :
  errors_Is_ErrNotExist (os_Stat path (fs w)) = false ->
  retrieveModel model cacheDir show w = (Ok path, w).
Proof.
  intros Hstat. unfold retrieveModel. rewrite Hstat. reflexivity.
Qed.

Lemma retrieveModel_miss (show : bool) (w : World) :
  os_Stat path (fs w) = Some ENOENT ->
  retrieveModel model cacheDir show w = downloadFromGcs model cacheDir show w.
Proof.
  intros Hstat. unfold retrieveModel. rewrite Hstat. reflexivity.
Qed.

Lemma stat_cases (o : option errno) :
  errors_Is_ErrNotExist o = false \/ o = Some ENOENT.
Proof.
  destruct o as [[| | |]|]; auto.
Qed.

Lemma untar_trace (tarball : body) (target : string) (w : World) :
  trace (snd (untar tarball target w)) = trace w ++ [EvUntar target].
Proof.
  unfold untar. destruct tarball as [err|entries]; [reflexivity|].
  cbn [fs trace]. destruct (untar_loop entries target (fs w)). reflexivity.
Qed.

Lemma network_calls_app (t1 t2 : list event) :
  network_calls (t1 ++ t2) = network_calls t1 ++ network_calls t2.
Proof. apply flat_map_app. Qed.

(** One download is one GET. *)
Lemma downloadFromGcs_network (show : bool) (w : World) :
  network_calls (trace (snd (downloadFromGcs model cacheDir show w)))
  = network_calls (trace w) ++ [downloadURL model].
Proof.
  unfold downloadFromGcs.
  destruct (http_Get (trace w) (downloadURL model)) as [response|err|];
    cbn [snd trace]; try (rewrite network_calls_app; reflexivity).
  destruct ((StatusCode response <? 200) || (StatusCode response >? 299));
    cbn [snd trace]; [rewrite network_calls_app; reflexivity|].
  unfold progressbar_NewReader.
  assert (Hu : forall b w1 (u := untar b cacheDir w1),
            network_calls (trace (snd (let (err, w2) := u in
                                       match err with
                                       | Some e => (Fail e, w2)
                                       | None => (Ok path, w2)
                                       end)))
            = network_calls (trace w1)).
  { intros b w1 u. pose proof (untar_trace b cacheDir w1) as Ht. fold u in Ht.
    destruct u as [[e|] w2]; cbn [snd] in *; rewrite Ht, network_calls_app;
      cbn; apply app_nil_r. }
  destruct show; rewrite Hu; cbn [trace]; rewrite network_calls_app; reflexivity.
Qed.

Lemma retrieveModel_network (show : bool) (w : World) :
  network_calls (trace (snd (retrieveModel model cacheDir show w)))
  = network_calls (trace w) \/
  network_calls (trace (snd (retrieveModel model cacheDir show w)))
  = network_calls (trace w) ++ [downloadURL model].
Proof.
  destruct (stat_cases (os_Stat path (fs w))) as [Hhit|Hmiss].
  - left. rewrite retrieveModel_hit by exact Hhit. reflexivity.
  - right. rewrite retrieveModel_miss by exact Hmiss. apply downloadFromGcs_network.
Qed.

Lemma retrieveModel_path (show : bool) (w : World) (p : string) :
  fst (retrieveModel model cacheDir show w) = Ok p -> p = path.
Proof.
  destruct (stat_cases (os_Stat path (fs w))) as [Hhit|Hmiss].
  - rewrite retrieveModel_hit by exact Hhit. cbn. congruence.
  - rewrite retrieveModel_miss by exact Hmiss. unfold downloadFromGcs.
    destruct (http_Get (trace w) (downloadURL model)) as [response|err|];
      cbn [fst]; try discriminate.
    destruct ((StatusCode response <? 200) || (StatusCode response >? 299));
      cbn [fst]; [discriminate|].
    destruct show;
      match goal with
      | |- context [untar ?b ?t ?w1] => destruct (untar b t w1) as [[e|] w2]
      end; cbn [fst]; congruence.
Qed.

End ArtifactStoreFacts.

(** C6, as stated, fails: two resolutions of the same model with the same
    cache directory can perform two GETs.  With a server that answers 404
    both resolutions go to the network and both fail.  With a server that
    answers 200 and an archive without entries the first resolution
    returns the path, nothing is created under it, and the second
    resolution goes to the network again. *)
Lemma cache_idempotence_counterexample :
  (let '(r1, r2, w2) := retrieve_twice "m" "cache" (cold_world server_404) in
   r1 = Fail "model download failed: 404 Not Found"%string /\
   r2 = Fail "model download failed: 404 Not Found"%string /\
   network_calls (trace w2) = [downloadURL "m"; downloadURL "m"]) /\
  (let '(r1, r2, w2) := retrieve_twice "m" "cache" (cold_world (server_200 [])) in
   r1 = Ok "cache/m"%string /\ r2 = Ok "cache/m"%string /\
   network_calls (trace w2) = [downloadURL "m"; downloadURL "m"]).
Proof. split; vm_compute; repeat split; reflexivity. Qed.

(** C6, as amended.  When [cacheDir/model] exists, [retrieveModel]
    returns that path at once: the world is unchanged, so there is no
    network I/O, and nothing but the existence of the path is examined.
    Hence, when the first of two resolutions leaves [cacheDir/model] in
    existence, the second returns the same path without a network call,
    and the two together perform at most one GET. *)
Theorem cache_hit_idempotent `{Platform} (model cacheDir : string)
  (show show' : bool) (w : World) :
  (os_Stat (filepath_Join cacheDir model) (fs w) = None ->
   retrieveModel model cacheDir show w = (Ok (filepath_Join cacheDir model), w)) /\
  (forall r1 w1,
     retrieveModel model cacheDir show w = (r1, w1) ->
     os_Stat (filepath_Join cacheDir model) (fs w1) = None ->
     retrieveModel model cacheDir show' w1 = (Ok (filepath_Join cacheDir model), w1) /\
     (forall p, r1 = Ok p -> p = filepath_Join cacheDir model) /\
     (length (network_calls (trace w1)) <= S (length (network_calls (trace w))))%nat).
Proof.
  split.
  - intros Hstat. apply retrieveModel_hit. rewrite Hstat. reflexivity.
  - intros r1 w1 E1 Hstat. split; [|split].
    + apply retrieveModel_hit. rewrite Hstat. reflexivity.
    + intros p ->. apply (retrieveModel_path model cacheDir show w).
      rewrite E1. reflexivity.
    + pose proof (retrieveModel_network model cacheDir show w) as Hn.
      rewrite E1 in Hn. cbn [snd] in Hn.
      destruct Hn as [-> | ->]; [lia|]. rewrite length_app. cbn [length]. lia.
Qed.

Lemma cache_hit_idempotent_witness :
  let '(r1, r2, w2) :=
    retrieve_twice "m" "cache" (cold_world (server_200 model_archive)) in
  r1 = Ok "cache/m"%string /\ r2 = Ok "cache/m"%string /\
  network_calls (trace w2) = [downloadURL "m"].
Proof.
  unfold retrieve_twice.
  destruct (retrieveModel "m" "cache" true (cold_world (server_200 model_archive)))
    as [r1 w1] eqn:E1.
  destruct (@cache_hit_idempotent (sample_platform (server_200 model_archive))
              "m" "cache" true true (cold_world (server_200 model_archive)))
    as [_ Hsecond].
  assert (Hex : @os_Stat (sample_platform (server_200 model_archive))
                  (@filepath_Join (sample_platform (server_200 model_archive))
                     "cache" "m") (fs w1) = None).
  { vm_compute in E1. injection E1 as <- <-. reflexivity. }
  destruct (Hsecond r1 w1 E1 Hex) as (E2 & Hp & _).
  rewrite E2.
  vm_compute in E1. injection E1 as <- <-.
  repeat split; reflexivity.
Defined.

(** C7. On a cache miss, when the GET is answered with a status below
    200 or above 299, [retrieveModel] fails with the error
    ["model download failed: " ++ Status]; the GET is the only I/O, no
    extraction is started and the file system is unchanged. *)
Theorem download_rejects_non_2xx `{Platform} (model cacheDir : string)
  (show : bool) (w : World) (response : Response) :
  os_Stat (filepath_Join cacheDir model) (fs w) = Some ENOENT ->
  http_Get (trace w) (downloadURL model) = Ok response ->
  StatusCode response < 200 \/ 299 < StatusCode response ->
  exists w',
    retrieveModel model cacheDir show w
    = (Fail ("model download failed: " ++ Status response)%string, w') /\
    fs w' = fs w /\
    trace w' = trace w ++ [EvGet (downloadURL model)] /\
    extractions (trace w') = extractions (trace w).
Proof.
  intros Hstat Hget Hcode.
  rewrite retrieveModel_miss by exact Hstat.
  unfold downloadFromGcs. rewrite Hget.
  replace ((StatusCode response <? 200) || (StatusCode response >? 299)) with true.
  - eexists. split; [reflexivity|]. cbn [fs trace]. repeat split.
    unfold extractions. rewrite flat_map_app. cbn. apply app_nil_r.
  - symmetry. apply orb_true_iff.
    destruct Hcode; [left; apply Z.ltb_lt|right; apply Z.gtb_lt]; assumption.
Qed.

Lemma download_rejects_non_2xx_witness :
  exists w',
    retrieveModel "m" "cache" true (cold_world server_404)
    = (Fail "model download failed: 404 Not Found"%string, w') /\
    extractions (trace w') = [].
Proof.
  destruct (@download_rejects_non_2xx (sample_platform server_404) "m" "cache" true
              (cold_world server_404)
              {| StatusCode := 404; Status := "404 Not Found"%string;
                 ContentLength := 0; Body := NotGzip "unexpected EOF"%string |})
    as (w' & E & _ & _ & Hx).
  - reflexivity.
  - reflexivity.
  - right. cbn. lia.
  - exists w'. split; [exact E | exact Hx].
Defined.

(** C10. Whatever [os.Stat] on [cacheDir/model] answers, unless it is a
    not-exist error, [retrieveModel] returns the path and a nil error and
    leaves the world as it was: a failure of [os.Stat] for another reason
    (permission denied, say) is not reported and nothing is downloaded. *)
Theorem stat_failure_is_cache_hit `{Platform} (model cacheDir : string)
  (show : bool) (w : World) (outcome : option errno) :
  os_Stat (filepath_Join cacheDir model) (fs w) = outcome ->
  outcome <> Some ENOENT ->
  retrieveModel model cacheDir show w = (Ok (filepath_Join cacheDir model), w) /\
  network_calls (trace (snd (retrieveModel model cacheDir show w)))
  = network_calls (trace w).
Proof.
  intros Hstat Hne.
  assert (E : retrieveModel model cacheDir show w
              = (Ok (filepath_Join cacheDir model), w)).
  { apply retrieveModel_hit. rewrite Hstat.
    destruct outcome as [[| | |]|]; try reflexivity. contradiction. }
  split; [exact E|]. rewrite E. reflexivity.
Qed.

Lemma stat_failure_is_cache_hit_witness :
  @os_Stat sample_world "cache/m" (fs locked_world) = Some EACCES /\
  retrieveModel "m" "cache" true locked_world = (Ok "cache/m"%string, locked_world).
Proof.
  split; [reflexivity|].
  apply (@stat_failure_is_cache_hit sample_world "m" "cache" true locked_world
           (Some EACCES)).
  - reflexivity.
  - discriminate.
Defined.

(* ====================================================================== *)
(** * Further properties of [normalize] on binary32 *)

Lemma add_nan_r (x : Float32.float32) : Float32.add x Float32.nan = Float32.nan.
Proof. destruct x; reflexivity. Qed.

Lemma div_nan_r (x : Float32.float32) : Float32.div x Float32.nan = Float32.nan.
Proof. destruct x; reflexivity. Qed.

Lemma sum_squares_from_nan (v : vector) :
  fold_left (fun norm val => Float32.add norm (Float32.mul val val)) v Float32.nan
  = Float32.nan.
Proof.
  induction v as [|x v IH]; [reflexivity|]. cbn [fold_left]. exact IH.
Qed.

Lemma sum_squares_nan (v : vector) :
  In Float32.nan v -> sum_squares v = Float32.nan.
Proof.
  unfold sum_squares. cbn [fzero fadd fmul float32_arith].
  generalize Float32.zero. induction v as [|x v IH]; intros acc Hin; [contradiction|].
  cbn [fold_left]. destruct Hin as [->|Hin].
  - change (Float32.mul Float32.nan Float32.nan) with Float32.nan.
    rewrite add_nan_r. apply sum_squares_from_nan.
  - apply IH, Hin.
Qed.

(** X1. One NaN among the hidden states of a token makes every element of
    its embedding NaN: the sum of squares, the norm and every quotient
    are NaN. *)
Theorem normalize_nan_poisons (v : vector) :
  In Float32.nan v ->
  norm_of v = Float32.nan /\
  normalize v = repeat Float32.nan (length v).
Proof.
  intros Hin.
  assert (Hn : norm_of v = Float32.nan).
  { unfold norm_of. rewrite (sum_squares_nan v Hin). reflexivity. }
  split; [exact Hn|].
  unfold normalize. rewrite Hn. cbn [fadd fdiv fepsilon float32_arith].
  clear. induction v as [|x v IH]; [reflexivity|].
  cbn [map length repeat]. rewrite div_nan_r, IH. reflexivity.
Qed.

Lemma normalize_nan_poisons_witness :
  normalize [Float32.of_Z 3; Float32.nan; Float32.of_Z 4]
  = [Float32.nan; Float32.nan; Float32.nan].
Proof.
  apply (normalize_nan_poisons [Float32.of_Z 3; Float32.nan; Float32.of_Z 4]).
  right. left. reflexivity.
Defined.

(** X2. When the sum of squares overflows to +Inf, the norm is +Inf and
    the direction of the vector is lost: every zero or finite element is
    returned as exactly [epsilon], every infinite element as NaN. *)
Theorem normalize_overflow (v : vector) :
  sum_squares v = S754_infinity false ->
  norm_of v = S754_infinity false /\
  normalize v
  = map (fun val => if Float32.is_finite val then Float32.epsilon else Float32.nan) v.
Proof.
  intros Hs.
  assert (Hn : norm_of v = S754_infinity false).
  { unfold norm_of. rewrite Hs. reflexivity. }
  split; [exact Hn|].
  unfold normalize. rewrite Hn. cbn [fadd fdiv fepsilon float32_arith].
  apply map_ext. intros val.
  destruct val as [s|s| |s m e]; try reflexivity; destruct s; reflexivity.
Qed.

Lemma normalize_overflow_witness :
  normalize [Float32.pow2 100; Float32.of_Z (-3); Float32.zero]
  = [Float32.epsilon; Float32.epsilon; Float32.epsilon].
Proof.
  apply (normalize_overflow [Float32.pow2 100; Float32.of_Z (-3); Float32.zero]).
  vm_compute. reflexivity.
Defined.

(** X3. When the norm is +0, which happens when every square underflows,
    nothing guards the division: a non-zero element is returned as the
    infinity of its sign, a zero element as NaN. *)
Theorem normalize_zero_norm (v : vector) :
  norm_of v = Float32.zero ->
  normalize v
  = map (fun val => match val with
                    | S754_zero _ | S754_nan => Float32.nan
                    | S754_infinity s | S754_finite s _ _ => S754_infinity s
                    end) v.
Proof.
  intros Hn. unfold normalize. rewrite Hn.
  cbn [fadd fdiv fepsilon float32_arith].
  apply map_ext. intros val.
  destruct val as [s|s| |s m e]; try reflexivity; destruct s; reflexivity.
Qed.

Lemma normalize_zero_norm_witness :
  normalize [Float32.pow2 (-100); Float32.zero;
             SFopp (Float32.pow2 (-90))]
  = [S754_infinity false; Float32.nan; S754_infinity true].
Proof.
  apply (normalize_zero_norm [Float32.pow2 (-100); Float32.zero;
                              SFopp (Float32.pow2 (-90))]).
  vm_compute. reflexivity.
Defined.

(* ====================================================================== *)
(** * Further properties of [getEmbeddings] *)

Section GetEmbeddingsBounds.
Context {F : Type} `{Arith F}.
Variable data : list F.
Variables x y z : Z.
Hypothesis Hx : 0 < x <= max_int.
Hypothesis Hy : 0 <= y.
Hypothesis Hz : 0 <= z.
Hypothesis Hmax : Z.of_nat (length data) <= max_int.
Hypothesis Hno_wrap : (x - 1) * y * z + z <= max_int.

Lemma row_index_no_wrap (i : Z) :
  0 <= i < x ->
  int_wrap (int_wrap (i * y) * z) = i * y * z /\
  int_wrap (i * y * z + z) = i * y * z + z /\
  0 <= i * y * z /\ i * y * z + z <= (x - 1) * y * z + z.
Proof.
  intros Hi.
  assert (H0 : 0 <= i * y) by nia.
  assert (H1 : 0 <= i * y * z) by nia.
  assert (H2 : i * y * z <= (x - 1) * y * z).
  { assert (i * y <= (x - 1) * y) by nia. nia. }
  split; [|split; [|split]]; try lia.
  - destruct (Z.eq_dec z 0) as [->|Hz0].
    + rewrite !Z.mul_0_r. reflexivity.
    + assert (i * y <= i * y * z) by nia.
      rewrite (int_wrap_id (i * y)) by (unfold max_int in *; lia).
      apply int_wrap_id. unfold max_int in *. lia.
  - apply int_wrap_id. unfold max_int in *. lia.
Qed.

Lemma getEmbeddings_loop_in_bounds :
  (x - 1) * y * z + z <= Z.of_nat (length data) ->
  forall (n : nat) (i : Z),
    0 <= i -> i + Z.of_nat n <= x ->
    getEmbeddings_loop data y z n i =
    Ok (map (fun k => normalize (first_token_slice data y z (i + Z.of_nat k)))
            (seq 0 n)).
Proof.
  intros Hfit n. induction n as [|n IH]; intros i Hi Hin; [reflexivity|].
  cbn [getEmbeddings_loop].
  destruct (row_index_no_wrap i ltac:(lia)) as (Hs & He & H0 & Hle).
  rewrite Hs, He, slice_ok by lia. cbn [bind].
  rewrite (int_wrap_id (i + 1)) by (unfold max_int in *; lia).
  rewrite IH by lia. cbn [bind]. f_equal.
  change (seq 0 (S n)) with (0%nat :: seq 1 n).
  rewrite <- seq_shift. cbn [map]. rewrite map_map. f_equal.
  - unfold first_token_slice.
    replace (i * y * z + z - i * y * z) with z by lia.
    replace (i + Z.of_nat 0) with i by lia. reflexivity.
  - apply map_ext. intros k.
    replace (i + 1 + Z.of_nat k) with (i + Z.of_nat (S k)) by lia.
    reflexivity.
Qed.

Lemma getEmbeddings_loop_out_of_bounds :
  Z.of_nat (length data) < (x - 1) * y * z + z ->
  forall (n : nat) (i : Z),
    0 <= i -> i + Z.of_nat n = x -> (0 < n)%nat ->
    getEmbeddings_loop data y z n i = Panic.
Proof.
  intros Hshort n. induction n as [|n IH]; intros i Hi Hin Hn; [lia|].
  cbn [getEmbeddings_loop].
  destruct n as [|n].
  - assert (i = x - 1) by lia. subst i.
    destruct (row_index_no_wrap (x - 1) ltac:(lia)) as (Hs & He & H0 & _).
    rewrite Hs, He. unfold slice.
    destruct (Z.leb_spec ((x - 1) * y * z + z) (Z.of_nat (length data))); [lia|].
    rewrite andb_false_r. reflexivity.
  - rewrite (int_wrap_id (i + 1)) by (unfold max_int in *; lia).
    rewrite (IH (i + 1)) by lia.
    unfold slice. destruct (_ && _); reflexivity.
Qed.

End GetEmbeddingsBounds.

(** X4. [getEmbeddings] returns exactly when the first-token slice of the
    last input lies within the buffer, [(x-1)*y*z + z <= len(data)], and
    panics with a slice bound out of range otherwise; it never returns
    fewer rows or a shorter row. *)
Theorem getEmbeddings_bounds (data : vector) (x y z : Z) :
  0 < x <= max_int -> 0 <= y -> 0 <= z ->
  Z.of_nat (length data) <= max_int ->
  (x - 1) * y * z + z <= max_int ->
  ((x - 1) * y * z + z <= Z.of_nat (length data) ->
   exists embs, getEmbeddings data [x; y; z] = Ok embs /\
                length embs = Z.to_nat x /\
                Forall (fun row => Z.of_nat (length row) = z) embs) /\
  (Z.of_nat (length data) < (x - 1) * y * z + z ->
   getEmbeddings data [x; y; z] = Panic).
Proof.
  intros Hx Hy Hz Hmax Hnw. split.
  - intros Hfit. eexists. split; [|split].
    + unfold getEmbeddings. destruct (Z.ltb_spec x 0); [lia|].
      apply getEmbeddings_loop_in_bounds with (x := x); assumption || lia.
    + rewrite length_map, length_seq. reflexivity.
    + apply Forall_forall. intros row Hrow. apply in_map_iff in Hrow.
      destruct Hrow as (k & <- & Hk). apply in_seq in Hk.
      unfold normalize. rewrite length_map. unfold first_token_slice.
      rewrite length_firstn, length_skipn.
      assert (0 <= Z.of_nat k * y) by nia.
      assert (0 <= Z.of_nat k * y * z) by nia.
      assert (Z.of_nat k * y * z <= (x - 1) * y * z).
      { assert (Z.of_nat k * y <= (x - 1) * y) by nia. nia. }
      replace (0 + Z.of_nat k) with (Z.of_nat k) by lia. lia.
  - intros Hshort. unfold getEmbeddings. destruct (Z.ltb_spec x 0); [lia|].
    apply getEmbeddings_loop_out_of_bounds with (x := x); assumption || lia.
Qed.

Lemma getEmbeddings_bounds_witness :
  (exists embs : list vector,
     getEmbeddings [Float32.of_Z 3; Float32.of_Z 4; Float32.of_Z 5] [2; 1; 1] = Ok embs /\
     length embs = 2%nat) /\
  getEmbeddings [Float32.of_Z 3; Float32.of_Z 4; Float32.of_Z 5] [2; 2; 2]
  = @Panic (list vector).
Proof.
  split.
  - destruct (getEmbeddings_bounds
                [Float32.of_Z 3; Float32.of_Z 4; Float32.of_Z 5] 2 1 1)
      as [Hfit _]; try (unfold max_int; simpl; lia).
    destruct Hfit as (embs & He & Hl & _); [simpl; lia|].
    exists embs. split; [exact He | exact Hl].
  - destruct (getEmbeddings_bounds
                [Float32.of_Z 3; Float32.of_Z 4; Float32.of_Z 5] 2 2 2)
      as [_ Hshort]; try (unfold max_int; simpl; lia).
    apply Hshort. simpl. lia.
Defined.

(** X5. Only the first token counts: two buffers of the same shape that
    agree on the first-token slice of every input give the same
    embeddings, whatever the hidden states of the other tokens are. *)
Theorem getEmbeddings_ignores_other_tokens (data data' : vector) (x y z : Z) :
  0 < x <= max_int -> 0 < y -> 0 <= z ->
  Z.of_nat (length data) = x * y * z ->
  Z.of_nat (length data') = x * y * z ->
  x * y * z <= max_int ->
  (forall i, 0 <= i < x ->
     first_token_slice data y z i = first_token_slice data' y z i) ->
  getEmbeddings data [x; y; z] = getEmbeddings data' [x; y; z].
Proof.
  intros Hx Hy Hz Hl Hl' Hmax Hagree.
  unfold getEmbeddings. destruct (Z.ltb_spec x 0); [lia|].
  assert (Hfit : (x - 1) * y * z + z <= x * y * z).
  { assert (z <= y * z) by nia. nia. }
  rewrite (getEmbeddings_loop_in_bounds data x y z) by (assumption || lia).
  rewrite (getEmbeddings_loop_in_bounds data' x y z) by (assumption || lia).
  f_equal. apply map_ext_in. intros k Hk. apply in_seq in Hk.
  rewrite Hagree by lia. reflexivity.
Qed.

Lemma getEmbeddings_ignores_other_tokens_witness :
  getEmbeddings [Float32.of_Z 3; Float32.of_Z 4; Float32.of_Z 7; Float32.of_Z 7] [1; 2; 2]
  = getEmbeddings [Float32.of_Z 3; Float32.of_Z 4; Float32.of_Z 0; Float32.nan] [1; 2; 2].
Proof.
  apply getEmbeddings_ignores_other_tokens;
    try (unfold max_int; simpl; lia); try reflexivity.
  intros i Hi. assert (i = 0) by lia. subst i. reflexivity.
Defined.

(* ====================================================================== *)
(** * [encodingToInt32] and the tensors of [onnxEmbed] *)

Lemma store_ok {A} (s : list A) (i : nat) (x : A) :
  (i < length s)%nat -> store s i x = Ok (firstn i s ++ x :: skipn (S i) s).
Proof.
  intros Hi. unfold store. destruct (Nat.ltb_spec i (length s)); [reflexivity|lia].
Qed.

Lemma skipn_cons_nth_error {A} (s : list A) (i : nat) (a : A) :
  nth_error s i = Some a -> skipn i s = a :: skipn (S i) s.
Proof.
  revert i. induction s as [|x s IH]; intros [|i] E; cbn in E; try discriminate.
  - injection E as ->. reflexivity.
  - cbn [skipn]. apply IH, E.
Qed.

Lemma skipn_repeat_n {A} (a : A) (n k : nat) :
  skipn k (repeat a n) = repeat a (n - k).
Proof.
  revert k. induction n as [|n IH]; intros [|k]; cbn; try reflexivity. apply IH.
Qed.

Lemma updated_prefix {A} (s : list A) (i : nat) (x : A) (t : list A) :
  (i <= length s)%nat ->
  firstn (S i) (firstn i s ++ x :: t) = firstn i s ++ [x].
Proof.
  intros Hi.
  assert (Hl : length (firstn i s) = i) by (rewrite length_firstn; lia).
  rewrite firstn_app, Hl, firstn_all2 by lia.
  replace (S i - i)%nat with 1%nat by lia. reflexivity.
Qed.

Lemma updated_suffix {A} (s : list A) (i k : nat) (x : A) :
  (i < length s)%nat ->
  skipn (S i + k) (firstn i s ++ x :: skipn (S i) s) = skipn (S i + k) s.
Proof.
  intros Hi.
  assert (Hl : length (firstn i s) = i) by (rewrite length_firstn; lia).
  rewrite skipn_app, Hl, skipn_all2 by lia.
  replace (S i + k - i)%nat with (S k) by lia.
  change (skipn (S k) (x :: skipn (S i) s)) with (skipn k (skipn (S i) s)).
  cbn [app]. rewrite skipn_skipn. f_equal. lia.
Qed.

Lemma encodingToInt32_loop_closed (inputA inputB inputC : list Z) :
  forall (n i : nat) (outputA outputB outputC : list Z),
    (i + n = length inputA)%nat ->
    length outputA = length inputA ->
    length outputB = length inputB ->
    length outputC = length inputC ->
    (i <= length inputB)%nat -> (i <= length inputC)%nat ->
    encodingToInt32_loop n i inputA inputB inputC (outputA, outputB, outputC)
    = if (length inputA <=? length inputB)%nat && (length inputA <=? length inputC)%nat
      then Ok (firstn i outputA ++ skipn i inputA,
               firstn i outputB ++ firstn n (skipn i inputB) ++ skipn (i + n) outputB,
               firstn i outputC ++ firstn n (skipn i inputC) ++ skipn (i + n) outputC)
      else Panic.
Proof.
  induction n as [|n IH]; intros i oA oB oC Hin HlA HlB HlC HiB HiC.
  - cbn [encodingToInt32_loop].
    destruct (Nat.leb_spec (length inputA) (length inputB)); [|lia].
    destruct (Nat.leb_spec (length inputA) (length inputC)); [|lia].
    cbn [andb firstn app]. rewrite Nat.add_0_r, !firstn_skipn.
    rewrite skipn_all2, firstn_all2, app_nil_r by lia. reflexivity.
  - cbn [encodingToInt32_loop]. unfold load.
    destruct (nth_error inputA i) as [a|] eqn:Ea;
      [|apply nth_error_None in Ea; lia].
    cbn [bind]. rewrite store_ok by lia. cbn [bind].
    destruct (nth_error inputB i) as [b|] eqn:Eb.
    2:{ apply nth_error_None in Eb.
        destruct (Nat.leb_spec (length inputA) (length inputB)); [lia|reflexivity]. }
    assert (HiB' : (i < length inputB)%nat) by (apply nth_error_Some; congruence).
    cbn [bind]. rewrite store_ok by lia. cbn [bind].
    destruct (nth_error inputC i) as [c|] eqn:Ec.
    2:{ apply nth_error_None in Ec.
        destruct (Nat.leb_spec (length inputA) (length inputC));
          [lia|rewrite andb_false_r; reflexivity]. }
    assert (HiC' : (i < length inputC)%nat) by (apply nth_error_Some; congruence).
    cbn [bind]. rewrite store_ok by lia. cbn [bind].
    rewrite IH; try lia;
      try (rewrite length_app, length_firstn; cbn [length]; rewrite length_skipn; lia).
    destruct ((length inputA <=? length inputB)%nat && (length inputA <=? length inputC)%nat);
      [|reflexivity].
    rewrite !updated_prefix by lia.
    rewrite (updated_suffix oB i n) by lia.
    rewrite (updated_suffix oC i n) by lia.
    rewrite (skipn_cons_nth_error inputA i a Ea).
    rewrite (skipn_cons_nth_error inputB i b Eb).
    rewrite (skipn_cons_nth_error inputC i c Ec).
    cbn [firstn]. rewrite <- !app_assoc. cbn [app].
    replace (i + S n)%nat with (S i + n)%nat by lia. reflexivity.
Qed.

(** X6. The loop of [encodingToInt32], run statement by statement with
    its bounds checks, does what the closed form used in [onnxEmbed]
    says: it panics exactly when [inputB] or [inputC] is shorter than
    [inputA]; otherwise the first [len(inputA)] entries are copied and
    the others stay 0, so three slices of one length come back unchanged. *)
Theorem encodingToInt32_loop_correct (inputA inputB inputC : list Z) :
  encodingToInt32_src inputA inputB inputC = encodingToInt32 inputA inputB inputC /\
  (encodingToInt32_src inputA inputB inputC = Panic <->
   (length inputB < length inputA)%nat \/ (length inputC < length inputA)%nat) /\
  (length inputB = length inputA -> length inputC = length inputA ->
   encodingToInt32_src inputA inputB inputC = Ok (inputA, inputB, inputC)).
Proof.
  assert (E : encodingToInt32_src inputA inputB inputC
              = encodingToInt32 inputA inputB inputC).
  { unfold encodingToInt32_src, encodingToInt32.
    rewrite encodingToInt32_loop_closed by (rewrite ?repeat_length; lia).
    destruct ((length inputA <=? length inputB)%nat && (length inputA <=? length inputC)%nat);
      [|reflexivity].
    cbn [firstn app skipn Nat.add]. unfold widen.
    rewrite !skipn_repeat_n, Nat.sub_diag. cbn [repeat].
    rewrite firstn_all, app_nil_r. reflexivity. }
  split; [exact E|]. rewrite E. unfold encodingToInt32. split.
  - destruct (Nat.leb_spec (length inputA) (length inputB));
      destruct (Nat.leb_spec (length inputA) (length inputC)); cbn [andb];
      split; intros Hp; try discriminate; try reflexivity; lia.
  - intros HB HC.
    destruct (Nat.leb_spec (length inputA) (length inputB)); [|lia].
    destruct (Nat.leb_spec (length inputA) (length inputC)); [|lia].
    cbn [andb]. unfold widen.
    replace (length inputA - length inputA)%nat with 0%nat by lia.
    replace (length inputB - length inputA)%nat with 0%nat by lia.
    replace (length inputC - length inputA)%nat with 0%nat by lia.
    cbn [repeat]. rewrite !firstn_all2, !app_nil_r by lia. reflexivity.
Qed.

Lemma encodingToInt32_same_length (inputA inputB inputC : list Z) :
  length inputB = length inputA -> length inputC = length inputA ->
  encodingToInt32 inputA inputB inputC = Ok (inputA, inputB, inputC).
Proof.
  intros HB HC. unfold encodingToInt32.
  destruct (Nat.leb_spec (length inputA) (length inputB)); [|lia].
  destruct (Nat.leb_spec (length inputA) (length inputC)); [|lia].
  cbn [andb]. unfold widen.
  replace (length inputA - length inputA)%nat with 0%nat by lia.
  replace (length inputB - length inputA)%nat with 0%nat by lia.
  replace (length inputC - length inputA)%nat with 0%nat by lia.
  cbn [repeat]. rewrite !firstn_all2, !app_nil_r by lia. reflexivity.
Qed.

Lemma flatten_encodings_concat (L : nat) (encodings : list Encoding) :
  Forall (well_shaped L) encodings ->
  forall ids mask types : list Z,
    flatten_encodings encodings (ids, mask, types)
    = Ok (ids ++ concat (map GetIds encodings),
          mask ++ concat (map GetAttentionMask encodings),
          types ++ concat (map GetTypeIds encodings)).
Proof.
  induction 1 as [|encoding rest (Hi & Hm & Ht) _ IH]; intros ids mask types.
  - cbn. rewrite !app_nil_r. reflexivity.
  - cbn [flatten_encodings map concat].
    rewrite encodingToInt32_same_length by congruence. cbn [bind].
    rewrite IH, <- !app_assoc. reflexivity.
Qed.

Lemma concat_rows_length {A} (L : nat) (rows : list (list A)) :
  Forall (fun row => length row = L) rows ->
  length (concat rows) = (length rows * L)%nat.
Proof.
  induction 1 as [|row rows Hrow _ IH]; [reflexivity|].
  cbn [concat length]. rewrite length_app, Hrow, IH. lia.
Qed.

Section TensorFacts.
Context `{Platform} `{Runtime}.
Variable f : FlagEmbedding.

Lemma onnxEmbed_from_tensors (input : list string) :
  onnxEmbed f input
  = (t <- onnxEmbed_tensors f input ;;
     let '(inputShape, (inputIdsFlat, inputMaskFlat, inputTypeIdsFlat)) := t in
     data <- ort_run (filepath_Join (modelPath f) "model_optimized.onnx")
                     inputShape inputIdsFlat inputMaskFlat inputTypeIdsFlat ;;
     getEmbeddings data (inputShape ++ [384])).
Proof.
  unfold onnxEmbed, onnxEmbed_tensors.
  destruct (tokenizer_EncodeBatch f input) as [encodings| |]; cbn [bind]; try reflexivity.
  destruct (flatten_encodings encodings ([], [], [])) as [[[ids mask] types]| |];
    cbn [bind]; reflexivity.
Qed.

End TensorFacts.

(** X7. The three input tensors have the shape they are declared with:
    when the tokenizer answers [n] strings with [n] encodings of [L] ids,
    mask entries and type ids each, [L] being [maxLength], the flat
    buffers are the encodings' arrays concatenated in input order, each
    of [n * L] entries, and the shape is [[n, L]]. *)
Theorem onnxEmbed_tensors_shape (f : FlagEmbedding)
  (input : list string) (encodings : list Encoding) (L : nat) :
  tokenizer_EncodeBatch f input = Ok encodings ->
  length encodings = length input ->
  Forall (well_shaped L) encodings ->
  maxLength f = Z.of_nat L ->
  let ids := concat (map GetIds encodings) in
  let mask := concat (map GetAttentionMask encodings) in
  let types := concat (map GetTypeIds encodings) in
  onnxEmbed_tensors f input
  = Ok ([Z.of_nat (length input); Z.of_nat L], (ids, mask, types)) /\
  Z.of_nat (length ids) = Z.of_nat (length input) * Z.of_nat L /\
  Z.of_nat (length mask) = Z.of_nat (length input) * Z.of_nat L /\
  Z.of_nat (length types) = Z.of_nat (length input) * Z.of_nat L.
Proof.
  intros Htok Hn Hshape HL ids mask types.
  split.
  - unfold onnxEmbed_tensors. rewrite Htok. cbn [bind].
    rewrite (flatten_encodings_concat L encodings Hshape). cbn [bind app].
    rewrite HL. reflexivity.
  - assert (Hlen : forall g : Encoding -> list Z,
              (forall e, well_shaped L e -> length (g e) = L) ->
              Z.of_nat (length (concat (map g encodings)))
              = Z.of_nat (length input) * Z.of_nat L).
    { intros g Hg. rewrite (concat_rows_length L).
      - rewrite length_map, Hn. lia.
      - apply Forall_forall. intros row Hrow. apply in_map_iff in Hrow.
        destruct Hrow as (e & <- & He). apply Hg.
        rewrite Forall_forall in Hshape. apply Hshape, He. }
    repeat split; apply Hlen; intros e (Hi & Hm & Ht); assumption.
Qed.

Lemma onnxEmbed_tensors_shape_witness :
  onnxEmbed_tensors sample_embedder ["a"; "bb"; "ccc"]%string
  = Ok ([3; 1], ([1; 2; 3], [1; 1; 1], [0; 0; 0])).
Proof.
  destruct (onnxEmbed_tensors_shape sample_embedder
              ["a"; "bb"; "ccc"]%string
              [ {| GetIds := [1]; GetAttentionMask := [1]; GetTypeIds := [0] |};
                {| GetIds := [2]; GetAttentionMask := [1]; GetTypeIds := [0] |};
                {| GetIds := [3]; GetAttentionMask := [1]; GetTypeIds := [0] |} ]
              1%nat) as [E _].
  - reflexivity.
  - reflexivity.
  - repeat constructor.
  - reflexivity.
  - exact E.
Defined.

Lemma onnxEmbed_rows `{Platform} `{Runtime} (f : FlagEmbedding)
  (input : list string) (encodings : list Encoding) (L : nat) (data : vector) :
  tokenizer_EncodeBatch f input = Ok encodings ->
  length encodings = length input ->
  Forall (well_shaped L) encodings ->
  maxLength f = Z.of_nat L -> (1 <= L)%nat ->
  ort_run (filepath_Join (modelPath f) "model_optimized.onnx")
          [Z.of_nat (length input); Z.of_nat L]
          (concat (map GetIds encodings))
          (concat (map GetAttentionMask encodings))
          (concat (map GetTypeIds encodings)) = Ok data ->
  Z.of_nat (length data) = Z.of_nat (length input) * Z.of_nat L * 384 ->
  Z.of_nat (length data) <= max_int ->
  exists rows : list vector,
    onnxEmbed f input = Ok rows /\
    length rows = length input /\
    forall i : nat, (i < length input)%nat ->
      nth i rows [] = normalize (first_token_slice data (Z.of_nat L) 384 (Z.of_nat i)) /\
      length (nth i rows []) = 384%nat.
Proof.
  intros Htok Hn Hshape HL HL1 Hrun Hlen Hmax.
  rewrite onnxEmbed_from_tensors.
  unfold onnxEmbed_tensors. rewrite Htok. cbn [bind].
  rewrite (flatten_encodings_concat L encodings Hshape). cbn [bind app].
  rewrite HL, Hrun. cbn [bind].
  assert (Hx : 0 <= Z.of_nat (length input) <= max_int) by nia.
  unfold getEmbeddings.
  destruct (Z.ltb_spec (Z.of_nat (length input)) 0); [lia|].
  rewrite (getEmbeddings_loop_rows data (Z.of_nat (length input)) (Z.of_nat L) 384)
    by (assumption || lia).
  rewrite Nat2Z.id.
  eexists. split; [reflexivity|]. split; [rewrite length_map, length_seq; reflexivity|].
  intros i Hi.
  rewrite (nth_indep _ [] (normalize (first_token_slice data (Z.of_nat L) 384
                                        (0 + Z.of_nat 0))))
    by (rewrite length_map, length_seq; exact Hi).
  rewrite (map_nth (fun k => normalize (first_token_slice data (Z.of_nat L) 384
                                          (0 + Z.of_nat k)))).
  rewrite seq_nth by exact Hi. cbn [Nat.add]. rewrite Z.add_0_l.
  split; [reflexivity|].
  unfold normalize. rewrite length_map.
  apply Nat2Z.inj.
  rewrite (first_token_slice_length data (Z.of_nat (length input)) (Z.of_nat L) 384);
    lia.
Qed.

(** X8. [onnxEmbed] returns the pooled, normalized rows whenever its
    collaborators keep their contracts: the tokenizer answers with one
    encoding of [maxLength >= 1] entries per string, the engine with a
    buffer of [n * maxLength * 384] hidden states.  It then returns [n]
    vectors of dimension 384 without a panic, vector [i] being
    [normalize] of the first token's hidden states of input [i]. *)
Theorem onnxEmbed_contract `{Platform} `{Runtime} (f : FlagEmbedding)
  (input : list string) (encodings : list Encoding) (L : nat) (data : vector) :
  tokenizer_EncodeBatch f input = Ok encodings ->
  length encodings = length input ->
  Forall (well_shaped L) encodings ->
  maxLength f = Z.of_nat L -> (1 <= L)%nat ->
  ort_run (filepath_Join (modelPath f) "model_optimized.onnx")
          [Z.of_nat (length input); Z.of_nat L]
          (concat (map GetIds encodings))
          (concat (map GetAttentionMask encodings))
          (concat (map GetTypeIds encodings)) = Ok data ->
  Z.of_nat (length data) = Z.of_nat (length input) * Z.of_nat L * 384 ->
  Z.of_nat (length data) <= max_int ->
  exists rows : list vector,
    onnxEmbed f input = Ok rows /\
    length rows = length input /\
    forall i : nat, (i < length input)%nat ->
      nth i rows [] = normalize (first_token_slice data (Z.of_nat L) 384 (Z.of_nat i)) /\
      length (nth i rows []) = 384%nat.
Proof. apply onnxEmbed_rows. Qed.

Lemma onnxEmbed_contract_witness :
  exists rows : list vector,
    @onnxEmbed sample_world sample_runtime sample_embedder ["a"; "bb"]%string = Ok rows /\
    length rows = 2%nat.
Proof.
  destruct (@onnxEmbed_contract sample_world sample_runtime sample_embedder
              ["a"; "bb"]%string
              [ {| GetIds := [1]; GetAttentionMask := [1]; GetTypeIds := [0] |};
                {| GetIds := [2]; GetAttentionMask := [1]; GetTypeIds := [0] |} ]
              1%nat
              (flat_map (fun id => Float32.of_Z id :: Float32.of_Z 1
                                   :: repeat Float32.zero 382) [1; 2]))
    as (rows & E & Hl & _).
  - reflexivity.
  - reflexivity.
  - repeat constructor.
  - reflexivity.
  - lia.
  - reflexivity.
  - vm_compute. reflexivity.
  - vm_compute. discriminate.
  - exists rows. split; [exact E | exact Hl].
Defined.

(* ====================================================================== *)
(** * Further properties of [Embed] *)

Section EmbedLiveness.
Context `{Platform} `{Runtime}.
Variable f : FlagEmbedding.
Variable input : list string.
Variable bs : Z.
Hypothesis Hlen : 2 * Z.of_nat (length input) <= max_int.
Hypothesis Hbs : 1 <= bs <= max_int.

Lemma goroutine_count (s : state) :
  Inv f input bs s ->
  length (goroutines s) = chunk_count (Z.of_nat (length input)) bs /\
  (length (goroutines s) <= length input)%nat.
Proof.
  intros [Hst _ _ _ _].
  assert (Hm : length (goroutines s) = chunk_count (Z.of_nat (length input)) bs).
  { rewrite <- (length_map g_i), Hst. unfold chunk_starts.
    rewrite length_map, length_seq. reflexivity. }
  split; [exact Hm|].
  destruct (chunk_count_spec (Z.of_nat (length input)) bs) as (_ & _ & Hle);
    [lia|assumption|]. lia.
Qed.

(** The channel never holds more errors than there are goroutines. *)
Lemma errorCh_bound (s : state) :
  Inv f input bs s -> (length (errorCh s) <= length (goroutines s))%nat.
Proof.
  intros Hinv. destruct Hinv as [_ _ _ _ Her].
  apply Permutation_length in Her. rewrite Her. apply sent_errors_length.
Qed.

Lemma can_move (s : state) :
  Inv f input bs s -> ~ all_done s -> exists c, step f input bs (Running s) c.
Proof.
  intros Hinv Hnd. destruct s as [gs emb ch].
  destruct (done_or_split gs) as [Hd|(l1 & g & l2 & -> & Hg)]; [contradiction|].
  pose proof (goroutine_count _ Hinv) as [_ Hcount].
  destruct Hinv as [Hst Hl Hpc Hrg Her]. cbn [goroutines embeddings errorCh] in *.
  destruct g as [i p]. cbn [g_pc] in Hg.
  destruct p as [|out err|out|]; [| | |contradiction].
  - destruct (call_onnxEmbed f input bs i) as [out|err|] eqn:Hcall.
    + eexists. apply step_call_ok, Hcall.
    + eexists. apply step_call_err, Hcall.
    + eexists. apply step_call_panic, Hcall.
  - eexists. apply step_send.
    apply Permutation_length in Her.
    rewrite Her, sent_errors_replace, !length_app.
    cbn [sent_errors flat_map g_pc length app].
    pose proof (sent_errors_length f input bs l1).
    pose proof (sent_errors_length f input bs l2).
    rewrite length_app in Hcount. cbn [length] in Hcount. lia.
  - destruct (start_of_goroutine input bs _ _ _ Hst) as (k & Hk & Hik).
    cbn [g_i] in Hik.
    assert (Hend : chunk_end (Z.of_nat (length input)) bs i
                   = Z.min (i + bs) (Z.of_nat (length input))).
    { rewrite Hik. apply chunk_end_min; assumption || lia. }
    assert (Hilt : i < Z.of_nat (length input)).
    { rewrite Hik. apply chunk_start_lt; assumption || lia. }
    assert (Hi0 : 0 <= i) by nia.
    destruct (copy_into_ok emb i (chunk_end (Z.of_nat (length input)) bs i) out)
      as (emb2 & Hc2 & _); [lia | lia |].
    eexists. apply step_copy_ok, Hc2.
Qed.

End EmbedLiveness.

(** X10. No goroutine of [Embed] is ever stuck: in every state the
    goroutines can reach, the channel holds at most [len(input)] errors,
    its capacity, so a send does not block, and as long as the barrier has
    not opened some goroutine can move. *)
Theorem Embed_no_deadlock `{Platform} `{Runtime} (f : FlagEmbedding)
  (input : list string) (batchSize : Z) (s0 s : state) :
  2 * Z.of_nat (length input) <= max_int ->
  batchSize <= max_int ->
  Embed_start input batchSize = Some s0 ->
  steps f input (effective_batchSize batchSize) (Running s0) (Running s) ->
  (length (errorCh s) <= length input)%nat /\
  (all_done s \/
   exists c, step f input (effective_batchSize batchSize) (Running s) c).
Proof.
  intros Hlen Hbatch Hstart Hsteps.
  pose proof (effective_batchSize_range batchSize Hbatch) as Hbs.
  pose proof (Embed_start_inv f input batchSize Hlen Hbatch s0 Hstart) as Hinv0.
  pose proof (steps_preserve f input _ Hlen Hbs s0 (Running s) Hinv0 Hsteps) as Hinv.
  split.
  - pose proof (errorCh_bound f input _ s Hinv).
    pose proof (goroutine_count f input _ Hbs s Hinv) as [_ Hc]. lia.
  - destruct (all_done_dec s) as [Hd|Hd]; [left; exact Hd|right].
    apply (can_move f input _ Hlen Hbs s Hinv Hd).
Qed.

Lemma Embed_no_deadlock_witness :
  exists s0 s,
    Embed_start failing_input 2 = Some s0 /\
    @run_schedule sample_world sample_runtime sample_embedder failing_input 2
      [0; 1; 1]%nat (Running s0) = Some (Running s) /\
    (length (errorCh s) <= length failing_input)%nat /\
    exists c, @step sample_world sample_runtime sample_embedder failing_input 2
                (Running s) c.
Proof.
  destruct (Embed_start failing_input 2) as [s0|] eqn:E0; [|discriminate].
  destruct (@run_schedule sample_world sample_runtime sample_embedder failing_input 2
              [0; 1; 1]%nat (Running s0)) as [[s|]|] eqn:Er.
  - exists s0, s. split; [reflexivity|]. split; [exact Er|].
    assert (Hlen : 2 * Z.of_nat (length failing_input) <= max_int)
      by (unfold max_int; simpl; lia).
    assert (Hbatch : 2 <= max_int) by (unfold max_int; lia).
    destruct (@Embed_no_deadlock sample_world sample_runtime sample_embedder
                failing_input 2 s0 s Hlen Hbatch E0
                (run_schedule_sound _ _ _ _ _ _ Er)) as [Hcap [Hd|Hmove]].
    + exfalso. vm_compute in E0. injection E0 as <-.
      vm_compute in Er. injection Er as <-.
      unfold all_done in Hd. cbn [goroutines] in Hd.
      inversion Hd as [|g gs Hg _]; subst. discriminate Hg.
    + split; [exact Hcap | exact Hmove].
  - exfalso. vm_compute in E0. injection E0 as <-. vm_compute in Er. discriminate.
  - exfalso. vm_compute in E0. injection E0 as <-. vm_compute in Er. discriminate.
Defined.

Section EmbedSmallInputs.
Context `{Platform} `{Runtime}.
Variable f : FlagEmbedding.
Variable input : list string.
Variable batchSize : Z.
Hypothesis Hlen : 2 * Z.of_nat (length input) <= max_int.
Hypothesis Hbatch : batchSize <= max_int.

Abbreviation ebs := (effective_batchSize batchSize).

(** At the barrier no call of [onnxEmbed] has panicked. *)
Lemma Embed_final_no_panic (s : state) :
  Embed_final f input batchSize s ->
  Forall (fun i => call_onnxEmbed f input ebs i <> Panic)
         (chunk_starts (Z.of_nat (length input)) ebs).
Proof.
  intros (s0 & Hstart & Hsteps & Hdone).
  pose proof (effective_batchSize_range batchSize Hbatch) as Hbs.
  pose proof (Embed_start_inv f input batchSize Hlen Hbatch s0 Hstart) as Hinv0.
  pose proof (steps_preserve f input _ Hlen Hbs s0 (Running s) Hinv0 Hsteps) as Hinv.
  destruct Hinv as [Hst _ Hpc _ _]. rewrite <- Hst.
  unfold all_done in Hdone. rewrite Forall_forall in *.
  intros i Hi. apply in_map_iff in Hi. destruct Hi as (g & <- & Hg).
  specialize (Hpc g Hg). unfold pc_ok in Hpc. rewrite (Hdone g Hg) in Hpc. exact Hpc.
Qed.

Lemma Embed_crash_needs_panic :
  Embed_returns f input batchSize Panic ->
  ~ Forall (fun i => call_onnxEmbed f input ebs i <> Panic)
           (chunk_starts (Z.of_nat (length input)) ebs).
Proof.
  intros Hret Hnp.
  pose proof (effective_batchSize_range batchSize Hbatch) as Hbs.
  inversion Hret as [s Hfinal Hfin|s0 Hstart Hcrash]; subst.
  - unfold Embed_finish in Hfin. destruct (errorCh s); discriminate.
  - pose proof (Embed_start_inv f input batchSize Hlen Hbatch s0 Hstart) as Hinv0.
    exact (steps_safe f input _ Hlen Hbs s0 Hinv0 Hnp Hcrash).
Qed.

End EmbedSmallInputs.

(** When [Embed] has returned a sequence, the call of [onnxEmbed] on
    each chunk of the input has returned its rows. *)
Lemma Embed_chunk_calls `{Platform} `{Runtime} (f : FlagEmbedding)
  (input : list string) (batchSize : Z) (r : list vector) (k : nat) :
  2 * Z.of_nat (length input) <= max_int ->
  batchSize <= max_int ->
  Embed_returns f input batchSize (Ok r) ->
  (k < chunk_count (Z.of_nat (length input)) (effective_batchSize batchSize))%nat ->
  let bs := effective_batchSize batchSize in
  let chunk := firstn (Z.to_nat bs) (skipn (Z.to_nat (Z.of_nat k * bs)) input) in
  exists batchOut,
    onnxEmbed f chunk = Ok batchOut /\
    call_onnxEmbed f input bs (Z.of_nat k * bs) = Ok batchOut.
Proof.
  intros Hlen Hbatch Hret Hk bs chunk.
  pose proof (effective_batchSize_range batchSize Hbatch) as Hbs. fold bs in Hbs, Hk.
  assert (Hcall : call_onnxEmbed f input bs (Z.of_nat k * bs) = onnxEmbed f chunk).
  { unfold call_onnxEmbed. rewrite chunk_slice by (assumption || lia). reflexivity. }
  assert (Hin : In (Z.of_nat k * bs) (chunk_starts (Z.of_nat (length input)) bs)).
  { apply in_chunk_starts. exists k. split; [exact Hk|reflexivity]. }
  destruct (Embed_returns_Ok f input batchSize Hlen Hbatch r Hret) as (Herr & _ & _).
  rewrite task_errors_starts in Herr by assumption. fold bs in Herr.
  inversion Hret as [s Hfinal Hfin|]; subst.
  pose proof (Embed_final_no_panic f input batchSize Hlen Hbatch s Hfinal) as Hnp.
  fold bs in Hnp. rewrite Forall_forall in Hnp. specialize (Hnp _ Hin).
  destruct (call_onnxEmbed f input bs (Z.of_nat k * bs)) as [out|err|] eqn:E.
  - exists out. split; [symmetry; exact Hcall|reflexivity].
  - exfalso. unfold errors_of in Herr.
    apply in_split in Hin. destruct Hin as (l1 & l2 & Hsplit).
    rewrite Hsplit, flat_map_app in Herr. cbn [flat_map] in Herr. rewrite E in Herr.
    apply app_eq_nil in Herr. destruct Herr as [_ Herr]. discriminate Herr.
  - contradiction.
Qed.

(** C1. Whatever the order in which the goroutines of [Embed] move and
    finish, a returned sequence has the length of the input, and its
    element [p] is the row that [onnxEmbed] returns for the string
    [input[p]]: with [i] the start of the chunk that holds [p], the call
    [onnxEmbed(input[i:end])] of line 216 returns [batchOut] with one row
    for each string of the chunk, [input[p]] is the string at position
    [p - i] of that chunk, and the returned element [p] is row [p - i] of
    [batchOut].  Each goroutine writes only the range [[i, end)] of the
    pre-allocated [embeddings]. *)
Theorem Embed_order_preserved `{Platform} `{Runtime} (f : FlagEmbedding)
  (input : list string) (batchSize : Z) (r : list vector) :
  2 * Z.of_nat (length input) <= max_int ->
  batchSize <= max_int ->
  Embed_returns f input batchSize (Ok r) ->
  length r = length input /\
  forall p : nat, (p < length input)%nat ->
    let bs := effective_batchSize batchSize in
    let i := Z.of_nat p / bs * bs in
    let chunk := firstn (Z.to_nat bs) (skipn (Z.to_nat i) input) in
    let j := Z.to_nat (Z.of_nat p - i) in
    nth_error chunk j = nth_error input p /\
    exists batchOut,
      onnxEmbed f chunk = Ok batchOut /\
      length batchOut = length chunk /\
      nth p r [] = nth j batchOut [].
Proof.
  intros Hlen Hbatch Hret.
  destruct (Embed_returns_Ok f input batchSize Hlen Hbatch r Hret) as (_ & Hl & Hrows).
  split; [exact Hl|]. intros p Hp bs i chunk j.
  pose proof (effective_batchSize_range batchSize Hbatch) as Hbs. fold bs in Hbs.
  destruct (index_in_chunk (Z.of_nat (length input)) bs (Zle_0_nat _) Hbs
              (Z.of_nat p) ltac:(lia)) as (k & Hk & Hrange & Hdiv).
  fold i in Hdiv.
  destruct (Embed_chunk_calls f input batchSize r k Hlen Hbatch Hret Hk)
    as (batchOut & Hout & Hcall).
  fold bs in Hout, Hcall. rewrite <- Hdiv in Hout, Hcall. fold chunk in Hout.
  split.
  - unfold chunk, j. rewrite nth_error_firstn.
    destruct (Nat.ltb_spec (Z.to_nat (Z.of_nat p - i)) (Z.to_nat bs)) as [_|Hge]; [|lia].
    rewrite nth_error_skipn. f_equal. lia.
  - exists batchOut. split; [exact Hout|]. split.
    + apply (onnxEmbed_length f chunk batchOut Hout).
    + rewrite (Hrows p Hp). unfold embedding_of. fold bs. fold i.
      rewrite Hcall. reflexivity.
Qed.

Lemma Embed_order_preserved_witness :
  exists r batchOut : list vector,
    @Embed_returns sample_world sample_runtime sample_embedder sample_input 2 (Ok r) /\
    length r = 3%nat /\
    @onnxEmbed sample_world sample_runtime sample_embedder ["ccc"%string] = Ok batchOut /\
    length batchOut = 1%nat /\
    nth 2 r [] = nth 0 batchOut [].
Proof.
  assert (Hrun : exists r,
            @Embed_under sample_world sample_runtime sample_embedder
                         sample_schedule sample_input 2 = Some (Ok r)).
  { vm_compute. eexists. reflexivity. }
  destruct Hrun as [r Hr]. exists r.
  pose proof (@Embed_under_sound sample_world sample_runtime sample_embedder
                sample_schedule sample_input 2 (Ok r) Hr) as Hret.
  assert (Hlen : 2 * Z.of_nat (length sample_input) <= max_int)
    by (unfold max_int; simpl; lia).
  assert (Hbatch : 2 <= max_int) by (unfold max_int; lia).
  destruct (@Embed_order_preserved sample_world sample_runtime sample_embedder
              sample_input 2 r Hlen Hbatch Hret) as [Hl Hrows].
  destruct (Hrows 2%nat ltac:(simpl; lia)) as (_ & batchOut & Hout & Hlo & Hrow).
  exists batchOut.
  split; [exact Hret|]. split; [exact Hl|].
  split; [exact Hout|]. split; [exact Hlo | exact Hrow].
Defined.

Lemma Embed_empty_returns `{Platform} `{Runtime} (f : FlagEmbedding)
  (batchSize : Z) (r : result (list vector)) :
  batchSize <= max_int ->
  (Embed_returns f [] batchSize r <-> r = Ok []).
Proof.
  intros Hbatch.
  assert (Hlen : 2 * Z.of_nat (length (@nil string)) <= max_int)
    by (unfold max_int; simpl; lia).
  pose proof (effective_batchSize_range batchSize Hbatch) as Hbs.
  assert (Hstarts : chunk_starts (Z.of_nat (length (@nil string)))
                                 (effective_batchSize batchSize) = []).
  { unfold chunk_starts, chunk_count. cbn [length Z.of_nat].
    replace ((0 + effective_batchSize batchSize - 1) / effective_batchSize batchSize)
      with 0; [reflexivity|].
    symmetry. apply Z.div_small. lia. }
  assert (Hfwd : forall r', Embed_returns f [] batchSize r' -> r' = Ok []).
  { intros r' Hret. destruct r' as [embs|err|].
    - destruct (Embed_returns_Ok f [] batchSize Hlen Hbatch embs Hret) as (_ & Hl & _).
      destruct embs; [reflexivity|discriminate].
    - pose proof (Embed_returns_Fail f [] batchSize Hlen Hbatch err Hret) as Hin.
      rewrite task_errors_starts, Hstarts in Hin by assumption. contradiction.
    - exfalso. apply (Embed_crash_needs_panic f [] batchSize Hlen Hbatch Hret).
      rewrite Hstarts. constructor. }
  split; [apply Hfwd|]. intros ->.
  destruct (Embed_returns_exists f [] batchSize Hlen Hbatch) as [(r' & Hret & _) _].
  - unfold no_task_panics. cbv zeta. intros starts Hspawn.
    rewrite spawn_loop_starts, Hstarts in Hspawn by (assumption || lia).
    injection Hspawn as <-. constructor.
  - rewrite <- (Hfwd r' Hret). exact Hret.
Qed.

Section EmbedSingleChunk.
Context `{Platform} `{Runtime}.
Variable f : FlagEmbedding.
Variable input : list string.
Variable batchSize : Z.
Hypothesis Hlen : 2 * Z.of_nat (length input) <= max_int.
Hypothesis Hbatch : batchSize <= max_int.

Abbreviation ebs1 := (effective_batchSize batchSize).

Hypothesis Hone : 1 <= Z.of_nat (length input) <= ebs1.

Lemma single_chunk_starts : chunk_starts (Z.of_nat (length input)) ebs1 = [0].
Proof.
  unfold chunk_starts, chunk_count.
  replace ((Z.of_nat (length input) + ebs1 - 1) / ebs1) with 1; [reflexivity|].
  apply (Z.div_unique _ ebs1 1 (Z.of_nat (length input) - 1)); lia.
Qed.

Lemma single_chunk_call : call_onnxEmbed f input ebs1 0 = onnxEmbed f input.
Proof.
  pose proof (effective_batchSize_range batchSize Hbatch) as Hbs.
  unfold call_onnxEmbed, chunk_end. rewrite Z.add_0_l, int_wrap_id by (unfold max_int in *; lia).
  assert (Hend : (if ebs1 >? Z.of_nat (length input) then Z.of_nat (length input) else ebs1)
                 = Z.of_nat (length input)).
  { destruct (Z.gtb_spec ebs1 (Z.of_nat (length input))); lia. }
  rewrite Hend, slice_ok by lia. cbn [bind Z.to_nat skipn].
  rewrite Z.sub_0_r, Nat2Z.id, firstn_all. reflexivity.
Qed.

Lemma single_chunk_errors :
  task_errors f input batchSize
  = match onnxEmbed f input with Fail err => [err] | _ => [] end.
Proof.
  rewrite task_errors_starts by assumption.
  rewrite single_chunk_starts. unfold errors_of. cbn [flat_map].
  rewrite single_chunk_call, app_nil_r. reflexivity.
Qed.

Lemma Embed_single_chunk_returns (r : result (list vector)) :
  Embed_returns f input batchSize r <-> r = onnxEmbed f input.
Proof.
  pose proof (effective_batchSize_range batchSize Hbatch) as Hbs.
  assert (Hfwd : forall r', Embed_returns f input batchSize r' -> r' = onnxEmbed f input).
  { intros r' Hret. destruct r' as [embs|err|].
    - destruct (Embed_returns_Ok f input batchSize Hlen Hbatch embs Hret)
        as (Hnone & Hl & Hrows).
      inversion Hret as [s Hfinal Hfin|].
      pose proof (Embed_final_no_panic f input batchSize Hlen Hbatch s Hfinal) as Hnp.
      rewrite single_chunk_starts in Hnp. apply Forall_inv in Hnp.
      rewrite single_chunk_call in Hnp.
      rewrite single_chunk_errors in Hnone.
      destruct (onnxEmbed f input) as [out|e|] eqn:Eo;
        [|discriminate|contradiction].
      rewrite Hfin. f_equal. apply (nth_ext embs out [] []).
      + rewrite Hl. symmetry. apply (onnxEmbed_length f input out Eo).
      + intros p Hp. rewrite Hl in Hp. rewrite (Hrows p Hp).
        unfold embedding_of. fold ebs1.
        replace (Z.of_nat p / ebs1 * ebs1) with 0.
        * rewrite single_chunk_call, Eo. f_equal. lia.
        * rewrite Z.div_small by lia. reflexivity.
    - pose proof (Embed_returns_Fail f input batchSize Hlen Hbatch err Hret) as Hin.
      rewrite single_chunk_errors in Hin.
      destruct (onnxEmbed f input) as [out|e|]; try contradiction.
      destruct Hin as [->|[]]. reflexivity.
    - destruct (onnxEmbed f input) as [out|e|] eqn:Eo; [| |reflexivity];
        exfalso; apply (Embed_crash_needs_panic f input batchSize Hlen Hbatch Hret);
        rewrite single_chunk_starts; constructor; [|constructor| |constructor];
        rewrite single_chunk_call, Eo; discriminate. }
  split; [apply Hfwd|]. intros ->.
  destruct (onnxEmbed f input) as [out|e|] eqn:Eo.
  3:{ destruct (Embed_start_some f input batchSize Hlen Hbatch) as (s0 & Hstart).
      apply Embed_panic with s0; [exact Hstart|].
      assert (Hs0 : goroutines s0 = [] ++ {| g_i := 0; g_pc := Calling |} :: []).
      { unfold Embed_start in Hstart.
        rewrite spawn_loop_starts in Hstart by (assumption || lia).
        injection Hstart as <-. cbn [goroutines]. rewrite single_chunk_starts.
        reflexivity. }
      destruct s0 as [gs emb ch]. cbn [goroutines] in Hs0. subst gs.
      eapply steps_snoc; [apply steps_refl|].
      apply step_call_panic. rewrite single_chunk_call. exact Eo. }
  - assert (Hnp : no_task_panics f input batchSize).
    { unfold no_task_panics. cbv zeta. intros starts Hspawn.
      rewrite spawn_loop_starts, single_chunk_starts in Hspawn by (assumption || lia).
      injection Hspawn as <-. constructor; [|constructor].
      rewrite single_chunk_call, Eo. discriminate. }
    destruct (Embed_returns_exists f input batchSize Hlen Hbatch Hnp)
      as [(r' & Hret & _) _].
    rewrite <- (Hfwd r' Hret). exact Hret.
  - assert (Hnp : no_task_panics f input batchSize).
    { unfold no_task_panics. cbv zeta. intros starts Hspawn.
      rewrite spawn_loop_starts, single_chunk_starts in Hspawn by (assumption || lia).
      injection Hspawn as <-. constructor; [|constructor].
      rewrite single_chunk_call, Eo. discriminate. }
    destruct (Embed_returns_exists f input batchSize Hlen Hbatch Hnp)
      as [(r' & Hret & _) _].
    rewrite <- (Hfwd r' Hret). exact Hret.
Qed.

End EmbedSingleChunk.

(** X11. On an empty input [Embed] starts no goroutine and returns the
    empty sequence and no error, whatever the tokenizer and the engine
    are; it never fails and never panics. *)
Theorem Embed_empty_input `{Platform} `{Runtime} (f : FlagEmbedding)
  (batchSize : Z) (r : result (list vector)) :
  batchSize <= max_int ->
  (Embed_returns f [] batchSize r <-> r = Ok []).
Proof. apply Embed_empty_returns. Qed.

Lemma Embed_empty_input_witness :
  @Embed_returns sample_world sample_runtime sample_embedder [] 7 (Ok []).
Proof.
  apply (@Embed_empty_input sample_world sample_runtime sample_embedder 7 (Ok []));
    [unfold max_int; lia | reflexivity].
Defined.

(** X13. When the whole input fits in one chunk
    ([1 <= len(input) <= batchSize], or [batchSize <= 0] and at most 512
    strings), [Embed] is [onnxEmbed] on the input: it returns what that
    one call returns, vectors, error or panic, and nothing else. *)
Theorem Embed_single_chunk `{Platform} `{Runtime} (f : FlagEmbedding)
  (input : list string) (batchSize : Z) (r : result (list vector)) :
  2 * Z.of_nat (length input) <= max_int ->
  batchSize <= max_int ->
  1 <= Z.of_nat (length input) <= effective_batchSize batchSize ->
  (Embed_returns f input batchSize r <-> r = onnxEmbed f input).
Proof.
  intros Hlen Hbatch Hone. apply Embed_single_chunk_returns; assumption.
Qed.

Lemma Embed_single_chunk_witness :
  @Embed_returns sample_world sample_runtime sample_embedder sample_input 0
    (@onnxEmbed sample_world sample_runtime sample_embedder sample_input).
Proof.
  apply (@Embed_single_chunk sample_world sample_runtime sample_embedder
           sample_input 0).
  - unfold max_int. simpl. lia.
  - unfold max_int. lia.
  - unfold sample_input, effective_batchSize. simpl. lia.
  - reflexivity.
Defined.

(** X14. [QueryEmbed] bypasses the scheduler but agrees with it:
    [QueryEmbed(text)] returns the vector [v] exactly when
    [Embed] on the one string ["query: " ++ text], with any chunk size,
    returns the one-element sequence [[v]]. *)
Theorem QueryEmbed_is_Embed_of_one `{Platform} `{Runtime} (f : FlagEmbedding)
  (text : string) (batchSize : Z) (v : vector) :
  batchSize <= max_int ->
  (QueryEmbed f text = Ok v <->
   Embed_returns f [("query: " ++ text)%string] batchSize (Ok [v])).
Proof.
  intros Hbatch.
  pose proof (effective_batchSize_range batchSize Hbatch) as Hbs.
  rewrite (Embed_single_chunk_returns f [("query: " ++ text)%string] batchSize)
    by (try assumption; unfold max_int; simpl; lia).
  unfold QueryEmbed.
  destruct (onnxEmbed f [("query: " ++ text)%string]) as [data| |] eqn:E; cbn [bind].
  - apply onnxEmbed_length in E. cbn [length] in E.
    destruct data as [|v0 [|v1 data]]; try discriminate.
    cbn [index0]. split; intros Hv; injection Hv as ->; reflexivity.
  - split; discriminate.
  - split; discriminate.
Qed.

Lemma QueryEmbed_is_Embed_of_one_witness :
  exists v,
    @QueryEmbed sample_world sample_runtime sample_embedder "hello" = Ok v /\
    @Embed_returns sample_world sample_runtime sample_embedder
      ["query: hello"%string] 3 (Ok [v]).
Proof.
  destruct (@QueryEmbed sample_world sample_runtime sample_embedder "hello")
    as [v| |] eqn:E; try (vm_compute in E; discriminate).
  exists v. split; [reflexivity|].
  apply (@QueryEmbed_is_Embed_of_one sample_world sample_runtime sample_embedder
           "hello" 3 v); [unfold max_int; lia | exact E].
Defined.

(* ---------------------------------------------------------------------- *)
(** ** A row-wise engine *)

Lemma first_token_concat {A} (z : nat) (rows : list (list A)) :
  Forall (fun row => length row = z) rows ->
  forall i : nat, (i < length rows)%nat ->
    firstn z (skipn (i * z) (concat rows)) = nth i rows [].
Proof.
  induction 1 as [|row rows Hrow _ IH]; intros i Hi; [cbn in Hi; lia|].
  cbn [concat]. destruct i as [|i].
  - cbn [Nat.mul skipn nth]. rewrite firstn_app, Hrow, Nat.sub_diag.
    cbn [firstn]. rewrite app_nil_r. apply firstn_all2. lia.
  - cbn [nth]. rewrite skipn_app, Hrow.
    rewrite skipn_all2 by (rewrite Hrow; cbn; lia).
    replace (S i * z - z)%nat with (i * z)%nat by (cbn; lia).
    cbn [app]. apply IH. cbn [length] in Hi. lia.
Qed.

Lemma plain_rowwise (xs : list string) :
  384 * Z.of_nat (length xs) <= max_int ->
  @onnxEmbed sample_world sample_runtime plain_embedder xs
  = Ok (map plain_embedding xs).
Proof.
  intros Hmax.
  set (encodings := map (fun s => {| GetIds := [Z.of_nat (String.length s)];
                                     GetAttentionMask := [1];
                                     GetTypeIds := [0] |}) xs).
  assert (Hdata : flat_map (fun id => Float32.of_Z id :: Float32.of_Z 1
                                      :: repeat Float32.zero 382)
                    (concat (map GetIds encodings))
                  = concat (map plain_row xs)).
  { unfold encodings. clear. induction xs as [|s xs IH]; [reflexivity|].
    cbn [map concat GetIds app flat_map]. rewrite IH. reflexivity. }
  assert (Hrows : Forall (fun row : vector => length row = 384%nat) (map plain_row xs)).
  { apply Forall_forall. intros row Hrow. apply in_map_iff in Hrow.
    destruct Hrow as (s & <- & _). reflexivity. }
  destruct (@onnxEmbed_rows sample_world sample_runtime plain_embedder xs encodings
              1%nat (concat (map plain_row xs)))
    as (rows & E & Hl & Hnth).
  - reflexivity.
  - unfold encodings. apply length_map.
  - unfold encodings. apply Forall_forall. intros e He. apply in_map_iff in He.
    destruct He as (s & <- & _). repeat split.
  - reflexivity.
  - lia.
  - cbn [ort_run sample_runtime]. rewrite Hdata. reflexivity.
  - rewrite (concat_rows_length 384 _ Hrows), length_map. lia.
  - rewrite (concat_rows_length 384 _ Hrows), length_map. lia.
  - rewrite E. f_equal.
    apply (nth_ext rows (map plain_embedding xs) [] (plain_embedding EmptyString));
      [rewrite length_map; exact Hl|].
    intros i Hi. rewrite Hl in Hi. destruct (Hnth i Hi) as [-> _].
    rewrite map_nth. unfold plain_embedding. f_equal.
    unfold first_token_slice.
    replace (Z.to_nat (Z.of_nat i * Z.of_nat 1 * 384)) with (i * 384)%nat by lia.
    change (Z.to_nat 384) with 384%nat.
    rewrite (first_token_concat 384 _ Hrows) by (rewrite length_map; exact Hi).
    rewrite (nth_indep _ [] (plain_row EmptyString)) by (rewrite length_map; exact Hi).
    apply map_nth.
Qed.

Lemma Embed_rowwise_witness :
  exists r,
    @Embed_returns sample_world sample_runtime plain_embedder sample_input 2 (Ok r) /\
    r = map plain_embedding sample_input.
Proof.
  assert (Hrun : exists r,
            @Embed_under sample_world sample_runtime plain_embedder
                         sample_schedule sample_input 2 = Some (Ok r)).
  { vm_compute. eexists. reflexivity. }
  destruct Hrun as [r Hr]. exists r.
  pose proof (@Embed_under_sound sample_world sample_runtime plain_embedder
                sample_schedule sample_input 2 (Ok r) Hr) as Hret.
  split; [exact Hret|].
  apply (@Embed_rowwise sample_world sample_runtime plain_embedder sample_input 2
           plain_embedding r).
  - unfold max_int. simpl. lia.
  - unfold max_int. lia.
  - intros xs Hxs. apply plain_rowwise.
    unfold sample_input in Hxs. cbn [length] in Hxs. unfold max_int. lia.
  - exact Hret.
Defined.

(* ====================================================================== *)
(** * Further properties of the model cache *)

Section UntarFacts.
Context `{Platform}.
Variable target : string.

Lemma untar_loop_app (pre post : list tar_next) :
  forall fs0 : FS,
    untar_loop (pre ++ post) target fs0
    = match untar_loop pre target fs0 with
      | (fs1, None) => untar_loop post target fs1
      | (fs1, Some err) => (fs1, Some err)
      end.
Proof.
  induction pre as [|entry pre IH]; intros fs0; cbn [app untar_loop]; [reflexivity|].
  destruct entry as [header content|err]; [|reflexivity].
  destruct (Typeflag header).
  - destruct (os_MkdirAll _ fs0) as [fs1 [e|]]; [reflexivity|apply IH].
  - destruct (os_MkdirAll _ fs0) as [fs1 [e|]]; [reflexivity|].
    destruct (os_Create _ fs1) as [fs2 [e|]]; [reflexivity|].
    destruct (io_Copy _ content fs2) as [fs3 [e|]]; [reflexivity|apply IH].
  - apply IH.
Qed.

Lemma untar_loop_filter (entries : list tar_next) :
  forall fs0 : FS,
    untar_loop entries target fs0 = untar_loop (filter extracted entries) target fs0.
Proof.
  induction entries as [|entry entries IH]; intros fs0; [reflexivity|].
  destruct entry as [header content|err]; [|reflexivity].
  cbn [filter extracted]. destruct (Typeflag header) eqn:Et; cbn [untar_loop];
    rewrite Et.
  - destruct (os_MkdirAll _ fs0) as [fs1 [e|]]; [reflexivity|apply IH].
  - destruct (os_MkdirAll _ fs0) as [fs1 [e|]]; [reflexivity|].
    destruct (os_Create _ fs1) as [fs2 [e|]]; [reflexivity|].
    destruct (io_Copy _ content fs2) as [fs3 [e|]]; [reflexivity|apply IH].
  - apply IH.
Qed.

End UntarFacts.

(** X15. [untar] stops at the first failure, of the reader or of the
    file system: the entries after it are not looked at, and what was
    written before it stays; nothing is rolled back. *)
Theorem untar_stops_at_first_error `{Platform} (target : string)
  (pre post : list tar_next) (fs0 fs1 : FS) (err : error) :
  untar_loop pre target fs0 = (fs1, Some err) ->
  untar_loop (pre ++ post) target fs0 = (fs1, Some err).
Proof.
  intros Hpre. rewrite untar_loop_app, Hpre. reflexivity.
Qed.

Lemma untar_stops_at_first_error_witness :
  @untar_loop (sample_platform server_404) (truncated_archive ++ model_archive)
    "cache" empty_fs
  = ({| present := ["cache/m"%string]; forbidden := [] |},
     Some "unexpected EOF"%string).
Proof.
  apply (@untar_stops_at_first_error (sample_platform server_404)).
  reflexivity.
Defined.

(** X16. Entries that are neither directories nor regular files
    (links, devices, ...) are skipped: removing them from the archive
    changes neither the file system nor the error after [untar]. *)
Theorem untar_ignores_other_types `{Platform} (target : string)
  (entries : list tar_next) (fs0 : FS) :
  untar_loop entries target fs0 = untar_loop (filter extracted entries) target fs0.
Proof. apply untar_loop_filter. Qed.

(** X17. A download that is answered with a 2xx status extracts the body
    into [cacheDir] and answers with what the extraction says: the error
    of [untar], the file system being left as far as the extraction
    came, or else the path [cacheDir/model], whether or not the archive
    created it.  The progress flag makes no difference. *)
Theorem download_extracts `{Platform} (model cacheDir : string) (show : bool)
  (w : World) (response : Response) (entries : list tar_next)
  (fs' : FS) (err : option error) :
  os_Stat (filepath_Join cacheDir model) (fs w) = Some ENOENT ->
  http_Get (trace w) (downloadURL model) = Ok response ->
  200 <= StatusCode response <= 299 ->
  Body response = Gzip entries ->
  untar_loop entries cacheDir (fs w) = (fs', err) ->
  retrieveModel model cacheDir show w
  = (match err with
     | Some e => Fail e
     | None => Ok (filepath_Join cacheDir model)
     end,
     {| fs := fs';
        trace := trace w ++ [EvGet (downloadURL model); EvUntar cacheDir] |}).
Proof.
  intros Hstat Hget Hcode Hbody Huntar.
  rewrite retrieveModel_miss by exact Hstat.
  unfold downloadFromGcs. rewrite Hget.
  replace ((StatusCode response <? 200) || (StatusCode response >? 299)) with false.
  - unfold progressbar_NewReader, untar. rewrite Hbody. cbn [fs trace].
    rewrite Huntar, <- app_assoc. cbn [app].
    destruct show; destruct err; reflexivity.
  - symmetry. apply orb_false_iff. split; [apply Z.ltb_ge; lia|].
    rewrite Z.gtb_ltb. apply Z.ltb_ge. lia.
Qed.

Lemma download_extracts_witness :
  retrieveModel "m" "cache" false (cold_world (server_200 truncated_archive))
  = (Fail "unexpected EOF"%string,
     @Build_World (sample_platform (server_200 truncated_archive))
       {| present := ["cache/m"%string]; forbidden := [] |}
       [EvGet (downloadURL "m"); EvUntar "cache"%string]).
Proof.
  apply (@download_extracts (sample_platform (server_200 truncated_archive))
           "m" "cache" false (cold_world (server_200 truncated_archive))
           {| StatusCode := 200; Status := "200 OK"%string;
              ContentLength := 1024; Body := Gzip truncated_archive |}
           truncated_archive
           {| present := ["cache/m"%string]; forbidden := [] |}
           (Some "unexpected EOF"%string)).
  - reflexivity.
  - reflexivity.
  - cbn. lia.
  - reflexivity.
  - reflexivity.
Defined.

Section InterruptedDownload.
Context `{Platform}.

(** What the file system is asked to guarantee: a directory that
    [os.MkdirAll] has made is there, and no operation of [untar] makes a
    path vanish. *)
Hypothesis mkdir_makes : forall p fs0 fs1,
  os_MkdirAll p fs0 = (fs1, None) -> seen p fs1.
Hypothesis mkdir_keeps : forall q p fs0 fs1 r,
  os_MkdirAll p fs0 = (fs1, r) -> seen q fs0 -> seen q fs1.
Hypothesis create_keeps : forall q p fs0 fs1 r,
  os_Create p fs0 = (fs1, r) -> seen q fs0 -> seen q fs1.
Hypothesis copy_keeps : forall q p content fs0 fs1 r,
  io_Copy p content fs0 = (fs1, r) -> seen q fs0 -> seen q fs1.

Lemma untar_loop_keeps (target q : string) (entries : list tar_next) :
  forall fs0 fs1 r,
    untar_loop entries target fs0 = (fs1, r) -> seen q fs0 -> seen q fs1.
Proof.
  induction entries as [|entry entries IH]; intros fs0 fs1 r E Hq;
    cbn [untar_loop] in E.
  - injection E as <- <-. exact Hq.
  - destruct entry as [header content|err]; [|injection E as <- <-; exact Hq].
    destruct (Typeflag header).
    + destruct (os_MkdirAll _ fs0) as [fsa [e|]] eqn:Em.
      * injection E as <- <-. eapply mkdir_keeps; eassumption.
      * eapply IH; [exact E|]. eapply mkdir_keeps; eassumption.
    + destruct (os_MkdirAll _ fs0) as [fsa [e|]] eqn:Em.
      * injection E as <- <-. eapply mkdir_keeps; eassumption.
      * assert (Ha : seen q fsa) by (eapply mkdir_keeps; eassumption).
        destruct (os_Create _ fsa) as [fsb [e|]] eqn:Ec.
        -- injection E as <- <-. eapply create_keeps; eassumption.
        -- assert (Hb : seen q fsb) by (eapply create_keeps; eassumption).
           destruct (io_Copy _ content fsb) as [fsc [e|]] eqn:Ei.
           ++ injection E as <- <-. eapply copy_keeps; eassumption.
           ++ eapply IH; [exact E|]. eapply copy_keeps; eassumption.
    + eapply IH; eassumption.
Qed.

(** The directory entry of the model, once extracted, survives the rest
    of the extraction, whether it succeeds or fails. *)
Lemma untar_leaves_model_dir (model cacheDir content : string)
  (rest : list tar_next) (fs0 fs1 : FS) (r : option error) :
  untar_loop (Next {| Name := model; Typeflag := TypeDir |} content :: rest)
             cacheDir fs0 = (fs1, r) ->
  (exists fsa, os_MkdirAll (filepath_Join cacheDir model) fs0 = (fsa, None)) ->
  seen (filepath_Join cacheDir model) fs1.
Proof.
  intros E (fsa & Em). cbn [untar_loop Typeflag Name] in E. rewrite Em in E.
  eapply untar_loop_keeps; [exact E|]. eapply mkdir_makes, Em.
Qed.

End InterruptedDownload.

(** X18. An interrupted download is later taken for a cached model.  On
    a file system where created directories exist and extraction removes
    nothing: if the archive starts with the directory of the model and
    the extraction fails afterwards, the first resolution fails with the
    error of the extraction, and the next resolution returns
    [cacheDir/model] with no error and no network call, although the
    directory is incomplete. *)
Theorem interrupted_download_is_cached `{Platform} (model cacheDir : string)
  (show show' : bool) (w : World) (response : Response) (content : string)
  (rest : list tar_next) (fsa fs' : FS) (err : error) :
  (forall p fs0 fs1, os_MkdirAll p fs0 = (fs1, None) -> seen p fs1) ->
  (forall q p fs0 fs1 r, os_MkdirAll p fs0 = (fs1, r) -> seen q fs0 -> seen q fs1) ->
  (forall q p fs0 fs1 r, os_Create p fs0 = (fs1, r) -> seen q fs0 -> seen q fs1) ->
  (forall q p c fs0 fs1 r, io_Copy p c fs0 = (fs1, r) -> seen q fs0 -> seen q fs1) ->
  os_Stat (filepath_Join cacheDir model) (fs w) = Some ENOENT ->
  http_Get (trace w) (downloadURL model) = Ok response ->
  200 <= StatusCode response <= 299 ->
  Body response
  = Gzip (Next {| Name := model; Typeflag := TypeDir |} content :: rest) ->
  os_MkdirAll (filepath_Join cacheDir model) (fs w) = (fsa, None) ->
  untar_loop (Next {| Name := model; Typeflag := TypeDir |} content :: rest)
             cacheDir (fs w) = (fs', Some err) ->
  exists w1,
    retrieveModel model cacheDir show w = (Fail err, w1) /\
    retrieveModel model cacheDir show' w1 = (Ok (filepath_Join cacheDir model), w1) /\
    network_calls (trace w1) = network_calls (trace w) ++ [downloadURL model].
Proof.
  intros Hmk Hkm Hkc Hki Hstat Hget Hcode Hbody Hdir Huntar.
  eexists. split; [|split].
  - rewrite retrieveModel_miss by exact Hstat.
    unfold downloadFromGcs. rewrite Hget.
    replace ((StatusCode response <? 200) || (StatusCode response >? 299)) with false.
    + unfold progressbar_NewReader, untar. rewrite Hbody. cbn [fs trace].
      rewrite Huntar. destruct show; reflexivity.
    + symmetry. apply orb_false_iff. split; [apply Z.ltb_ge; lia|].
      rewrite Z.gtb_ltb. apply Z.ltb_ge. lia.
  - apply retrieveModel_hit. cbn [fs].
    apply (untar_leaves_model_dir Hmk Hkm Hkc Hki model cacheDir content rest
             (fs w) fs' (Some err) Huntar).
    exists fsa. exact Hdir.
  - cbn [trace]. rewrite !network_calls_app. cbn. rewrite app_nil_r. reflexivity.
Qed.

Lemma sample_seen_add (q p : string) (fs0 fs1 : SampleFS) (r : option error) :
  sample_add p fs0 = (fs1, r) ->
  @seen sample_world q fs0 -> @seen sample_world q fs1.
Proof.
  unfold sample_add. intros E. injection E as <- <-.
  unfold seen. cbn [os_Stat sample_world sample_platform]. unfold sample_Stat.
  cbn [present forbidden].
  destruct (mem q (forbidden fs0)); [reflexivity|].
  change (mem q (p :: present fs0)) with (String.eqb q p || mem q (present fs0)).
  destruct (mem q (present fs0)); [|discriminate].
  rewrite orb_true_r. reflexivity.
Qed.

Lemma interrupted_download_is_cached_witness :
  let '(r1, r2, w2) :=
    retrieve_twice "m" "cache" (cold_world (server_200 truncated_archive)) in
  r1 = Fail "unexpected EOF"%string /\ r2 = Ok "cache/m"%string /\
  network_calls (trace w2) = [downloadURL "m"].
Proof.
  destruct (@interrupted_download_is_cached (sample_platform (server_200 truncated_archive))
              "m" "cache" true true (cold_world (server_200 truncated_archive))
              {| StatusCode := 200; Status := "200 OK"%string;
                 ContentLength := 1024; Body := Gzip truncated_archive |}
              ""%string [NextErr "unexpected EOF"%string]
              {| present := ["cache/m"%string]; forbidden := [] |}
              {| present := ["cache/m"%string]; forbidden := [] |}
              "unexpected EOF"%string)
    as (w1 & E1 & E2 & Hn).
  - intros p fs0 fs1 E. cbn [os_MkdirAll sample_platform] in E.
    unfold sample_add in E. injection E as <-.
    unfold seen. cbn [os_Stat sample_platform]. unfold sample_Stat.
    cbn [present forbidden]. destruct (mem p (forbidden fs0)); [reflexivity|].
    unfold mem. cbn [existsb]. rewrite String.eqb_refl. reflexivity.
  - intros q p fs0 fs1 r E. exact (sample_seen_add q p fs0 fs1 r E).
  - intros q p fs0 fs1 r E. exact (sample_seen_add q p fs0 fs1 r E).
  - intros q p c fs0 fs1 r E. cbn [io_Copy sample_platform] in E.
    injection E as <- <-. exact (fun Hq => Hq).
  - reflexivity.
  - reflexivity.
  - cbn. lia.
  - reflexivity.
  - reflexivity.
  - reflexivity.
  - unfold retrieve_twice. rewrite E1, E2.
    split; [reflexivity|]. split; [reflexivity|]. exact Hn.
Defined.

(* ====================================================================== *)
(** * [NewFlagEmbedding] *)

Lemma default_options_fields (options : InitOptions) :
  Model (default_options options)
  = (if String.eqb (Model options) "" then "fast-bge-small-en"%string
     else Model options) /\
  MaxLength (default_options options)
  = (if MaxLength options =? 0 then 512 else MaxLength options) /\
  CacheDir (default_options options)
  = (if String.eqb (CacheDir options) "" then "local_cache"%string
     else CacheDir options) /\
  ShowDownloadProgress (default_options options)
  = Some (show_progress options) /\
  OnnxPath (default_options options) = OnnxPath options /\
  ExecutionProviders (default_options options) = ExecutionProviders options.
Proof.
  unfold default_options, show_progress.
  destruct options as [m ep ml cd sp op]. cbn [Model MaxLength CacheDir
    ShowDownloadProgress OnnxPath ExecutionProviders].
  destruct (String.eqb cd ""); cbn [Model MaxLength CacheDir
    ShowDownloadProgress OnnxPath ExecutionProviders];
  destruct (String.eqb m ""); cbn [Model MaxLength CacheDir
    ShowDownloadProgress OnnxPath ExecutionProviders];
  destruct (ml =? 0); cbn [Model MaxLength CacheDir
    ShowDownloadProgress OnnxPath ExecutionProviders];
  destruct sp as [b|]; cbn [Model MaxLength CacheDir
    ShowDownloadProgress OnnxPath ExecutionProviders];
  repeat split; reflexivity.
Qed.

(** X19. What a successful [NewFlagEmbedding] hands out.  Empty fields of
    the options are filled in ([local_cache], [fast-bge-small-en], 512,
    progress shown) and written back to the caller's options; the handle
    carries that model name, a maximum length that is not 0 (a negative
    one is kept as it is), and the path [cacheDir/model]; the runtime is
    initialized. *)
Theorem NewFlagEmbedding_handle `{HP : Platform} `{HL : @Loader HP}
  (options options' : InitOptions) (p p' : Process) (f : FlagEmbedding) :
  NewFlagEmbedding options p = (Ok f, options', p') ->
  options' = default_options options /\
  model f = (if String.eqb (Model options) "" then "fast-bge-small-en"%string
             else Model options) /\
  maxLength f = (if MaxLength options =? 0 then 512 else MaxLength options) /\
  maxLength f <> 0 /\
  modelPath f
  = filepath_Join (if String.eqb (CacheDir options) "" then "local_cache"%string
                   else CacheDir options) (model f) /\
  ShowDownloadProgress options' <> None /\
  IsInitialized (ort p') = true.
Proof.
  unfold NewFlagEmbedding.
  destruct (default_options_fields options) as (Hm & Hml & Hcd & Hsp & _).
  set (o := default_options options) in *.
  set (ort1 := if negb (String.eqb (OnnxPath o) "") then _ else ort p).
  intros E.
  destruct (negb (IsInitialized ort1)) eqn:Einit.
  - destruct (ort_InitializeEnvironment (SharedLibraryPath ort1)) as [e|];
      [discriminate|].
    destruct (retrieveModel (Model o) (CacheDir o) (show_progress o) (world p))
      as [[path|e|] w1] eqn:Er; try discriminate.
    destruct (pretrained_FromFile _ (fs w1)) as [[]|e|]; try discriminate.
    injection E as <- <- <-. cbn [model maxLength modelPath ort IsInitialized].
    pose proof (retrieveModel_path (Model o) (CacheDir o) (show_progress o) (world p) path)
      as Hp. rewrite Er in Hp. specialize (Hp eq_refl).
    repeat split; try assumption.
    + rewrite Hml. destruct (Z.eqb_spec (MaxLength options) 0); [discriminate|assumption].
    + rewrite Hp, Hcd. reflexivity.
    + rewrite Hsp. discriminate.
  - destruct (retrieveModel (Model o) (CacheDir o) (show_progress o) (world p))
      as [[path|e|] w1] eqn:Er; try discriminate.
    destruct (pretrained_FromFile _ (fs w1)) as [[]|e|]; try discriminate.
    injection E as <- <- <-. cbn [model maxLength modelPath ort].
    pose proof (retrieveModel_path (Model o) (CacheDir o) (show_progress o) (world p) path)
      as Hp. rewrite Er in Hp. specialize (Hp eq_refl).
    repeat split; try assumption.
    + rewrite Hml. destruct (Z.eqb_spec (MaxLength options) 0); [discriminate|assumption].
    + rewrite Hp, Hcd. reflexivity.
    + rewrite Hsp. discriminate.
    + destruct (IsInitialized ort1); [reflexivity|discriminate].
Qed.

Lemma NewFlagEmbedding_handle_witness :
  exists f options' p',
    @NewFlagEmbedding (sample_platform (server_200 model_archive))
      (sample_loader _) zero_options (fresh_process (server_200 model_archive) warm_fs)
    = (Ok f, options', p') /\
    model f = "fast-bge-small-en"%string /\ maxLength f = 512.
Proof.
  destruct (@NewFlagEmbedding (sample_platform (server_200 model_archive))
              (sample_loader _) zero_options
              (fresh_process (server_200 model_archive) warm_fs))
    as [[[f|e|] options'] p'] eqn:E; try (vm_compute in E; discriminate).
  exists f, options', p'. split; [reflexivity|].
  destruct (@NewFlagEmbedding_handle (sample_platform (server_200 model_archive))
              (sample_loader _) zero_options options'
              (fresh_process (server_200 model_archive) warm_fs) p' f E)
    as (_ & Hm & Hml & _).
  split; [exact Hm | exact Hml].
Defined.

Lemma init_failure_returns `{HP : Platform} `{HL : @Loader HP}
  (options : InitOptions) (p : Process) (err : error) :
  IsInitialized (ort p) = false ->
  ort_InitializeEnvironment
    (if String.eqb (OnnxPath options) "" then SharedLibraryPath (ort p)
     else OnnxPath options) = Some err ->
  exists p',
    NewFlagEmbedding options p = (Fail err, default_options options, p') /\
    world p' = world p /\
    IsInitialized (ort p') = false.
Proof.
  intros Hinit Hfail. unfold NewFlagEmbedding.
  destruct (default_options_fields options) as (_ & _ & _ & _ & Hop & _).
  rewrite Hop.
  destruct (String.eqb (OnnxPath options) "") eqn:Eo;
    cbn [negb IsInitialized SharedLibraryPath]; rewrite Hinit; cbn [negb];
    rewrite Hfail; eexists; repeat split; cbn [ort IsInitialized]; assumption.
Qed.

(** X20. When the runtime is not initialized yet and
    [ort.InitializeEnvironment] fails, [NewFlagEmbedding] returns that
    error before the model is looked up: the file system and the network
    are not touched.  The defaults have been written into the caller's
    options all the same. *)
Theorem NewFlagEmbedding_init_failure `{HP : Platform} `{HL : @Loader HP}
  (options : InitOptions) (p : Process) (err : error) :
  IsInitialized (ort p) = false ->
  ort_InitializeEnvironment
    (if String.eqb (OnnxPath options) "" then SharedLibraryPath (ort p)
     else OnnxPath options) = Some err ->
  exists p',
    NewFlagEmbedding options p = (Fail err, default_options options, p') /\
    world p' = world p /\
    IsInitialized (ort p') = false.
Proof. apply init_failure_returns. Qed.

Lemma NewFlagEmbedding_init_failure_witness :
  exists p',
    @NewFlagEmbedding sample_world (sample_loader _)
      {| Model := ""; ExecutionProviders := []; MaxLength := 0; CacheDir := "";
         ShowDownloadProgress := None; OnnxPath := "missing.so" |}
      (fresh_process server_404 empty_fs)
    = (Fail "library not found"%string,
       {| Model := "fast-bge-small-en"; ExecutionProviders := []; MaxLength := 512;
          CacheDir := "local_cache"; ShowDownloadProgress := Some true;
          OnnxPath := "missing.so" |}, p') /\
    world p' = world (fresh_process server_404 empty_fs).
Proof.
  destruct (@NewFlagEmbedding_init_failure sample_world (sample_loader _)
              {| Model := ""; ExecutionProviders := []; MaxLength := 0; CacheDir := "";
                 ShowDownloadProgress := None; OnnxPath := "missing.so" |}
              (fresh_process server_404 empty_fs) "library not found"%string)
    as (p' & E & Hw & _).
  - reflexivity.
  - reflexivity.
  - exists p'. split; [exact E | exact Hw].
Defined.

(** X21. On a warm cache [NewFlagEmbedding] stays local: when the
    directory of the model (after the defaults) is there, the world after
    the call is the world before it, with no GET and no extraction,
    whether the call succeeds or fails. *)
Theorem NewFlagEmbedding_warm_cache `{HP : Platform} `{HL : @Loader HP}
  (options : InitOptions) (p : Process) :
  seen (filepath_Join (CacheDir (default_options options))
                      (Model (default_options options)))
       (fs (world p)) ->
  world (snd (NewFlagEmbedding options p)) = world p.
Proof.
  intros Hseen. unfold NewFlagEmbedding.
  set (o := default_options options) in *.
  set (ort1 := if negb (String.eqb (OnnxPath o) "") then _ else ort p).
  rewrite (retrieveModel_hit (Model o) (CacheDir o) (show_progress o) (world p) Hseen).
  destruct (negb (IsInitialized ort1)).
  - destruct (ort_InitializeEnvironment (SharedLibraryPath ort1)); [reflexivity|].
    destruct (pretrained_FromFile _ (fs (world p))) as [[]|e|]; reflexivity.
  - destruct (pretrained_FromFile _ (fs (world p))) as [[]|e|]; reflexivity.
Qed.

Lemma NewFlagEmbedding_warm_cache_witness :
  world (snd (@NewFlagEmbedding sample_world (sample_loader _) zero_options
                (fresh_process server_404 warm_fs)))
  = world (fresh_process server_404 warm_fs).
Proof.
  apply (@NewFlagEmbedding_warm_cache sample_world (sample_loader _) zero_options
           (fresh_process server_404 warm_fs)).
  reflexivity.
Defined.

(** X22. [Destroy] tears down the runtime for the whole process and
    nothing else: the next [NewFlagEmbedding] initializes it again, and
    fails with the error of [ort.InitializeEnvironment] if that fails,
    even though the model is cached; the world is left as it was. *)
Theorem Destroy_forces_initialization `{HP : Platform} `{HL : @Loader HP}
  (options : InitOptions) (p : Process) (err : error) :
  ort_InitializeEnvironment
    (if String.eqb (OnnxPath options) "" then SharedLibraryPath (ort p)
     else OnnxPath options) = Some err ->
  world (Destroy p) = world p /\
  exists p',
    NewFlagEmbedding options (Destroy p) = (Fail err, default_options options, p') /\
    world p' = world p.
Proof.
  intros Hfail. split; [reflexivity|].
  destruct (init_failure_returns options (Destroy p) err) as (p' & E & Hw & _).
  - reflexivity.
  - exact Hfail.
  - exists p'. split; [exact E | exact Hw].
Qed.

Lemma Destroy_forces_initialization_witness :
  exists p',
    @NewFlagEmbedding sample_world (sample_loader _)
      {| Model := ""; ExecutionProviders := []; MaxLength := 0; CacheDir := "";
         ShowDownloadProgress := None; OnnxPath := "missing.so" |}
      (Destroy (fresh_process server_404 warm_fs))
    = (Fail "library not found"%string,
       {| Model := "fast-bge-small-en"; ExecutionProviders := []; MaxLength := 512;
          CacheDir := "local_cache"; ShowDownloadProgress := Some true;
          OnnxPath := "missing.so" |}, p').
Proof.
  destruct (@Destroy_forces_initialization sample_world (sample_loader _)
              {| Model := ""; ExecutionProviders := []; MaxLength := 0; CacheDir := "";
                 ShowDownloadProgress := None; OnnxPath := "missing.so" |}
              (fresh_process server_404 warm_fs) "library not found"%string)
    as (_ & p' & E & _).
  - reflexivity.
  - exists p'. exact E.
Defined.
